(** * gopher-luar: the bridge between Go values and gopher-lua values

    A shallow embedding of [luar.go] and [map.go] of the vendored package
    [github.com/layeh/gopher-luar]: the forward converter [New], the reverse
    converter [lValueToReflect], the operator tables built by
    [ensureMetatable] and the map proxy ([mapLen], [mapIndex],
    [mapNewIndex], [mapCall]).

    The Go heap and the interpreter state are one explicit [State] threaded
    through a state-and-panic monad; the parts of [reflect] and of
    gopher-lua that the package calls are modelled next to it. *)

From Stdlib Require Import ZArith Bool List Lia.
From Stdlib Require Import Floats.SpecFloat.
From stdpp Require Import base option list gmap strings.

Set Default Proof Using "Type".
Set Warnings "-register-all".

(** ** Go types *)

(** [reflect.Kind]. *)
Inductive Kind :=
| Invalid | Bool | Int | Int8 | Int16 | Int32 | Int64
| Uint | Uint8 | Uint16 | Uint32 | Uint64 | Uintptr
| Float32 | Float64 | Complex64 | Complex128
| Array | Chan | Func | Interface | Map | Ptr | Slice | String | Struct
| UnsafePointer.

(** The predeclared types that are not composite, and [unsafe.Pointer]. *)
Inductive Basic :=
| bool_t | int_t | int8_t | int16_t | int32_t | int64_t
| uint_t | uint8_t | uint16_t | uint32_t | uint64_t | uintptr_t
| float32_t | float64_t | complex64_t | complex128_t
| string_t | unsafe_pointer_t.

(** Go types.  [TInterface] is the empty interface [interface{}]; interface
    types with methods are outside the model.  [TNamed n u] is a type
    declared as [type n u].  A [TypeList] is a list of struct fields, or of
    parameter or result types (whose names are then empty). *)
Inductive GoType :=
| TBasic (b : Basic)
| TArray (len : nat) (elem : GoType)
| TChan (elem : GoType)
| TFunc (ins outs : TypeList) (variadic : bool)
| TInterface
| TMap (key elem : GoType)
| TPtr (elem : GoType)
| TSlice (elem : GoType)
| TStruct (fields : TypeList)
| TNamed (name : string) (underlying : GoType)
with TypeList :=
| TNil
| TCons (name : string) (t : GoType) (rest : TypeList).

Definition Basic_Kind (b : Basic) : Kind :=
  match b with
  | bool_t => Bool
  | int_t => Int | int8_t => Int8 | int16_t => Int16
  | int32_t => Int32 | int64_t => Int64
  | uint_t => Uint | uint8_t => Uint8 | uint16_t => Uint16
  | uint32_t => Uint32 | uint64_t => Uint64 | uintptr_t => Uintptr
  | float32_t => Float32 | float64_t => Float64
  | complex64_t => Complex64 | complex128_t => Complex128
  | string_t => String
  | unsafe_pointer_t => UnsafePointer
  end.

(** [Type.Kind()]: a declared type has the kind of its underlying type. *)
Fixpoint TypeKind (t : GoType) : Kind :=
  match t with
  | TBasic b => Basic_Kind b
  | TArray _ _ => Array
  | TChan _ => Chan
  | TFunc _ _ _ => Func
  | TInterface => Interface
  | TMap _ _ => Map
  | TPtr _ => Ptr
  | TSlice _ => Slice
  | TStruct _ => Struct
  | TNamed _ u => TypeKind u
  end.

Fixpoint underlying (t : GoType) : GoType :=
  match t with
  | TNamed _ u => underlying u
  | _ => t
  end.

(** [Type.Name() != ""]: predeclared and declared types have a name, type
    literals have none. *)
Definition has_name (t : GoType) : bool :=
  match t with
  | TBasic _ | TNamed _ _ => true
  | _ => false
  end.

Global Instance Kind_eq_dec : EqDecision Kind.
Proof. solve_decision. Defined.

Global Instance Basic_eq_dec : EqDecision Basic.
Proof. solve_decision. Defined.

(** Type identity. *)
Fixpoint GoType_eqb (t1 t2 : GoType) {struct t1} : bool :=
  match t1, t2 with
  | TBasic a, TBasic b => bool_decide (a = b)
  | TArray n a, TArray m b => Nat.eqb n m && GoType_eqb a b
  | TChan a, TChan b => GoType_eqb a b
  | TFunc i1 o1 v1, TFunc i2 o2 v2 =>
      TypeList_eqb i1 i2 && TypeList_eqb o1 o2 && Bool.eqb v1 v2
  | TInterface, TInterface => true
  | TMap k1 e1, TMap k2 e2 => GoType_eqb k1 k2 && GoType_eqb e1 e2
  | TPtr a, TPtr b => GoType_eqb a b
  | TSlice a, TSlice b => GoType_eqb a b
  | TStruct f1, TStruct f2 => TypeList_eqb f1 f2
  | TNamed n1 u1, TNamed n2 u2 => String.eqb n1 n2 && GoType_eqb u1 u2
  | _, _ => false
  end
with TypeList_eqb (l1 l2 : TypeList) {struct l1} : bool :=
  match l1, l2 with
  | TNil, TNil => true
  | TCons n1 t1 r1, TCons n2 t2 r2 =>
      String.eqb n1 n2 && GoType_eqb t1 t2 && TypeList_eqb r1 r2
  | _, _ => false
  end.

(** [reflect.directlyAssignable(T, V)]: the types are identical, or at
    least one of them has no name and their underlying types are
    identical. *)
Definition directlyAssignable (T V : GoType) : bool :=
  if GoType_eqb T V then true
  else if has_name T && has_name V then false
  else GoType_eqb (underlying T) (underlying V).

(** [reflect.implements(T, V)] for the interface types of the model: every
    type implements [interface{}]. *)
Definition implements (T V : GoType) : bool :=
  match underlying T with
  | TInterface => true
  | _ => false
  end.

(** Whether [==] is defined on the values of a type (Go spec, "Comparison
    operators"): not on slices, maps and functions, nor on arrays and
    structs that contain them. *)
Fixpoint comparable (t : GoType) : bool :=
  match t with
  | TBasic _ => true
  | TArray _ e => comparable e
  | TChan _ => true
  | TFunc _ _ _ => false
  | TInterface => true
  | TMap _ _ => false
  | TPtr _ => true
  | TSlice _ => false
  | TStruct fs => comparable_fields fs
  | TNamed _ u => comparable u
  end
with comparable_fields (fs : TypeList) : bool :=
  match fs with
  | TNil => true
  | TCons _ t r => comparable t && comparable_fields r
  end.

(** ** Numbers *)

(** [float64]: IEEE 754 binary64, as the standard library specifies it
    ([prec = 53], [emax = 1024]); every float of the model is kept in the
    canonical form of that format. *)
Abbreviation float64 := spec_float (only parsing).

Definition prec64 : Z := 53.
Definition emax64 : Z := 1024.

(** The conversion [float64(n)] of an integer: round to nearest, ties to
    even. *)
Definition float64_of_Z (n : Z) : float64 :=
  binary_normalize prec64 emax64 n 0 false.

(** The conversion [float32(f)], with the result widened back to the
    binary64 form the model stores. *)
Definition float32_round (f : float64) : float64 :=
  match f with
  | S754_finite s m e =>
      match binary_round 24 128 s m e with
      | S754_finite s' m' e' => binary_round prec64 emax64 s' m' e'
      | r => r
      end
  | _ => f
  end.

(** The integer part of a float (truncation towards zero); [None] for NaN
    and the infinities. *)
Definition float_trunc (f : float64) : option Z :=
  match f with
  | S754_zero _ => Some 0%Z
  | S754_finite s m e =>
      Some (cond_Zopp s
              (match e with
               | Zneg p => Z.shiftr (Zpos m) (Zpos p)
               | _ => Z.shiftl (Zpos m) e
               end))
  | _ => None
  end.

(** Two's complement wrap-around to [w] bits. *)
Definition wrap_unsigned (w : Z) (z : Z) : Z := (z mod 2 ^ w)%Z.
Definition wrap_signed (w : Z) (z : Z) : Z :=
  ((z + 2 ^ (w - 1)) mod 2 ^ w - 2 ^ (w - 1))%Z.

(** [int64(f)] and [uint64(f)].  The Go specification leaves the result
    implementation-dependent when the truncated value is not representable;
    the cases marked amd64 are what that port computes. *)
Definition float_to_int64 (f : float64) : Z :=
  match float_trunc f with
  | Some z =>
      if ((- 2 ^ 63 <=? z) && (z <? 2 ^ 63))%Z then z
      else (- 2 ^ 63)%Z                                    (* amd64 *)
  | None => (- 2 ^ 63)%Z                                   (* amd64 *)
  end.

Definition float_to_uint64 (f : float64) : Z :=
  match float_trunc f with
  | Some z =>
      if ((0 <=? z) && (z <? 2 ^ 64))%Z then z
      else if ((- 2 ^ 63 <=? z) && (z <? 0))%Z
           then wrap_unsigned 64 z                         (* amd64 *)
           else (2 ^ 63)%Z                                 (* amd64 *)
  | None => (2 ^ 63)%Z                                     (* amd64 *)
  end.

(** Width in bits of the integer kinds; [int], [uint] and [uintptr] are 64
    bits wide, as on the 64-bit ports. *)
Definition int_bits (k : Kind) : Z :=
  match k with
  | Int8 | Uint8 => 8
  | Int16 | Uint16 => 16
  | Int32 | Uint32 => 32
  | _ => 64
  end.

Definition is_int_kind (k : Kind) : bool :=
  match k with
  | Int | Int8 | Int16 | Int32 | Int64 => true
  | _ => false
  end.

Definition is_uint_kind (k : Kind) : bool :=
  match k with
  | Uint | Uint8 | Uint16 | Uint32 | Uint64 | Uintptr => true
  | _ => false
  end.

(** The values an integer kind can hold. *)
Definition in_range (k : Kind) (z : Z) : bool :=
  if is_int_kind k
  then ((- 2 ^ (int_bits k - 1) <=? z) && (z <? 2 ^ (int_bits k - 1)))%Z
  else if is_uint_kind k
  then ((0 <=? z) && (z <? 2 ^ int_bits k))%Z
  else false.

(** ** Values *)

(** Objects live in heaps; a pointer is an index into one of them. *)
Abbreviation addr := nat (only parsing).

(** The values of the Go interface type [lua.LValue]: the nine types of
    gopher-lua that implement it, and the nil interface value [LValue_nil]
    (which is not the Lua value [LNil]). *)
Inductive LValue :=
| LNil                              (* *lua.LNilType *)
| LBool (b : bool)
| LNumber (n : float64)
| LString (s : string)
| LFunction (p : addr)              (* *lua.LFunction *)
| LUserData (p : addr)              (* *lua.LUserData *)
| LTable (p : addr)                 (* *lua.LTable *)
| LStateV (p : addr)                (* *lua.LState *)
| LChannel (c : addr)               (* lua.LChannel *)
| LValue_nil.

Abbreviation LTrue := (LBool true).
Abbreviation LFalse := (LBool false).

(** The data of a Go value of a given type, and the values of type
    [interface{}]: nil, a Lua value, or a value of another dynamic type. *)
Inductive GoData :=
| DBool (b : bool)
| DInt (z : Z)                      (* every integer kind *)
| DFloat (f : float64)              (* float32 and float64 *)
| DComplex (re im : float64)
| DString (s : string)
| DRef (p : option addr)            (* chan, func, map, pointer: nil or an object *)
| DSlice (p : option addr) (len cap : nat)
| DTuple (ds : list GoData)         (* the elements of an array, the fields of a struct *)
| DType (t : GoType)                (* a type descriptor, *reflect.rtype *)
| DIface (i : iface)                (* a value of an interface type *)
with iface :=
| INil
| ILua (v : LValue)
| IDyn (t : GoType) (d : GoData).

(** [reflect.Value]: the zero Value, or a typed value.  Lua values keep
    their gopher-lua type. *)
Inductive reflect_Value :=
| RInvalid
| RLua (v : LValue)
| RVal (t : GoType) (d : GoData).

(** An [lua.LValue] seen as an [interface{}]. *)
Definition iface_of_LValue (v : LValue) : iface :=
  match v with
  | LValue_nil => INil
  | _ => ILua v
  end.

(** The zero value of a type. *)
Fixpoint zero_data (t : GoType) : GoData :=
  match t with
  | TBasic b =>
      match b with
      | bool_t => DBool false
      | float32_t | float64_t => DFloat (S754_zero false)
      | complex64_t | complex128_t => DComplex (S754_zero false) (S754_zero false)
      | string_t => DString ""
      | unsafe_pointer_t => DRef None
      | _ => DInt 0
      end
  | TArray n e => DTuple (replicate n (zero_data e))
  | TChan _ | TFunc _ _ _ | TMap _ _ | TPtr _ => DRef None
  | TInterface => DIface INil
  | TSlice _ => DSlice None 0 0
  | TStruct fs => DTuple (zero_fields fs)
  | TNamed _ u => zero_data u
  end
with zero_fields (fs : TypeList) : list GoData :=
  match fs with
  | TNil => []
  | TCons _ t r => zero_data t :: zero_fields r
  end.

(** *** Go's [==] *)

Inductive Failure :=
| fatal_lValueToReflect_error       (* panic("fatal lValueToReflect error") *)
| reflect_panic (what : string)     (* a panic raised inside package reflect *)
| runtime_panic (what : string)     (* a Go run-time panic *)
| type_error (n : nat)              (* L.TypeError(n, ...) of gopher-lua *)
| outside_model (what : string).    (* code that lies outside these files *)

(** Equality of two Lua values held in interfaces: by value for booleans,
    numbers and strings, by pointer for the others. *)
Definition LValue_eq (v1 v2 : LValue) : bool :=
  match v1, v2 with
  | LNil, LNil => true
  | LBool a, LBool b => Bool.eqb a b
  | LNumber a, LNumber b => SFeqb a b
  | LString a, LString b => String.eqb a b
  | LFunction a, LFunction b => Nat.eqb a b
  | LUserData a, LUserData b => Nat.eqb a b
  | LTable a, LTable b => Nat.eqb a b
  | LStateV a, LStateV b => Nat.eqb a b
  | LChannel a, LChannel b => Nat.eqb a b
  | LValue_nil, LValue_nil => true
  | _, _ => false
  end.

(** [x == y] at a comparable static type [t]: [None] is the run-time panic
    of comparing interfaces whose shared dynamic type is not comparable. *)
Fixpoint go_eq (t : GoType) (d1 d2 : GoData) {struct d1} : option bool :=
  match d1, d2 with
  | DBool a, DBool b => Some (Bool.eqb a b)
  | DInt a, DInt b => Some (a =? b)%Z
  | DFloat a, DFloat b => Some (SFeqb a b)
  | DComplex a1 a2, DComplex b1 b2 => Some (SFeqb a1 b1 && SFeqb a2 b2)
  | DString a, DString b => Some (String.eqb a b)
  | DRef a, DRef b => Some (bool_decide (a = b))
  | DType a, DType b => Some (GoType_eqb a b)
  | DTuple l1, DTuple l2 =>
      let elem_type :=
        fix elem_type (fs : TypeList) (i : nat) : GoType :=
          match fs, i with
          | TCons _ ft _, O => ft
          | TCons _ _ r, S j => elem_type r j
          | TNil, _ => TInterface
          end in
      let type_at (i : nat) : GoType :=
        match underlying t with
        | TArray _ e => e
        | TStruct fs => elem_type fs i
        | _ => TInterface
        end in
      (fix all_eq (l1 l2 : list GoData) (i : nat) {struct l1} : option bool :=
         match l1, l2 with
         | [], [] => Some true
         | x :: r1, y :: r2 =>
             match go_eq (type_at i) x y with
             | Some true => all_eq r1 r2 (S i)
             | r => r
             end
         | _, _ => Some false
         end) l1 l2 O
  | DIface i1, DIface i2 =>
      match i1, i2 with
      | INil, INil => Some true
      | ILua v1, ILua v2 => Some (LValue_eq v1 v2)
      | IDyn t1 x, IDyn t2 y =>
          if GoType_eqb t1 t2
          then if comparable t1 then go_eq t1 x y else None
          else Some false
      | _, _ => Some false
      end
  | _, _ => Some false
  end.

(** [a == b] on two values of type [interface{}], as in
    [ud1.Value == ud2.Value]. *)
Definition iface_eq (a b : iface) : option bool :=
  go_eq TInterface (DIface a) (DIface b).

(** Whether a map key can be hashed: the run-time panics on an interface
    whose dynamic type is not comparable. *)
Fixpoint hashable (d : GoData) : bool :=
  match d with
  | DTuple ds => forallb hashable ds
  | DIface (IDyn t x) => comparable t && hashable x
  | _ => true
  end.

(** ** The state: the interpreter's objects and the Go heap *)

(** The Go functions that the package registers with the interpreter.  The
    first eighteen are the handlers named in [typeMetatable];
    [fn_mapCall_closure env] is the closure that [mapCall] returns, with
    its captured variables at [env]; [fn_funcWrapper_closure fn] is the
    adapter around the Go function [fn]. *)
Inductive GFunction :=
| fn_chanIndex | fn_chanToString | fn_baseEqual
| fn_mapIndex | fn_mapNewIndex | fn_mapLen | fn_mapCall | fn_baseToString
| fn_ptrIndex | fn_ptrNewIndex | fn_ptrToString
| fn_sliceIndex | fn_sliceNewIndex | fn_sliceLen
| fn_structIndex | fn_structNewIndex
| fn_typeCall | fn_typeToString
| fn_mapCall_closure (env : addr)
| fn_funcWrapper_closure (fn : reflect_Value).

(** [lua.LUserData] (its [Env] field plays no part here). *)
Record UserData := mkUserData { Value : iface; Metatable : LValue }.

(** The variables that the closure of [mapCall] captures. *)
Record mapCall_vars := mkVars {
  var_value : reflect_Value;                (* value *)
  var_keys : list reflect_Value;            (* keys *)
  var_i : nat }.                            (* i *)

(** A Go map object: its entries, in the order in which the run-time
    enumerates them (which Go leaves unspecified). *)
Abbreviation GoMap := (list (GoData * GoData)) (only parsing).

Record State := mkState {
  Registry : addr;                          (* L.G.Registry, a *lua.LTable *)
  tables : list (gmap string LValue);       (* lua.LTable objects, by string key *)
  userdata : list UserData;                 (* lua.LUserData objects *)
  functions : list GFunction;               (* lua.LFunction objects *)
  closures : list mapCall_vars;             (* variables captured by closures *)
  maps : list (list (GoData * GoData));     (* Go map objects *)
  stack : list LValue }.                    (* the frame of the running Go function *)

Definition set_tables (f : list (gmap string LValue) → list (gmap string LValue))
    (s : State) : State :=
  mkState (Registry s) (f (tables s)) (userdata s) (functions s) (closures s)
          (maps s) (stack s).
Definition set_userdata (f : list UserData → list UserData) (s : State) : State :=
  mkState (Registry s) (tables s) (f (userdata s)) (functions s) (closures s)
          (maps s) (stack s).
Definition set_functions (f : list GFunction → list GFunction) (s : State) : State :=
  mkState (Registry s) (tables s) (userdata s) (f (functions s)) (closures s)
          (maps s) (stack s).
Definition set_closures (f : list mapCall_vars → list mapCall_vars) (s : State) : State :=
  mkState (Registry s) (tables s) (userdata s) (functions s) (f (closures s))
          (maps s) (stack s).
Definition set_maps (f : list (list (GoData * GoData)) → list (list (GoData * GoData)))
    (s : State) : State :=
  mkState (Registry s) (tables s) (userdata s) (functions s) (closures s)
          (f (maps s)) (stack s).
Definition set_stack (f : list LValue → list LValue) (s : State) : State :=
  mkState (Registry s) (tables s) (userdata s) (functions s) (closures s)
          (maps s) (f (stack s)).

(** *** The monad: a state, and panics that abort the computation *)

Inductive Res (A : Type) :=
| Ok (a : A) (s : State)
| Panic (e : Failure).
Arguments Ok {A} a s.
Arguments Panic {A} e.

Definition M (A : Type) : Type := State → Res A.

Definition ret {A} (a : A) : M A := λ s, Ok a s.
Definition bind {A B} (m : M A) (k : A → M B) : M B :=
  λ s, match m s with
       | Ok a s' => k a s'
       | Panic e => Panic e
       end.
Definition panic {A} (e : Failure) : M A := λ _, Panic e.
Definition get_state : M State := λ s, Ok s s.
Definition modify (f : State → State) : M unit := λ s, Ok tt (f s).

Declare Scope go_scope.
Delimit Scope go_scope with go.
Notation "x <- m ;; k" := (bind m (λ x, k))
  (at level 100, m at next level, right associativity) : go_scope.
Notation "m ;;; k" := (bind m (λ _, k))
  (at level 100, right associativity) : go_scope.
Local Open Scope go_scope.

(** [for _, x := range l { body x }]. *)
Fixpoint for_range {A} (l : list A) (body : A → M unit) : M unit :=
  match l with
  | [] => ret tt
  | x :: r => body x ;;; for_range r body
  end.

(** Reading an object through a pointer. *)
Definition deref {A} (heap : State → list A) (p : addr) : M A :=
  λ s, match heap s !! p with
       | Some x => Ok x s
       | None => Panic (runtime_panic "invalid memory address or nil pointer dereference")
       end.

(** *** gopher-lua *)

(** [L.G.Registry]. *)
Definition G_Registry : M addr := λ s, Ok (Registry s) s.

(** [L.NewTable()]. *)
Definition NewTable : M addr :=
  λ s, Ok (length (tables s)) (set_tables (λ h, h ++ [∅]) s).

(** [tb.RawGetH(lua.LString(key))]. *)
Definition RawGetH (tb : addr) (key : string) : M LValue :=
  t <- deref tables tb ;;
  ret (default LNil (t !! key)).

(** [tb.RawSetH(lua.LString(key), v)]; storing [LNil] removes the key. *)
Definition RawSetH (tb : addr) (key : string) (v : LValue) : M unit :=
  t <- deref tables tb ;;
  modify (set_tables
            <[tb := match v with LNil => delete key t | _ => <[key := v]> t end]>).

(** [L.NewUserData()]. *)
Definition NewUserData : M addr :=
  λ s, Ok (length (userdata s)) (set_userdata (λ h, h ++ [mkUserData INil LNil]) s).

(** [ud.Value = v] and [ud.Metatable = v]. *)
Definition set_Value (ud : addr) (v : iface) : M unit :=
  u <- deref userdata ud ;;
  modify (set_userdata <[ud := mkUserData v (Metatable u)]>).
Definition set_Metatable (ud : addr) (v : LValue) : M unit :=
  u <- deref userdata ud ;;
  modify (set_userdata <[ud := mkUserData (Value u) v]>).

(** [ud.Value]. *)
Definition get_Value (ud : addr) : M iface :=
  u <- deref userdata ud ;; ret (Value u).

(** [L.NewFunction(fn)]. *)
Definition NewFunction (fn : GFunction) : M addr :=
  λ s, Ok (length (functions s)) (set_functions (λ h, h ++ [fn]) s).

(** [L.Get(n)] for a positive [n]: the [n]-th argument, [LNil] beyond the
    top of the stack. *)
Definition Get (n : nat) : M LValue :=
  λ s, Ok (default LNil (stack s !! (n - 1))) s.

(** [L.CheckUserData(n)]. *)
Definition CheckUserData (n : nat) : M addr :=
  v <- Get n ;;
  match v with
  | LUserData ud => ret ud
  | _ => panic (type_error n)
  end.

(** [L.Push(v)]. *)
Definition Push (v : LValue) : M unit :=
  modify (set_stack (λ st, st ++ [v])).

(** *** Package reflect *)

(** [reflect.ValueOf(x)]: the dynamic value of an [interface{}]. *)
Definition ValueOf (x : iface) : reflect_Value :=
  match x with
  | INil => RInvalid
  | ILua v => RLua v
  | IDyn t d => RVal t d
  end.

(** [v.Kind()]. *)
Definition ValueKind (v : reflect_Value) : Kind :=
  match v with
  | RInvalid => Invalid
  | RLua (LBool _) => Bool
  | RLua (LNumber _) => Float64
  | RLua (LString _) => String
  | RLua (LChannel _) => Chan
  | RLua LValue_nil => Invalid
  | RLua _ => Ptr
  | RVal t _ => TypeKind t
  end.

(** [v.Interface()]. *)
Definition Value_Interface (v : reflect_Value) : M iface :=
  match v with
  | RInvalid => panic (reflect_panic "call of reflect.Value.Interface on zero Value")
  | RLua lv => ret (iface_of_LValue lv)
  | RVal t d =>
      match TypeKind t, d with
      | Interface, DIface x => ret x
      | _, _ => ret (IDyn t d)
      end
  end.

(** [v.Bool()], [v.Int()], [v.Uint()], [v.Float()], [v.String()], each
    called by [New] on a value of the matching kind. *)
Definition Value_Bool (v : reflect_Value) : M bool :=
  match v with
  | RVal _ (DBool b) => ret b
  | _ => panic (reflect_panic "call of reflect.Value.Bool on non-bool Value")
  end.
Definition Value_Int (v : reflect_Value) : M Z :=
  match v with
  | RVal _ (DInt z) => ret z
  | _ => panic (reflect_panic "call of reflect.Value.Int on non-int Value")
  end.
Definition Value_Uint (v : reflect_Value) : M Z :=
  match v with
  | RVal _ (DInt z) => ret z
  | _ => panic (reflect_panic "call of reflect.Value.Uint on non-uint Value")
  end.
Definition Value_Float (v : reflect_Value) : M float64 :=
  match v with
  | RVal _ (DFloat f) => ret f
  | _ => panic (reflect_panic "call of reflect.Value.Float on non-float Value")
  end.
Definition Value_String (v : reflect_Value) : M string :=
  match v with
  | RVal _ (DString s) => ret s
  | _ => panic (reflect_panic "call of reflect.Value.String on non-string Value")
  end.

(** [reflect.Zero(t)]. *)
Definition Zero (t : GoType) : reflect_Value := RVal t (zero_data t).

(** [reflect.ValueOf(n).Convert(hint)] for [n] of type [lua.LNumber], whose
    kind is [Float64] ([convertOp]): to an integer kind through [int64] or
    [uint64] and then cut to the width of the kind, to a float kind, or
    into an [interface{}]; a panic for any other type. *)
Definition Convert_LNumber (n : float64) (hint : GoType) : M reflect_Value :=
  let k := TypeKind hint in
  if is_int_kind k
  then ret (RVal hint (DInt (wrap_signed (int_bits k) (float_to_int64 n))))
  else if is_uint_kind k
  then ret (RVal hint (DInt (wrap_unsigned (int_bits k) (float_to_uint64 n))))
  else match k with
       | Float32 => ret (RVal hint (DFloat (float32_round n)))
       | Float64 => ret (RVal hint (DFloat n))
       | Interface => ret (RVal hint (DIface (ILua (LNumber n))))
       | _ => panic (reflect_panic "reflect.Value.Convert: value of type lua.LNumber cannot be converted")
       end.

(** [v.assignTo(dst)]: [v] as a value of type [dst], when it is directly
    assignable or [dst] is an interface that its type implements. *)
Definition assignTo (v : reflect_Value) (dst : GoType) : M reflect_Value :=
  match v with
  | RInvalid => panic (reflect_panic "call of reflect.Value method on zero Value")
  | RLua lv =>
      if implements dst dst
      then ret (RVal dst (DIface (iface_of_LValue lv)))
      else panic (reflect_panic "value of a gopher-lua type is not assignable")
  | RVal t d =>
      if directlyAssignable dst t then ret (RVal dst d)
      else if implements dst t
      then match TypeKind t, d with
           | Interface, DIface x => ret (RVal dst (DIface x))
           | _, _ => ret (RVal dst (DIface (IDyn t d)))
           end
      else panic (reflect_panic "value is not assignable to type")
  end.

(** [v.Type().Key()] and [v.Type().Elem()]. *)
Definition Type_Key (v : reflect_Value) : M GoType :=
  match v with
  | RInvalid => panic (reflect_panic "call of reflect.Value.Type on zero Value")
  | RLua _ => panic (reflect_panic "reflect: Key of non-map type")
  | RVal t _ =>
      match underlying t with
      | TMap k _ => ret k
      | _ => panic (reflect_panic "reflect: Key of non-map type")
      end
  end.
Definition Type_Elem (v : reflect_Value) : M GoType :=
  match v with
  | RInvalid => panic (reflect_panic "call of reflect.Value.Type on zero Value")
  | RLua _ => panic (outside_model "the element type of a gopher-lua type")
  | RVal t _ =>
      match underlying t with
      | TArray _ e | TChan e | TMap _ e | TPtr e | TSlice e => ret e
      | _ => panic (reflect_panic "reflect: Elem of invalid type")
      end
  end.

(** The first entry of a map whose key is [==] to [k], with its position. *)
Definition key_eqb (kt : GoType) (k1 k2 : GoData) : bool :=
  match go_eq kt k1 k2 with
  | Some true => true
  | _ => false
  end.

Fixpoint map_find (kt : GoType) (k : GoData) (m : list (GoData * GoData))
    (pos : nat) : option (nat * GoData) :=
  match m with
  | [] => None
  | (k', e) :: r =>
      if key_eqb kt k' k then Some (pos, e) else map_find kt k r (S pos)
  end.

(** The map that a value of kind [Map] refers to. *)
Definition as_map (what : string) (v : reflect_Value)
  : M (GoType * GoType * option addr) :=
  match v with
  | RVal t d =>
      match underlying t, d with
      | TMap kt et, DRef p => ret (kt, et, p)
      | _, _ => panic (reflect_panic what)
      end
  | _ => panic (reflect_panic what)
  end.

(** Hashing a key; the run-time hashes the key of a lookup even when the
    map is nil or empty (since Go 1.11; before, it returned at once). *)
Definition check_hashable (k : reflect_Value) : M unit :=
  match k with
  | RVal _ d =>
      if hashable d then ret tt
      else panic (runtime_panic "hash of unhashable type")
  | _ => ret tt
  end.

(** The data of a value, as stored in a map. *)
Definition Value_data (v : reflect_Value) : GoData :=
  match v with
  | RVal _ d => d
  | RLua lv => DIface (iface_of_LValue lv)
  | RInvalid => DIface INil
  end.

(** [v.MapIndex(key)]: the zero Value when the key is absent. *)
Definition MapIndex (v key : reflect_Value) : M reflect_Value :=
  mp <- as_map "call of reflect.Value.MapIndex on non-map Value" v ;;
  let '(kt, et, p) := mp in
  key <- assignTo key kt ;;
  check_hashable key ;;;
  match p with
  | None => ret RInvalid
  | Some a =>
      m <- deref maps a ;;
      match map_find kt (Value_data key) m 0 with
      | Some (_, e) => ret (RVal et e)
      | None => ret RInvalid
      end
  end.

(** [v.SetMapIndex(key, val)]: the zero Value as [val] deletes the key. *)
Definition SetMapIndex (v key val : reflect_Value) : M unit :=
  mp <- as_map "call of reflect.Value.SetMapIndex on non-map Value" v ;;
  let '(kt, et, p) := mp in
  key <- assignTo key kt ;;
  match val with
  | RInvalid =>
      check_hashable key ;;;
      match p with
      | None => ret tt
      | Some a =>
          m <- deref maps a ;;
          match map_find kt (Value_data key) m 0 with
          | Some (pos, _) => modify (set_maps <[a := delete pos m]>)
          | None => ret tt
          end
      end
  | _ =>
      val <- assignTo val et ;;
      match p with
      | None => panic (runtime_panic "assignment to entry in nil map")
      | Some a =>
          check_hashable key ;;;
          m <- deref maps a ;;
          match map_find kt (Value_data key) m 0 with
          | Some (pos, _) =>
              modify (set_maps <[a := <[pos := (Value_data key, Value_data val)]> m]>)
          | None =>
              modify (set_maps <[a := m ++ [(Value_data key, Value_data val)]]>)
          end
      end
  end.

(** [v.MapKeys()]. *)
Definition MapKeys (v : reflect_Value) : M (list reflect_Value) :=
  mp <- as_map "call of reflect.Value.MapKeys on non-map Value" v ;;
  let '(kt, et, p) := mp in
  match p with
  | None => ret []
  | Some a => m <- deref maps a ;; ret (map (λ e, RVal kt (fst e)) m)
  end.

(** [v.Len()], on the kinds whose length the state records. *)
Definition Len (v : reflect_Value) : M nat :=
  match v with
  | RVal t d =>
      match underlying t, d with
      | TMap _ _, DRef None => ret 0
      | TMap _ _, DRef (Some a) => m <- deref maps a ;; ret (length m)
      | TBasic string_t, DString s => ret (String.length s)
      | TSlice _, DSlice _ n _ => ret n
      | TArray n _, _ => ret n
      | TChan _, _ => panic (outside_model "the buffer of a channel")
      | _, _ => panic (reflect_panic "call of reflect.Value.Len on a Value without length")
      end
  | RLua (LString s) => ret (String.length s)
  | RLua (LChannel _) => panic (outside_model "the buffer of a channel")
  | _ => panic (reflect_panic "call of reflect.Value.Len on a Value without length")
  end.

(** The type [*reflect.rtype] of type descriptors, and [reflect.TypeOf(x)]
    held in an [interface{}]. *)
Definition rtype_ptr : GoType := TPtr (TNamed "reflect.rtype" (TStruct TNil)).

Definition TypeOf (x : iface) : M iface :=
  match x with
  | INil => ret INil
  | ILua _ => panic (outside_model "the descriptor of a gopher-lua type")
  | IDyn t _ => ret (IDyn rtype_ptr (DType t))
  end.

(** [v.Type()], held in an [interface{}]. *)
Definition Value_Type (v : reflect_Value) : M iface :=
  match v with
  | RInvalid => panic (reflect_panic "call of reflect.Value.Type on zero Value")
  | RLua _ => panic (outside_model "the descriptor of a gopher-lua type")
  | RVal t _ => ret (IDyn rtype_ptr (DType t))
  end.

(** ** luar.go *)

(** [typeMetatable], as [init] fills it. *)
Definition typeMetatable : list (string * list (string * GFunction)) :=
  [ ("chan",
      [ ("__index", fn_chanIndex);
        ("__tostring", fn_chanToString);
        ("__eq", fn_baseEqual) ]);
    ("map",
      [ ("__index", fn_mapIndex);
        ("__newindex", fn_mapNewIndex);
        ("__len", fn_mapLen);
        ("__call", fn_mapCall);
        ("__tostring", fn_baseToString);
        ("__eq", fn_baseEqual) ]);
    ("ptr",
      [ ("__index", fn_ptrIndex);
        ("__newindex", fn_ptrNewIndex);
        ("__tostring", fn_ptrToString);
        ("__eq", fn_baseEqual) ]);
    ("slice",
      [ ("__index", fn_sliceIndex);
        ("__newindex", fn_sliceNewIndex);
        ("__len", fn_sliceLen);
        ("__tostring", fn_baseToString);
        ("__eq", fn_baseEqual) ]);
    ("struct",
      [ ("__index", fn_structIndex);
        ("__newindex", fn_structNewIndex);
        ("__tostring", fn_baseToString) ]);
    ("type",
      [ ("__call", fn_typeCall);
        ("__tostring", fn_typeToString) ]) ].

(** Package fmt is outside the model: [Sprintf] stands for
    [fmt.Sprintf], from a format and its arguments to the text. *)
Section fmt.
Variable Sprintf : string → list iface → string.

Definition baseToString : M nat :=
  ud <- CheckUserData 1 ;;
  x <- get_Value ud ;;
  let value := ValueOf x in
  ty <- Value_Type value ;;
  i <- Value_Interface value ;;
  let str := Sprintf "userdata: luar: %s %+v (%p)" [ty; i; x] in
  Push (LString str) ;;;
  ret 1.

End fmt.

Definition baseEqual : M nat :=
  ud1 <- CheckUserData 1 ;;
  ud2 <- CheckUserData 2 ;;
  v1 <- get_Value ud1 ;;
  v2 <- get_Value ud2 ;;
  match iface_eq v1 v2 with
  | Some b => Push (LBool b) ;;; ret 1
  | None => panic (runtime_panic "comparing uncomparable type")
  end.

Definition metatableKey : string := "github.com/layeh/gopher-luar".

(** The two loops range over Go maps, whose order of enumeration is not
    specified; they run here in the order of the literal.  Another order
    allocates the same objects at other addresses. *)
Definition ensureMetatable : M addr :=
  registry <- G_Registry ;;
  v <- RawGetH registry metatableKey ;;
  match v with
  | LNil =>
      newTable <- NewTable ;;
      for_range typeMetatable (λ entry,
        let '(typeName, typeMethods) := entry in
        typeTable <- NewTable ;;
        RawSetH typeTable "__metatable" LTrue ;;;
        for_range typeMethods (λ method,
          let '(methodName, methodFunc) := method in
          f <- NewFunction methodFunc ;;
          RawSetH typeTable methodName (LFunction f)) ;;;
        RawSetH newTable typeName (LTable typeTable)) ;;;
      RawSetH registry metatableKey (LTable newTable) ;;;
      ret newTable
  | LTable p => ret p
  | _ => panic (runtime_panic "interface conversion: lua.LValue is not *lua.LTable")
  end.

(** Modelled from the spec: [funcWrapper] lives in a file of the package
    that is not among the sources; by section 4.2 it wraps the host function
    as a script callable, a new function object of the interpreter around an
    adapter closure. *)
Definition funcWrapper (fn : reflect_Value) : M LValue :=
  f <- NewFunction (fn_funcWrapper_closure fn) ;;
  ret (LFunction f).

(** The five cases of [New] that allocate a handle with an operator
    table share this shape:
    [ud := L.NewUserData(); ud.Value = val.Interface();
     ud.Metatable = table.RawGetH(lua.LString(name)); return ud]. *)
Definition new_handle (table : addr) (val : reflect_Value) (name : option string)
  : M LValue :=
  ud <- NewUserData ;;
  x <- Value_Interface val ;;
  set_Value ud x ;;;
  match name with
  | Some n => mt <- RawGetH table n ;; set_Metatable ud mt
  | None => ret tt
  end ;;;
  ret (LUserData ud).

Definition New (value : iface) : M LValue :=
  match value with
  | INil => ret LNil
  | ILua lval => ret lval
  | IDyn _ _ =>
      table <- ensureMetatable ;;
      let val := ValueOf value in
      match ValueKind val with
      | Bool => b <- Value_Bool val ;; ret (LBool b)
      | Int | Int8 | Int16 | Int32 | Int64 =>
          n <- Value_Int val ;; ret (LNumber (float64_of_Z n))
      | Uint | Uint8 | Uint16 | Uint32 | Uint64 =>
          n <- Value_Uint val ;; ret (LNumber (float64_of_Z n))
      | Float32 | Float64 => f <- Value_Float val ;; ret (LNumber f)
      | Chan => new_handle table val (Some "chan")
      | Func => funcWrapper val
      | Interface => new_handle table val None
      | Map => new_handle table val (Some "map")
      | Ptr => new_handle table val (Some "ptr")
      | Slice => new_handle table val (Some "slice")
      | String => s <- Value_String val ;; ret (LString s)
      | Struct => new_handle table val (Some "struct")
      | UnsafePointer => new_handle table val None
      | _ => ret LValue_nil
      end
  end.

Definition NewType (value : iface) : M LValue :=
  table <- ensureMetatable ;;
  valueType <- TypeOf value ;;
  ud <- NewUserData ;;
  set_Value ud valueType ;;;
  mt <- RawGetH table "type" ;;
  set_Metatable ud mt ;;;
  ret (LUserData ud).

Definition lValueToReflect (v : LValue) (hint : GoType) : M reflect_Value :=
  match v with
  | LBool converted => ret (RVal (TBasic bool_t) (DBool converted))
  | LChannel _ => ret (RLua v)
  | LNumber converted => Convert_LNumber converted hint
  | LFunction _ => ret (RLua v)
  | LNil => ret (Zero hint)
  | LStateV _ => ret (RLua v)
  | LString converted => ret (RVal (TBasic string_t) (DString converted))
  | LTable _ => ret (RLua v)
  | LUserData converted => x <- get_Value converted ;; ret (ValueOf x)
  | LValue_nil => panic fatal_lValueToReflect_error
  end.

(** ** map.go *)

Definition mapLen : M nat :=
  ud <- CheckUserData 1 ;;
  x <- get_Value ud ;;
  let value := ValueOf x in
  n <- Len value ;;
  Push (LNumber (float64_of_Z (Z.of_nat n))) ;;;
  ret 1.

Definition mapIndex : M nat :=
  ud <- CheckUserData 1 ;;
  lKey <- Get 2 ;;
  x <- get_Value ud ;;
  let value := ValueOf x in
  kt <- Type_Key value ;;
  key <- lValueToReflect lKey kt ;;
  item <- MapIndex value key ;;
  match item with
  | RInvalid => ret 0
  | _ =>
      y <- Value_Interface item ;;
      r <- New y ;;
      Push r ;;;
      ret 1
  end.

Definition mapNewIndex : M nat :=
  ud <- CheckUserData 1 ;;
  lKey <- Get 2 ;;
  lValue <- Get 3 ;;
  x <- get_Value ud ;;
  let value := ValueOf x in
  kt <- Type_Key value ;;
  key <- lValueToReflect lKey kt ;;
  et <- Type_Elem value ;;
  mapValue <- lValueToReflect lValue et ;;
  SetMapIndex value key mapValue ;;;
  ret 0.

(** The closure [fn] of [mapCall]; [env] holds its captured [value], [keys]
    and [i]. *)
Definition mapCall_fn (env : addr) : M nat :=
  vars <- deref closures env ;;
  match var_keys vars !! var_i vars with
  | None => ret 0                                   (* i >= len(keys) *)
  | Some key =>
      x <- Value_Interface key ;;
      k <- New x ;;
      Push k ;;;
      item <- MapIndex (var_value vars) key ;;
      y <- Value_Interface item ;;
      v <- New y ;;
      Push v ;;;
      modify (set_closures
                <[env := mkVars (var_value vars) (var_keys vars) (S (var_i vars))]>) ;;;
      ret 2
  end.

Definition mapCall : M nat :=
  ud <- CheckUserData 1 ;;
  x <- get_Value ud ;;
  let value := ValueOf x in
  keys <- MapKeys value ;;
  env <- (λ s, Ok (length (closures s))
                  (set_closures (λ h, h ++ [mkVars value keys 0]) s)) ;;
  f <- NewFunction (fn_mapCall_closure env) ;;
  Push (LFunction f) ;;;
  ret 1.

(** ** Calling a registered Go function *)

(** The interpreter calls a Go function on a fresh frame that holds the
    arguments; the function pushes its results and returns their number. *)
Definition call (body : M nat) (args : list LValue) : M (list LValue) :=
  caller <- get_state ;;
  modify (set_stack (λ _, args)) ;;;
  n <- body ;;
  callee <- get_state ;;
  modify (set_stack (λ _, stack caller)) ;;;
  ret (drop (length (stack callee) - n) (stack callee)).

(** The body of a registered function, for the functions whose source is
    in these files. *)
Definition handler (Sprintf : string → list iface → string) (g : GFunction)
  : option (M nat) :=
  match g with
  | fn_baseToString => Some (baseToString Sprintf)
  | fn_baseEqual => Some baseEqual
  | fn_mapLen => Some mapLen
  | fn_mapIndex => Some mapIndex
  | fn_mapNewIndex => Some mapNewIndex
  | fn_mapCall => Some mapCall
  | fn_mapCall_closure env => Some (mapCall_fn env)
  | _ => None
  end.

(** What the package does to the state: its two entry points, the
    initialization of the registry, and a call by the interpreter of one of
    the functions it registered.  [run] executes the functions whose code
    is in these files, and stops with [outside_model] at a function of
    another file; [run_all], below, goes on with what the spec says of
    those. *)
Inductive operation :=
| op_New (value : iface)
| op_NewType (value : iface)
| op_ensureMetatable
| op_call (g : GFunction) (args : list LValue).

Definition run (Sprintf : string → list iface → string) (op : operation)
  : M (list LValue) :=
  match op with
  | op_New value => v <- New value ;; ret [v]
  | op_NewType value => v <- NewType value ;; ret [v]
  | op_ensureMetatable => p <- ensureMetatable ;; ret [LTable p]
  | op_call g args =>
      match handler Sprintf g with
      | Some body => call body args
      | None => panic (outside_model "a handler of another file")
      end
  end.

(** An index expression or a comparison uses the first result of the
    handler it calls, [LNil] when the handler returns none. *)
Definition first_result (rs : list LValue) : LValue := default LNil (head rs).

(** ** The objects that [ensureMetatable] builds *)

(** The table of one kind, filled in the order of its methods; the
    functions are allocated from [F + k] on. *)
Fixpoint method_table (F k : nat) (methods : list (string * GFunction))
    (t : gmap string LValue) : gmap string LValue :=
  match methods with
  | [] => t
  | m :: r => method_table F (S k) r (<[m.1 := LFunction (F + k)]> t)
  end.

Fixpoint type_tables (F k : nat) (tm : list (string * list (string * GFunction)))
  : list (gmap string LValue) :=
  match tm with
  | [] => []
  | e :: r =>
      method_table F k e.2 (<["__metatable" := LTrue]> ∅)
      :: type_tables F (k + length e.2) r
  end.

(** The table of the kinds; the table of the [k]-th kind is at [T + k]. *)
Fixpoint names_table (T k : nat) (tm : list (string * list (string * GFunction)))
    (t : gmap string LValue) : gmap string LValue :=
  match tm with
  | [] => t
  | e :: r => names_table T (S k) r (<[e.1 := LTable (T + k)]> t)
  end.

(** The seven tables, the first of which is allocated at [T], and the
    twenty-three functions, the first of which is allocated at [F]. *)
Definition operator_tables (T F : nat) : list (gmap string LValue) :=
  names_table T 1 typeMetatable ∅ :: type_tables F 0 typeMetatable.

Definition operator_functions : list GFunction :=
  concat (map (λ e, map snd e.2) typeMetatable).

(** The state after the first call of [ensureMetatable], from a state whose
    registry [reg] has no entry under [metatableKey]. *)
Definition built (s : State) (reg : gmap string LValue) : State :=
  mkState (Registry s)
    (<[Registry s := <[metatableKey := LTable (length (tables s))]> reg]>
       (tables s
        ++ operator_tables (length (tables s)) (length (functions s))))
    (userdata s) (functions s ++ operator_functions)
    (closures s) (maps s) (stack s).

(** The registry has no entry under [metatableKey] yet. *)
Definition fresh (s : State) : Prop :=
  ∃ reg, tables s !! Registry s = Some reg ∧ reg !! metatableKey = None.

(** The registry holds, under [metatableKey], the table [p] that
    [ensureMetatable] built, with its tables and functions in place. *)
Definition initialized (s : State) (p : addr) : Prop :=
  (∃ reg, tables s !! Registry s = Some reg
          ∧ reg !! metatableKey = Some (LTable p))
  ∧ Registry s < p
  ∧ ∃ F, (∀ k t, operator_tables p F !! k = Some t → tables s !! (p + k) = Some t)
         ∧ (∀ k g, operator_functions !! k = Some g → functions s !! (F + k) = Some g).

(** A state in which the package can run: the operator tables are built,
    or will be at the first conversion. *)
Definition ready (s : State) : Prop := fresh s ∨ ∃ p, initialized s p.

(** The handles of [s] are in [s'] as they were, with the value and the
    operator table they had, and so are the operator tables, once built. *)
Definition handles_kept (s s' : State) : Prop :=
  userdata s `prefix_of` userdata s' ∧ ∀ p, initialized s p → initialized s' p.

(** The operator table of a handle: the table of the kind [name] in the
    table [p] of the registry. *)
Definition kind_table (s : State) (p : addr) (name : string) : option LValue :=
  t ← tables s !! p; t !! name.

(** In-place update of a list, by structural recursion. *)
Fixpoint set_nth {A} (k : nat) (x : A) (L : list A) : list A :=
  match L, k with
  | [], _ => []
  | _ :: r, O => x :: r
  | y :: r, S j => y :: set_nth j x r
  end.

(** What a call of [ensureMetatable] leaves untouched. *)
Definition same_objects (s s1 : State) : Prop :=
  Registry s1 = Registry s ∧ userdata s1 = userdata s
  ∧ closures s1 = closures s ∧ maps s1 = maps s ∧ stack s1 = stack s.

(** The operator table that [New] attaches to a handle of a given kind:
    [None] for the kinds that get no handle, [Some None] for the handles
    without operator table. *)
Definition handle_table (k : Kind) : option (option string) :=
  match k with
  | Chan => Some (Some "chan")
  | Map => Some (Some "map")
  | Ptr => Some (Some "ptr")
  | Slice => Some (Some "slice")
  | Struct => Some (Some "struct")
  | Interface | UnsafePointer => Some None
  | _ => None
  end.

Definition attached (s : State) (p : addr) (name : option string) : LValue :=
  match name with
  | Some n => default LNil (kind_table s p n)
  | None => LNil
  end.

(** A new interpreter: an empty registry and no other object. *)
Definition initial_state : State := mkState 0 [∅] [] [] [] [] [].

(** The kinds that have a case in the switch of [New]. *)
Definition switch_kinds : list Kind :=
  [ Bool; Int; Int8; Int16; Int32; Int64;
    Uint; Uint8; Uint16; Uint32; Uint64;
    Float32; Float64; Chan; Func; Interface; Map; Ptr; Slice; String;
    Struct; UnsafePointer ].

(** [lua.LValueType], and [v.Type()] for a script value; the nil interface
    has no type. *)
Inductive LValueType :=
| LTNil | LTBool | LTNumber | LTString | LTFunction | LTUserData
| LTThread | LTTable | LTChannel.

Definition LValue_Type (v : LValue) : option LValueType :=
  match v with
  | LNil => Some LTNil
  | LBool _ => Some LTBool
  | LNumber _ => Some LTNumber
  | LString _ => Some LTString
  | LFunction _ => Some LTFunction
  | LUserData _ => Some LTUserData
  | LStateV _ => Some LTThread
  | LTable _ => Some LTTable
  | LChannel _ => Some LTChannel
  | LValue_nil => None
  end.

(** Forward conversion of the host value [d] of type [t], then reverse
    conversion with [t] as the hint, gives the value back. *)
Definition roundtrip (t : GoType) (d : GoData) (s : State) : Prop :=
  ∃ s', (v <- New (IDyn t d) ;; lValueToReflect v t) s = Ok (RVal t d) s'.

(** The integer kinds that [New] converts: all but [Uintptr]. *)
Definition converted_int_kind (k : Kind) : bool :=
  is_int_kind k || (is_uint_kind k && negb (bool_decide (k = Uintptr))).

(** The primitive host values that make the round trip: the values of the
    predeclared types [bool] and [string], and the integers of any type of
    a converted integer kind that lie within the range where [float64] is
    exact. *)
Inductive round_trips : GoType → GoData → Prop :=
| rt_bool b : round_trips (TBasic bool_t) (DBool b)
| rt_string x : round_trips (TBasic string_t) (DString x)
| rt_int t z :
    converted_int_kind (TypeKind t) = true →
    in_range (TypeKind t) z = true →
    (Z.abs z <= 2 ^ 53)%Z →
    round_trips t (DInt z).

(** The entries of the map that a map value refers to; a nil map has
    none. *)
Definition map_entries (s : State) (p : option addr)
  : option (list (GoData * GoData)) :=
  match p with
  | None => Some []
  | Some a => maps s !! a
  end.

(** The handle [ud] wraps a map with keys of type [kt] and elements of type
    [et], whose map object is [p]. *)
Definition map_handle (s : State) (ud : addr) (kt et : GoType)
    (p : option addr) : Prop :=
  ∃ u t, userdata s !! ud = Some u ∧ Value u = IDyn t (DRef p)
         ∧ underlying t = TMap kt et.

(** The host key that the script value [lKey] stands for in a map with
    keys of type [kt]: its reverse conversion, assigned to the key type;
    [None] when one of the steps panics. *)
Definition host_key (s : State) (lKey : LValue) (kt : GoType) : option GoData :=
  match (key <- lValueToReflect lKey kt ;;
         key <- assignTo key kt ;;
         check_hashable key ;;;
         ret (Value_data key)) s with
  | Ok k _ => Some k
  | Panic _ => None
  end.

(** The host element that the script value [lValue] stands for in a map
    with elements of type [et]: its reverse conversion, assigned to the
    element type.  [Some None] is the zero [reflect.Value], with which
    [SetMapIndex] deletes; [None] when one of the steps panics. *)
Definition host_elem (s : State) (lValue : LValue) (et : GoType)
  : option (option GoData) :=
  match (val <- lValueToReflect lValue et ;;
         match val with
         | RInvalid => ret None
         | _ => val <- assignTo val et ;; ret (Some (Value_data val))
         end) s with
  | Ok e _ => Some e
  | Panic _ => None
  end.

(** The [interface{}] that [Interface()] returns for an element [e] of
    type [et] read from a map. *)
Definition stored_iface (et : GoType) (e : GoData) : iface :=
  match TypeKind et, e with
  | Interface, DIface x => x
  | _, _ => IDyn et e
  end.

(** The entries of a map after [m[k] = e]. *)
Definition map_assign (kt : GoType) (k e : GoData) (m : list (GoData * GoData))
  : list (GoData * GoData) :=
  match map_find kt k m 0 with
  | Some (pos, _) => <[pos := (k, e)]> m
  | None => m ++ [(k, e)]
  end.

(** A computation neither reads nor writes the frame of the running
    function. *)
Definition res_map {A} (f : State → State) (r : Res A) : Res A :=
  match r with
  | Ok a s => Ok a (f s)
  | Panic e => Panic e
  end.

Definition stack_indep {A} (m : M A) : Prop :=
  ∀ f s, m (set_stack f s) = res_map (set_stack f) (m s).

(** Every run of a computation relates its initial and final states by
    [R]. *)
Definition keeps {A} (R : State → State → Prop) (m : M A) : Prop :=
  ∀ s a s', m s = Ok a s' → R s s'.

(** A Go program with the map of the package documentation, after the
    conversion [New(L, places)]: the map object is at address 0 of the Go
    heap, its handle at address 0 of the userdata. *)
Definition places_entries : list (GoData * GoData) :=
  [ (DString "NA", DString "North America");
    (DString "EU", DString "European Union") ].

Definition places : iface :=
  IDyn (TMap (TBasic string_t) (TBasic string_t)) (DRef (Some 0)).

Definition state_of {A} (r : Res A) : State :=
  match r with
  | Ok _ s => s
  | Panic _ => initial_state
  end.

Definition places_state : State :=
  state_of (New places (set_maps (λ _, [places_entries]) initial_state)).

(** A nil map of type [map[string]int] and an empty map of type
    [map[float64]string], each after its conversion by [New]. *)
Definition nil_map : iface :=
  IDyn (TMap (TBasic string_t) (TBasic int_t)) (DRef None).

Definition nil_map_state : State := state_of (New nil_map initial_state).

Definition float_map : iface :=
  IDyn (TMap (TBasic float64_t) (TBasic string_t)) (DRef (Some 0)).

Definition float_map_state : State :=
  state_of (New float_map (set_maps (λ _, [[]]) initial_state)).

(** The script values that an element type holds exactly: forward
    conversion of what was stored gives them back. *)
Inductive reads_back : LValue → GoType → Prop :=
| rb_bool b : reads_back (LBool b) (TBasic bool_t)
| rb_string x : reads_back (LString x) (TBasic string_t)
| rb_int z t :
    converted_int_kind (TypeKind t) = true →
    in_range (TypeKind t) z = true →
    (Z.abs z <= 2 ^ 53)%Z →
    reads_back (LNumber (float64_of_Z z)) t.

(** An empty map of type [map[string]int], after its conversion by
    [New], and the number 3.5. *)
Definition int_map : iface :=
  IDyn (TMap (TBasic string_t) (TBasic int_t)) (DRef (Some 0)).

Definition int_map_state : State :=
  state_of (New int_map (set_maps (λ _, [[]]) initial_state)).

Definition three_and_a_half : float64 :=
  binary_normalize prec64 emax64 7 (-1) false.

(** An empty map of type [map[string]uintptr], after its conversion by
    [New]. *)
Definition uintptr_map : iface :=
  IDyn (TMap (TBasic string_t) (TBasic uintptr_t)) (DRef (Some 0)).

Definition uintptr_map_state : State :=
  state_of (New uintptr_map (set_maps (λ _, [[]]) initial_state)).

(** The entry ["__eq"] of the operator table of the handle [h]: the
    handler that the interpreter calls to compare two handles. *)
Definition eq_handler (s : State) (h : addr) : option LValue :=
  u ← userdata s !! h;
  match Metatable u with
  | LTable tp => t ← tables s !! tp; t !! "__eq"
  | _ => None
  end.

(** A struct value, and the state after two conversions of it by [New];
    the state after two conversions of the map [places]. *)
Definition tim : iface :=
  IDyn (TNamed "Person" (TStruct (TCons "Name" (TBasic string_t) TNil)))
       (DTuple [DString "Tim"]).

Definition tim_state : State :=
  state_of ((New tim ;;; New tim) initial_state).

Definition places_twice_state : State :=
  state_of ((New places ;;; New places)
              (set_maps (λ _, [places_entries]) initial_state)).

(** A channel of strings, as a host value. *)
Definition ch : iface := IDyn (TChan (TBasic string_t)) (DRef (Some 7)).

(** [fmt.Sprintf] is left uninterpreted; this stand-in ignores the
    arguments. *)
Definition no_Sprintf (format : string) (args : list iface) : string := format.

(** The Go statement [delete(m, k)] on a map value, which package reflect
    spells [m.SetMapIndex(k, reflect.Value{})]. *)
Definition go_delete (m k : reflect_Value) : M unit := SetMapIndex m k RInvalid.

(** The run of the package documentation, with a deletion by the host
    between two steps of the iteration: the map [places] is converted, the
    handle is called, which gives the iterator; the host deletes the key
    ["EU"]; the iterator is then invoked [n] times. *)
Fixpoint invoke (f : GFunction) (n : nat) : M (list (list LValue)) :=
  match n with
  | O => ret []
  | S n =>
      r <- run no_Sprintf (op_call f []) ;;
      rs <- invoke f n ;;
      ret (r :: rs)
  end.

Definition iterate_with_deletion (n : nat) : M (list (list LValue)) :=
  h <- New places ;;
  it <- run no_Sprintf (op_call fn_mapCall [h]) ;;
  go_delete (ValueOf places) (RVal (TBasic string_t) (DString "EU")) ;;;
  match it with
  | [LFunction f] => g <- deref functions f ;; invoke g n
  | _ => ret []
  end.

(** The iteration over a map of type [map[float64]string] whose only key
    is NaN. *)
Definition nan_entries : list (GoData * GoData) := [(DFloat S754_nan, DString "x")].

Definition iterate_nan (n : nat) : M (list (list LValue)) :=
  h <- New float_map ;;
  it <- run no_Sprintf (op_call fn_mapCall [h]) ;;
  match it with
  | [LFunction f] => g <- deref functions f ;; invoke g n
  | _ => ret []
  end.

(** A state extended with new tables and functions. *)
Definition ext (s : State) (L : list (gmap string LValue)) (F : list GFunction)
  : State :=
  mkState (Registry s) (tables s ++ L) (userdata s) (functions s ++ F)
          (closures s) (maps s) (stack s).

(** Mutual induction on types and lists of types. *)
Scheme GoType_mut := Induction for GoType Sort Prop
  with TypeList_mut := Induction for TypeList Sort Prop.
Combined Scheme GoType_TypeList_ind from GoType_mut, TypeList_mut.

(** The numeric conversions stay folded in proofs. *)
Arguments float64_of_Z : simpl never.
Arguments float_to_int64 : simpl never.
Arguments float_to_uint64 : simpl never.
Arguments wrap_signed : simpl never.
Arguments wrap_unsigned : simpl never.

(** The host type that [lValueToReflect] gives to a boolean or a string,
    whatever the hint. *)
Definition fixed_type (v : LValue) : option Basic :=
  match v with
  | LBool _ => Some bool_t
  | LString _ => Some string_t
  | _ => None
  end.

(** A computation ends in a panic. *)
Definition panics {A} (r : Res A) : Prop := ∃ e, r = Panic e.

(** A Go program with a map of type [map[Name]int], where [Name] is declared
    as [type Name string], after its conversion by [New]. *)
Definition ages : iface :=
  IDyn (TMap (TNamed "Name" (TBasic string_t)) (TBasic int_t)) (DRef (Some 0)).

Definition ages_state : State :=
  state_of (New ages (set_maps (λ _, [[(DString "Tim", DInt 5)]]) initial_state)).

(** The state [places_state] after [NewType(L, nil)], whose handle, at
    address 1, holds no value. *)
Definition places_nil_type_state : State :=
  state_of (NewType INil places_state).

(** The kinds of hint to which [Convert] takes a number: the integer and
    the float kinds, and [Interface]. *)
Definition numeric_hint (k : Kind) : bool :=
  is_int_kind k || is_uint_kind k
  || bool_decide (k = Float32) || bool_decide (k = Float64)
  || bool_decide (k = Interface).

(** The number 1.5, which [float32] holds exactly. *)
Definition one_and_a_half : float64 :=
  binary_normalize prec64 emax64 3 (-1) false.

(** An interpreter in which another package has stored a string under the
    registry key of this one. *)
Definition taken_state : State :=
  mkState 0 [{[ metatableKey := LString "taken" ]}] [] [] [] [] [].

(** The Go heap is left as it is: no map is written. *)
Definition maps_kept (s s' : State) : Prop := maps s' = maps s.

(** The keys on which [==] is the identity of the data: booleans, integers,
    strings and references. *)
Definition discrete (d : GoData) : bool :=
  match d with
  | DBool _ | DInt _ | DString _ | DRef _ => true
  | _ => false
  end.

(** A Go program with a map of type [map[string]interface{}], empty, after
    its conversion by [New]. *)
Definition any_map : iface :=
  IDyn (TMap (TBasic string_t) TInterface) (DRef (Some 0)).

Definition any_map_state : State :=
  state_of (New any_map (set_maps (λ _, [[]]) initial_state)).

(** The script value that [New] returns for a boolean, a number or a
    string: the conversions that allocate nothing. *)
Definition scalar (t : GoType) (d : GoData) : option LValue :=
  match TypeKind t, d with
  | Bool, DBool b => Some (LBool b)
  | (Int | Int8 | Int16 | Int32 | Int64
     | Uint | Uint8 | Uint16 | Uint32 | Uint64), DInt z =>
      Some (LNumber (float64_of_Z z))
  | (Float32 | Float64), DFloat f => Some (LNumber f)
  | String, DString x => Some (LString x)
  | _, _ => None
  end.

(** The pair of script values for an entry of a map of scalars. *)
Definition pair_of (kt et : GoType) (entry : GoData * GoData)
  : option (list LValue) :=
  rk ← scalar kt entry.1; rv ← scalar et entry.2; Some [rk; rv].

(** What an invocation of the iterator yields for the key [k] of its
    snapshot when the map holds the entries [m]: the key, and the element
    found under it. *)
Definition yielded (kt et : GoType) (m : list (GoData * GoData)) (k : GoData)
  : option (list LValue) :=
  match map_find kt k m 0 with
  | Some (_, e) => pair_of kt et (k, e)
  | None => None
  end.

(** The table of the doc comment of [New]: the kind of the host value and
    the gopher-lua type of the result.  (It has no line for [Uint16].) *)
Definition documented : list (Kind * LValueType) :=
  [ (Bool, LTBool);
    (Int, LTNumber); (Int8, LTNumber); (Int16, LTNumber); (Int32, LTNumber);
    (Int64, LTNumber);
    (Uint, LTNumber); (Uint8, LTNumber); (Uint32, LTNumber); (Uint64, LTNumber);
    (Float32, LTNumber); (Float64, LTNumber);
    (Chan, LTUserData); (Interface, LTUserData); (Func, LTFunction);
    (Map, LTUserData); (Ptr, LTUserData); (Slice, LTUserData);
    (String, LTString); (Struct, LTUserData); (UnsafePointer, LTUserData) ].

(** The data of a host value have the form of its kind, for the kinds
    that [New] reads with [Bool], [Int], [Uint], [Float] or [String]. *)
Definition fits (k : Kind) (d : GoData) : bool :=
  match k, d with
  | Bool, DBool _ => true
  | (Int | Int8 | Int16 | Int32 | Int64
     | Uint | Uint8 | Uint16 | Uint32 | Uint64 | Uintptr), DInt _ => true
  | (Float32 | Float64), DFloat _ => true
  | String, DString _ => true
  | (Bool | Int | Int8 | Int16 | Int32 | Int64
     | Uint | Uint8 | Uint16 | Uint32 | Uint64 | Uintptr
     | Float32 | Float64 | String), _ => false
  | _, _ => true
  end.

(** A Go program with a map of type [map[string][]int] that holds one
    slice, after its conversion by [New]. *)
Definition scores_entries : list (GoData * GoData) :=
  [ (DString "Tim", DSlice (Some 3) 2 2) ].

Definition scores : iface :=
  IDyn (TMap (TBasic string_t) (TSlice (TBasic int_t))) (DRef (Some 0)).

Definition scores_state : State :=
  state_of (New scores (set_maps (λ _, [scores_entries]) initial_state)).

(** A Go program with a map of type [map[interface{}]string] whose keys
    are the Go values [1] (an [int]) and ["one"], after its conversion by
    [New]. *)
Definition mixed_entries : list (GoData * GoData) :=
  [ (DIface (IDyn (TBasic int_t) (DInt 1)), DString "int");
    (DIface (IDyn (TBasic string_t) (DString "one")), DString "string") ].

Definition mixed : iface :=
  IDyn (TMap TInterface (TBasic string_t)) (DRef (Some 0)).

Definition mixed_state : State :=
  state_of (New mixed (set_maps (λ _, [mixed_entries]) initial_state)).

(** A Go program with a map of type [map[string]int] that has an entry
    for the empty string, after its conversion by [New]. *)
Definition counts_entries : list (GoData * GoData) :=
  [ (DString "a", DInt 1); (DString "", DInt 7) ].

Definition counts : iface :=
  IDyn (TMap (TBasic string_t) (TBasic int_t)) (DRef (Some 0)).

Definition counts_state : State :=
  state_of (New counts (set_maps (λ _, [counts_entries]) initial_state)).

(** ** The handles that the conversions make *)

(** The handle [u] is as a conversion makes it in the state [s]: [New]
    stores the value and attaches the operator table that the registry
    table holds under the name of the kind of the value (none for the kinds
    [Interface] and [UnsafePointer]); [NewType] attaches the table held
    under ["type"]. *)
Inductive made_by_conversion (s : State) (u : UserData) : Prop :=
| by_New t d p name :
    initialized s p →
    Value u = stored_iface t d →
    handle_table (TypeKind t) = Some name →
    Metatable u = attached s p name →
    made_by_conversion s u
| by_NewType p :
    initialized s p →
    Metatable u = attached s p (Some "type") →
    made_by_conversion s u.

(** The part of the interpreter that only the conversions write is left as
    it is: the handles, the tables and the registry. *)
Definition interpreter_kept (s s' : State) : Prop :=
  userdata s' = userdata s ∧ tables s' = tables s ∧ Registry s' = Registry s.

(** From a state in which the package can run to another one, with the
    handles kept, and every handle that is new made by a conversion. *)
Definition handles_converted (s s' : State) : Prop :=
  ready s →
  ready s'
  ∧ handles_kept s s'
  ∧ ∀ h u, userdata s !! h = None → userdata s' !! h = Some u →
           made_by_conversion s' u.

(** ** The handlers of the other files *)

(** The host operation of a handler that is in another file: from the
    handler, the arguments of the call, the handles of the interpreter
    (which the reverse converter reads) and the Go heap, a fatal error
    ([None]) or the Go heap after the operation together with the host
    values that the operation returns. *)
Definition HostOperation : Type :=
  GFunction → list LValue → list UserData → list (list (GoData * GoData))
  → option (list (list (GoData * GoData)) * list iface).

Section other_files.

Variable host_operation : HostOperation.

(** Modelled from the spec: the handlers of the channel, pointer, slice,
    struct and type proxies ([chanIndex], [chanToString], [ptrIndex],
    [ptrNewIndex], [ptrToString], [sliceIndex], [sliceNewIndex], [sliceLen],
    [structIndex], [structNewIndex], [typeCall], [typeToString]) and the
    closure of the function adapter are in files of the package that are
    not among the sources.  By sections 2 and 4.2 to 4.8 such a handler
    takes its arguments through the reverse converter, which reads the
    values of the handles, performs an operation of the host on the host
    value that a handle refers to, fails fatally on an error, and gives its
    results, in order, through the forward converter [New].  What the
    operation does on the host side is the parameter [host_operation]; it
    acts on the Go heap and on nothing of the interpreter.  So a handler of
    this form makes handles through [New] only: that the handlers of the
    other files write no field of a handle themselves is what section 3
    says of them, and is not checked against their code. *)
Definition absent_handler (g : GFunction) : M nat :=
  s <- get_state ;;
  match host_operation g (stack s) (userdata s) (maps s) with
  | None => panic (outside_model "a fatal error of a handler of another file")
  | Some (heap, results) =>
      modify (set_maps (λ _, heap)) ;;;
      for_range results (λ x, r <- New x ;; Push r) ;;;
      ret (length results)
  end.

(** The body of every registered function: the code of these files, or the
    model of the code of the other files. *)
Definition handler_all (Sprintf : string → list iface → string) (g : GFunction)
  : M nat :=
  match handler Sprintf g with
  | Some body => body
  | None => absent_handler g
  end.

(** What the package does to the state, the handlers of the other files
    included. *)
Definition run_all (Sprintf : string → list iface → string) (op : operation)
  : M (list LValue) :=
  match op with
  | op_call g args => call (handler_all Sprintf g) args
  | _ => run Sprintf op
  end.

End other_files.

(** A host operation in the sense of section 4.8: [typeCall] on a type
    handle returns a zero value of the type that the handle describes;
    every other operation fails. *)
Definition zero_of_type : HostOperation := λ g args U heap,
  match g, args with
  | fn_typeCall, LUserData h :: _ =>
      match Value <$> U !! h with
      | Some (IDyn _ (DType t)) => Some (heap, [IDyn t (zero_data t)])
      | _ => None
      end
  | _, _ => None
  end.

(** The state [places_state] after [NewType(L, places)]: the type handle of
    [map[string]string] is at address 1. *)
Definition places_type_state : State := state_of (NewType places places_state).

(** That state after the call of [typeCall] on the type handle. *)
Definition constructed_state : State :=
  state_of (run_all zero_of_type no_Sprintf (op_call fn_typeCall [LUserData 1])
              places_type_state).

(** The state [places_state] with a second map in the Go heap, at address
    1. *)
Definition two_maps_state : State :=
  set_maps (λ _, [places_entries; [(DString "AF", DString "Africa")]]) places_state.

(** ** Properties *)

(** *** The monad *)

Lemma bind_Ok {A B} (m : M A) (k : A → M B) s a s' :
  m s = Ok a s' → bind m k s = k a s'.
Proof. unfold bind. by intros ->. Qed.

Lemma bind_assoc {A B C} (m : M A) (k1 : A → M B) (k2 : B → M C) s :
  bind (bind m k1) k2 s = bind m (λ a, bind (k1 a) k2) s.
Proof. unfold bind. by destruct (m s). Qed.

Lemma bind_Panic {A B} (m : M A) (k : A → M B) s e :
  m s = Panic e → bind m k s = Panic e.
Proof. unfold bind. by intros ->. Qed.

Lemma bind_ret {A B} (a : A) (k : A → M B) s : bind (ret a) k s = k a s.
Proof. done. Qed.

Lemma bind_inv {A B} (m : M A) (k : A → M B) s b s' :
  bind m k s = Ok b s' → ∃ a s1, m s = Ok a s1 ∧ k a s1 = Ok b s'.
Proof. unfold bind. destruct (m s) as [a s1|]; [eauto | done]. Qed.

(** *** Allocation *)

Lemma ext_nil s : ext s [] [] = s.
Proof. destruct s. unfold ext. simpl. by rewrite !app_nil_r. Qed.

Lemma NewTable_ext s L F :
  NewTable (ext s L F) = Ok (length (tables s) + length L) (ext s (L ++ [∅]) F).
Proof.
  unfold NewTable, ext, set_tables. simpl.
  by rewrite length_app, <- app_assoc.
Qed.

Lemma NewFunction_ext g s L F :
  NewFunction g (ext s L F)
  = Ok (length (functions s) + length F) (ext s L (F ++ [g])).
Proof.
  unfold NewFunction, ext, set_functions. simpl.
  by rewrite length_app, <- app_assoc.
Qed.

Lemma RawSetH_ext s L F k key v t :
  L !! k = Some t → v ≠ LNil →
  RawSetH (length (tables s) + k) key v (ext s L F)
  = Ok tt (ext s (<[k := <[key := v]> t]> L) F).
Proof.
  intros Hk Hv. unfold RawSetH, bind, deref, modify, ext, set_tables. simpl.
  rewrite lookup_app_r by lia.
  replace (length (tables s) + k - length (tables s)) with k by lia.
  rewrite Hk. simpl. rewrite insert_app_r.
  by destruct v.
Qed.

Lemma set_nth_insert {A} k (x : A) L : <[k := x]> L = set_nth k x L.
Proof. revert k. induction L; intros [|k]; simpl; f_equal; auto. Qed.

Lemma RawSetH_ext_nth s L F k key v t :
  L !! k = Some t → v ≠ LNil →
  RawSetH (length (tables s) + k) key v (ext s L F)
  = Ok tt (ext s (set_nth k (<[key := v]> t) L) F).
Proof. intros. rewrite <- set_nth_insert. by apply RawSetH_ext. Qed.

Lemma RawSetH_old s L F tb key v t :
  tables s !! tb = Some t → v ≠ LNil →
  RawSetH tb key v (ext s L F)
  = Ok tt (set_tables <[tb := <[key := v]> t]> (ext s L F)).
Proof.
  intros Ht Hv. unfold RawSetH, bind, deref, modify. simpl.
  rewrite (lookup_app_l_Some _ _ _ _ Ht). by destruct v.
Qed.

Ltac step :=
  first
    [ rewrite bind_assoc
    | rewrite bind_ret
    | erewrite (bind_Ok NewTable) by (apply NewTable_ext)
    | erewrite (bind_Ok (NewFunction _)) by (apply NewFunction_ext)
    | erewrite (bind_Ok (RawSetH _ _ _))
        by (apply RawSetH_ext_nth; [reflexivity | discriminate]) ];
  cbn [length app Nat.add for_range set_nth].

(** *** ensureMetatable *)

Lemma ensureMetatable_build s reg :
  tables s !! Registry s = Some reg →
  default LNil (reg !! metatableKey) = LNil →
  ensureMetatable s = Ok (length (tables s)) (built s reg).
Proof.
  intros Hreg Hkey. unfold ensureMetatable.
  unfold G_Registry at 1. unfold bind at 1.
  erewrite bind_Ok; cycle 1.
  { unfold RawGetH, bind, deref. rewrite Hreg. simpl. rewrite Hkey. reflexivity. }
  cbv iota.
  match goal with
  | |- ?m s = ?r => enough (m (ext s [] []) = r) as HH by (by rewrite ext_nil in HH)
  end.
  unfold typeMetatable. cbn [for_range].
  repeat step.
  erewrite (bind_Ok (RawSetH _ _ _)) by (by apply RawSetH_old).
  unfold ret. rewrite Nat.add_0_r. reflexivity.
Qed.

Lemma ensureMetatable_fresh s reg :
  tables s !! Registry s = Some reg → reg !! metatableKey = None →
  ensureMetatable s = Ok (length (tables s)) (built s reg).
Proof. intros Hreg Hkey. apply ensureMetatable_build; [done|]. by rewrite Hkey. Qed.

Lemma ensureMetatable_cached s p :
  (∃ reg, tables s !! Registry s = Some reg
          ∧ reg !! metatableKey = Some (LTable p)) →
  ensureMetatable s = Ok p s.
Proof.
  intros (reg & Hreg & Hkey). unfold ensureMetatable.
  unfold G_Registry at 1. unfold bind at 1.
  erewrite bind_Ok; cycle 1.
  { unfold RawGetH, bind, deref. rewrite Hreg. simpl. rewrite Hkey. reflexivity. }
  done.
Qed.

Lemma built_initialized s reg :
  tables s !! Registry s = Some reg →
  initialized (built s reg) (length (tables s)).
Proof.
  intros Hreg. pose proof (lookup_lt_Some _ _ _ Hreg) as Hlt.
  unfold initialized, built. cbn [Registry tables functions].
  split; [|split; [done|]].
  - eexists. split; [|apply lookup_insert_eq].
    apply list_lookup_insert_eq. rewrite length_app. lia.
  - exists (length (functions s)). split.
    + intros k t Hk. rewrite list_lookup_insert_ne by lia.
      rewrite lookup_app_r by lia.
      by replace (length (tables s) + k - length (tables s)) with k by lia.
    + intros k g Hk. rewrite lookup_app_r by lia.
      by replace (length (functions s) + k - length (functions s)) with k by lia.
Qed.

Lemma initialized_unique s p q : initialized s p → initialized s q → p = q.
Proof.
  intros [(r1 & H1 & K1) _] [(r2 & H2 & K2) _]. congruence.
Qed.

Lemma ensureMetatable_ready s :
  ready s →
  ∃ p s1, ensureMetatable s = Ok p s1 ∧ initialized s1 p ∧ same_objects s s1
          ∧ (∀ q, initialized s q → s1 = s).
Proof.
  intros [(reg & Hreg & Hkey) | (p & Hp)].
  - exists (length (tables s)), (built s reg).
    split; [by apply ensureMetatable_fresh|].
    split; [by apply built_initialized|].
    split; [done|].
    intros q [(r & Hr & Hk) _]. congruence.
  - exists p, s. split; [apply ensureMetatable_cached, Hp|]. done.
Qed.

(** The table of a kind in an initialized state, with its functions. *)
Lemma initialized_kind s p k name methods :
  initialized s p → typeMetatable !! k = Some (name, methods) →
  kind_table s p name = Some (LTable (p + S k))
  ∧ ∃ t, tables s !! (p + S k) = Some t
         ∧ t !! "__metatable" = Some LTrue
         ∧ Forall (λ m, ∃ f, t !! m.1 = Some (LFunction f)
                             ∧ functions s !! f = Some m.2) methods.
Proof.
  intros (_ & _ & F & HT & HF) Hk.
  assert (k < 6) as Hlt by (apply lookup_lt_Some in Hk; exact Hk).
  pose proof (HT 0 _ eq_refl) as H0. rewrite Nat.add_0_r in H0.
  unfold kind_table. rewrite H0. cbn [mbind option_bind].
  destruct k as [|[|[|[|[|[|k]]]]]]; [..|lia];
    injection Hk as <- <-;
    (split; [reflexivity|]);
    (eexists; split; [apply HT; reflexivity|]);
    (split; [reflexivity|]);
    repeat (apply Forall_cons; split;
            [eexists; split; [reflexivity | apply HF; reflexivity]|]);
    apply Forall_nil_2.
Qed.

(** *** New *)

Lemma insert_app_length {A} (l : list A) x y :
  <[length l := y]> (l ++ [x]) = l ++ [y].
Proof.
  replace (length l) with (length l + 0) by lia.
  by rewrite insert_app_r.
Qed.

Lemma lookup_app_length {A} (l : list A) x : (l ++ [x]) !! length l = Some x.
Proof. by rewrite lookup_app_r, Nat.sub_diag by lia. Qed.

Lemma Value_Interface_RVal t d s :
  TypeKind t ≠ Interface → Value_Interface (RVal t d) s = Ok (IDyn t d) s.
Proof. intros Hk. unfold Value_Interface. by destruct (TypeKind t), d. Qed.

Lemma new_handle_spec table val name s x :
  Value_Interface val s = Ok x s →
  is_Some (tables s !! table) →
  new_handle table val name s
  = Ok (LUserData (length (userdata s)))
       (set_userdata (λ h, h ++ [mkUserData x (attached s table name)]) s).
Proof.
  intros Hx [t Ht]. unfold new_handle.
  unfold bind at 1. unfold NewUserData at 1.
  assert (Value_Interface val
            (set_userdata (λ h, h ++ [mkUserData INil LNil]) s)
          = Ok x (set_userdata (λ h, h ++ [mkUserData INil LNil]) s)) as Hx'.
  { destruct val as [|lv|t' d]; [done|..].
    - simpl in *. by injection Hx as <-.
    - simpl in *. destruct (TypeKind t'), d; simpl in *; by injection Hx as <-. }
  erewrite bind_Ok by exact Hx'.
  unfold set_Value, set_Metatable, RawGetH, attached, kind_table,
    bind, deref, modify, ret, set_userdata.
  destruct s as [R T U Fs C Mp St]. cbn [userdata tables Value Metatable] in *.
  destruct name as [n|];
    repeat (rewrite ?lookup_app_length, ?insert_app_length, ?Ht;
            cbn [userdata tables Value Metatable mbind option_bind]);
    done.
Qed.

Lemma initialized_table s p : initialized s p → is_Some (tables s !! p).
Proof.
  intros (_ & _ & F & HT & _). specialize (HT 0 _ eq_refl).
  rewrite Nat.add_0_r in HT. eauto.
Qed.

(** [New] on a value whose kind gets a handle, once [ensureMetatable] has
    run. *)
Lemma New_handle s p s1 t d name :
  ensureMetatable s = Ok p s1 → initialized s1 p →
  TypeKind t ≠ Interface →
  handle_table (TypeKind t) = Some name →
  New (IDyn t d) s
  = Ok (LUserData (length (userdata s1)))
       (set_userdata (λ h, h ++ [mkUserData (IDyn t d) (attached s1 p name)]) s1).
Proof.
  intros He Hi Hk Hn. unfold New. erewrite bind_Ok by exact He.
  cbn [ValueOf ValueKind].
  pose proof (initialized_table _ _ Hi) as Ht.
  pose proof (Value_Interface_RVal t d s1 Hk) as Hx.
  destruct (TypeKind t); try discriminate; try done;
    injection Hn as <-; by apply new_handle_spec.
Qed.

(** *** Numbers *)

Local Open Scope Z_scope.

Lemma digits2_pos_bound m :
  2 ^ (Zpos (digits2_pos m) - 1) <= Zpos m < 2 ^ Zpos (digits2_pos m).
Proof.
  induction m as [m IH|m IH|]; cbn [digits2_pos].
  - rewrite Pos2Z.inj_succ.
    replace (Z.succ (Zpos (digits2_pos m)) - 1)
      with (Z.succ (Zpos (digits2_pos m) - 1)) by lia.
    rewrite !Z.pow_succ_r by lia. lia.
  - rewrite Pos2Z.inj_succ.
    replace (Z.succ (Zpos (digits2_pos m)) - 1)
      with (Z.succ (Zpos (digits2_pos m) - 1)) by lia.
    rewrite !Z.pow_succ_r by lia. lia.
  - simpl. lia.
Qed.

Lemma digits2_pos_le m n :
  0 <= n → Zpos m < 2 ^ n → Zpos (digits2_pos m) <= n.
Proof.
  intros Hn Hm. destruct (digits2_pos_bound m) as [Hlo _].
  destruct (Z_le_gt_dec (Zpos (digits2_pos m)) n) as [|Hgt]; [done|].
  assert (2 ^ n <= 2 ^ (Zpos (digits2_pos m) - 1))
    by (apply Z.pow_le_mono_r; lia).
  lia.
Qed.

Lemma iter_xO_digits k m :
  digits2_pos (Pos.iter xO m k) = (digits2_pos m + k)%positive.
Proof.
  induction k as [|k IH] using Pos.peano_ind.
  - simpl. lia.
  - rewrite Pos.iter_succ. cbn [digits2_pos]. rewrite IH. lia.
Qed.

Lemma iter_xO_value k m : Zpos (Pos.iter xO m k) = Zpos m * 2 ^ Zpos k.
Proof.
  induction k as [|k IH] using Pos.peano_ind.
  - simpl. lia.
  - rewrite Pos.iter_succ, Pos2Z.inj_xO, IH, Pos2Z.inj_succ, Z.pow_succ_r
      by lia. lia.
Qed.

(** A mantissa of 53 bits is in canonical form: rounding leaves it as it
    is. *)
Lemma shr_fexp_exact mz ez :
  Zpos (digits2_pos mz) = 53 → -1074 <= ez →
  shr_fexp prec64 emax64 (Zpos mz) ez loc_Exact
  = ({| shr_m := Zpos mz; shr_r := false; shr_s := false |}, ez).
Proof.
  intros Hd He. unfold shr_fexp, fexp, emin, prec64, emax64.
  cbn [Zdigits2 shr_record_of_loc]. rewrite Hd.
  replace (Z.max (53 + ez - 53) (3 - 1024 - 53) - ez) with 0 by lia.
  done.
Qed.

Lemma binary_round_aux_exact s mz ez :
  Zpos (digits2_pos mz) = 53 → -1074 <= ez <= 971 →
  binary_round_aux prec64 emax64 s (Zpos mz) ez loc_Exact
  = S754_finite s mz ez.
Proof.
  intros Hd He. unfold binary_round_aux.
  rewrite shr_fexp_exact by lia.
  cbn [shr_m loc_of_shr_record round_nearest_even].
  rewrite shr_fexp_exact by lia.
  cbn [shr_m]. unfold emax64, prec64.
  by replace (ez <=? 1024 - 53) with true by (symmetry; apply Z.leb_le; lia).
Qed.

Lemma float_trunc_round s m :
  Zpos m < 2 ^ 53 →
  float_trunc (binary_round prec64 emax64 s m 0) = Some (cond_Zopp s (Zpos m)).
Proof.
  intros Hm.
  pose proof (digits2_pos_le m 53 ltac:(lia) Hm) as Hd.
  unfold binary_round, shl_align.
  replace (fexp prec64 emax64 (Zpos (digits2_pos m) + 0) - 0)
    with (Zpos (digits2_pos m) - 53)
    by (unfold fexp, emin, prec64, emax64; lia).
  replace (fexp prec64 emax64 (Zpos (digits2_pos m) + 0))
    with (Zpos (digits2_pos m) - 53)
    by (unfold fexp, emin, prec64, emax64; lia).
  destruct (Z.pos (digits2_pos m) - 53) as [|p|p] eqn:He; [|lia|].
  - rewrite binary_round_aux_exact by lia.
    cbn [float_trunc]. by rewrite Z.shiftl_0_r.
  - rewrite binary_round_aux_exact by (rewrite ?iter_xO_digits; lia).
    cbn [float_trunc]. f_equal. f_equal.
    rewrite Z.shiftr_div_pow2 by lia. rewrite iter_xO_value.
    apply Z.div_mul. lia.
Qed.

(** [float64] holds every integer up to [2^53] in absolute value
    exactly. *)
Lemma float_trunc_of_Z z :
  Z.abs z <= 2 ^ 53 → float_trunc (float64_of_Z z) = Some z.
Proof.
  intros Hz. unfold float64_of_Z, binary_normalize.
  destruct z as [|m|m].
  - done.
  - destruct (Z.eq_dec (Zpos m) (2 ^ 53)) as [E|NE].
    + assert (m = 9007199254740992%positive) as -> by lia. vm_compute; reflexivity.
    + rewrite float_trunc_round; [done | lia].
  - destruct (Z.eq_dec (Zpos m) (2 ^ 53)) as [E|NE].
    + assert (m = 9007199254740992%positive) as -> by lia. vm_compute; reflexivity.
    + rewrite float_trunc_round; [done | lia].
Qed.

Lemma float_to_int64_of_Z z :
  Z.abs z <= 2 ^ 53 → float_to_int64 (float64_of_Z z) = z.
Proof.
  intros Hz. unfold float_to_int64. rewrite float_trunc_of_Z by done.
  replace ((- 2 ^ 63 <=? z) && (z <? 2 ^ 63)) with true; [done|].
  symmetry. apply andb_true_intro. split; [apply Z.leb_le | apply Z.ltb_lt]; lia.
Qed.

Lemma float_to_uint64_of_Z z :
  0 <= z <= 2 ^ 53 → float_to_uint64 (float64_of_Z z) = z.
Proof.
  intros Hz. unfold float_to_uint64. rewrite float_trunc_of_Z by lia.
  replace ((0 <=? z) && (z <? 2 ^ 64)) with true; [done|].
  symmetry. apply andb_true_intro. split; [apply Z.leb_le | apply Z.ltb_lt]; lia.
Qed.

Lemma wrap_in_range k z :
  in_range k z = true →
  (is_int_kind k = true ∧ wrap_signed (int_bits k) z = z)
  ∨ (is_int_kind k = false ∧ is_uint_kind k = true ∧ 0 <= z
     ∧ wrap_unsigned (int_bits k) z = z).
Proof.
  unfold in_range, wrap_signed, wrap_unsigned.
  destruct k; cbn [is_int_kind is_uint_kind int_bits]; try discriminate;
    intros [H1 H2]%andb_true_iff;
    apply Z.leb_le in H1; apply Z.ltb_lt in H2;
    [left | left | left | left | left
     | right | right | right | right | right | right];
    repeat split; try lia;
    rewrite Z.mod_small; lia.
Qed.

Local Close Scope Z_scope.

Lemma ready_initial_state : ready initial_state.
Proof. left. exists ∅. by split. Qed.

(** *** The converters *)

(** C3.  A host value whose kind has no case in the switch of [New]
    ([Uintptr], [Complex64], [Complex128], [Array]) makes [New] return the
    nil interface value [LValue_nil], which is none of the script values. *)
Theorem New_unsupported_kind s t d :
  ready s → TypeKind t ∉ switch_kinds →
  ∃ s1, New (IDyn t d) s = Ok LValue_nil s1 ∧ LValue_Type LValue_nil = None.
Proof.
  intros Hr Hk. destruct (ensureMetatable_ready s Hr) as (p & s1 & He & _).
  exists s1. split; [|done].
  unfold New. erewrite bind_Ok by exact He. cbn [ValueOf ValueKind].
  unfold switch_kinds in Hk.
  destruct (TypeKind t); try done; exfalso; apply Hk;
    repeat (first [apply list_elem_of_here | apply list_elem_of_further]).
Qed.

Lemma New_unsupported_kind_witness :
  ready initial_state
  ∧ (TypeKind (TBasic complex128_t) ∉ switch_kinds)
  ∧ ∃ s1, New (IDyn (TBasic complex128_t)
                    (DComplex (S754_zero false) (S754_zero false)))
              initial_state = Ok LValue_nil s1
          ∧ LValue_Type LValue_nil = None.
Proof.
  assert (TypeKind (TBasic complex128_t) ∉ switch_kinds) as Hk.
  { intros H. unfold switch_kinds in H.
    repeat (apply elem_of_cons in H as [H|H]; [discriminate|]).
    by apply elem_of_nil in H. }
  split; [apply ready_initial_state|]. split; [exact Hk|].
  apply (New_unsupported_kind initial_state _ _ ready_initial_state Hk).
Defined.

(** C7.  A value of type [lua.LValue] that is none of the script values
    matches no case of the type switch of [lValueToReflect], which then
    panics with its fatal error, whatever the hint and the state. *)
Theorem lValueToReflect_no_case v hint s :
  LValue_Type v = None →
  lValueToReflect v hint s = Panic fatal_lValueToReflect_error.
Proof. by destruct v. Qed.

Lemma lValueToReflect_no_case_witness :
  LValue_Type LValue_nil = None
  ∧ lValueToReflect LValue_nil (TBasic int_t) initial_state
    = Panic fatal_lValueToReflect_error.
Proof.
  split; [reflexivity|].
  apply (lValueToReflect_no_case LValue_nil (TBasic int_t) initial_state).
  reflexivity.
Defined.

(** The fatal error is raised for no script value. *)
Lemma lValueToReflect_fatal_only v hint s :
  lValueToReflect v hint s = Panic fatal_lValueToReflect_error →
  LValue_Type v = None.
Proof.
  destruct v; try done; simpl.
  - unfold Convert_LNumber, ret, panic.
    destruct (is_int_kind _); [done|]. destruct (is_uint_kind _); [done|].
    by destruct (TypeKind hint).
  - unfold get_Value, deref, bind, ret. by destruct (userdata s !! p).
Qed.

(** C1, as stated, fails on the code: an integer of type [uintptr] has no
    case in [New], and a boolean of a declared type comes back as a
    [bool]. *)
Lemma roundtrip_counterexample :
  ¬ roundtrip (TBasic uintptr_t) (DInt 5) initial_state
  ∧ ¬ roundtrip (TNamed "Flag" (TBasic bool_t)) (DBool true) initial_state.
Proof.
  split; intros [s' H]; vm_compute in H; discriminate.
Qed.

(** C1, amended.  Forward conversion and then reverse conversion with the
    original type as the hint give back every value of the predeclared
    types [bool] and [string], and every integer of absolute value at most
    [2^53] of a type of kind [Int]...[Int64] or [Uint]...[Uint64]. *)
Theorem roundtrip_primitives s t d :
  ready s → round_trips t d → roundtrip t d s.
Proof.
  intros Hr Hrt. destruct (ensureMetatable_ready s Hr) as (p & s1 & He & _).
  exists s1. unfold New. rewrite bind_assoc. erewrite bind_Ok by exact He.
  destruct Hrt as [b|x|t z Hk Hrange Hz]; [done..|].
  cbn [ValueOf ValueKind].
  destruct (wrap_in_range _ _ Hrange) as [[Hi Hw]|(Hi & Hu & H0 & Hw)].
  - assert ((n <- Value_Int (RVal t (DInt z));; ret (LNumber (float64_of_Z n)))
            = ret (LNumber (float64_of_Z z))) as Hn by done.
    destruct (TypeKind t) eqn:E; try discriminate;
      rewrite Hn, bind_ret; cbn [lValueToReflect]; unfold Convert_LNumber;
      rewrite E; cbn [is_int_kind];
      rewrite float_to_int64_of_Z, Hw by done; done.
  - assert ((n <- Value_Uint (RVal t (DInt z));; ret (LNumber (float64_of_Z n)))
            = ret (LNumber (float64_of_Z z))) as Hn by done.
    destruct (TypeKind t) eqn:E; try discriminate;
      rewrite Hn, bind_ret; cbn [lValueToReflect]; unfold Convert_LNumber;
      rewrite E; cbn [is_int_kind is_uint_kind];
      rewrite float_to_uint64_of_Z, Hw by lia; done.
Qed.

Lemma roundtrip_primitives_witness :
  ready initial_state
  ∧ round_trips (TNamed "Celsius" (TBasic int16_t)) (DInt (-40))
  ∧ roundtrip (TNamed "Celsius" (TBasic int16_t)) (DInt (-40)) initial_state.
Proof.
  assert (round_trips (TNamed "Celsius" (TBasic int16_t)) (DInt (-40))) as H.
  { apply rt_int; [reflexivity | reflexivity | simpl; lia]. }
  split; [apply ready_initial_state|]. split; [exact H|].
  apply (roundtrip_primitives initial_state _ _ ready_initial_state H).
Defined.

(** *** Calls *)

Lemma call_spec body args s n s' :
  body (set_stack (λ _, args) s) = Ok n s' →
  call body args s
  = Ok (drop (length (stack s') - n) (stack s')) (set_stack (λ _, stack s) s').
Proof.
  intros Hb. unfold call, bind, get_state, modify, ret. by rewrite Hb.
Qed.

Lemma call_inv body args s rs s2 :
  call body args s = Ok rs s2 →
  ∃ n s', body (set_stack (λ _, args) s) = Ok n s'
          ∧ rs = drop (length (stack s') - n) (stack s')
          ∧ s2 = set_stack (λ _, stack s) s'.
Proof.
  unfold call, bind, get_state, modify, ret.
  destruct (body _) as [n s'|]; [|done]. intros [= <- <-]. eauto.
Qed.

Lemma set_stack_id s : set_stack (λ _, stack s) s = s.
Proof. by destruct s. Qed.

Lemma set_stack_set_stack f g s :
  set_stack f (set_stack g s) = set_stack (λ st, f (g st)) s.
Proof. by destruct s. Qed.

(** *** The reverse converter reads the state and leaves it as it is *)

Lemma Convert_LNumber_pure n hint s r s' :
  Convert_LNumber n hint s = Ok r s' →
  s' = s ∧ ∀ σ, Convert_LNumber n hint σ = Ok r σ.
Proof.
  unfold Convert_LNumber, ret, panic.
  destruct (is_int_kind _); [by intros [= <- <-]|].
  destruct (is_uint_kind _); [by intros [= <- <-]|].
  destruct (TypeKind hint); try done; by intros [= <- <-].
Qed.

Lemma lValueToReflect_pure v hint s r s' :
  lValueToReflect v hint s = Ok r s' →
  s' = s
  ∧ ∀ σ, userdata s `prefix_of` userdata σ → lValueToReflect v hint σ = Ok r σ.
Proof.
  destruct v; cbn [lValueToReflect]; unfold ret, panic;
    try (by intros [= <- <-]); try done.
  - intros H. apply Convert_LNumber_pure in H as [-> H]. eauto.
  - unfold get_Value, deref, bind, ret.
    destruct (userdata s !! p) as [u|] eqn:E; [|done].
    intros [= <- <-]. split; [done|]. intros σ Hp.
    by rewrite (prefix_lookup_Some _ _ _ _ E Hp).
Qed.

Lemma assignTo_pure v dst s r s' :
  assignTo v dst s = Ok r s' → s' = s ∧ ∀ σ, assignTo v dst σ = Ok r σ.
Proof.
  unfold assignTo, ret, panic. destruct v as [|lv|t d]; [done|..].
  - destruct (implements dst dst); [by intros [= <- <-]|done].
  - destruct (directlyAssignable dst t); [by intros [= <- <-]|].
    destruct (implements dst t); [|done].
    destruct (TypeKind t), d; by intros [= <- <-].
Qed.

Lemma check_hashable_pure k s r s' :
  check_hashable k s = Ok r s' → s' = s ∧ ∀ σ, check_hashable k σ = Ok tt σ.
Proof.
  unfold check_hashable, ret, panic. destruct k as [| |t d]; try by intros [= <- <-].
  destruct (hashable d); [by intros [= <- <-]|done].
Qed.

Lemma host_key_inv s lKey kt k :
  host_key s lKey kt = Some k →
  ∃ key key',
    (∀ σ, userdata s `prefix_of` userdata σ → lValueToReflect lKey kt σ = Ok key σ)
    ∧ (∀ σ, assignTo key kt σ = Ok key' σ)
    ∧ (∀ σ, check_hashable key' σ = Ok tt σ)
    ∧ Value_data key' = k.
Proof.
  unfold host_key.
  destruct (bind _ _ s) as [k' s'|] eqn:E; [|done]. intros [= ->].
  apply bind_inv in E as (key & s1 & H1 & E).
  apply bind_inv in E as (key' & s2 & H2 & E).
  apply bind_inv in E as ([] & s3 & H3 & E).
  injection E as <- <-.
  apply lValueToReflect_pure in H1 as [-> H1].
  apply assignTo_pure in H2 as [-> H2].
  apply check_hashable_pure in H3 as [-> H3].
  exists key, key'. eauto.
Qed.

(** *** Reading a map *)

(** [mapIndex] up to the lookup: the handle is a map handle, the key
    converts to the host key [k]. *)
Lemma mapIndex_lookup s ud kt et p lKey k m args :
  map_handle s ud kt et p →
  host_key s lKey kt = Some k →
  map_entries s p = Some m →
  args !! 0 = Some (LUserData ud) → default LNil (args !! 1) = lKey →
  mapIndex (set_stack (λ _, args) s)
  = match map_find kt k m 0 with
    | None => Ok 0 (set_stack (λ _, args) s)
    | Some (_, e) =>
        (y <- Value_Interface (RVal et e) ;; r <- New y ;; Push r ;;; ret 1)
          (set_stack (λ _, args) s)
    end.
Proof.
  intros (u & t & Hu & Hv & Ht) Hk Hm H0 H1.
  apply host_key_inv in Hk as (key & key' & Hkey & Hassign & Hhash & <-).
  unfold mapIndex.
  erewrite bind_Ok; cycle 1.
  { unfold CheckUserData, Get, bind. cbn [stack set_stack]. cbn [Nat.sub].
    rewrite H0. reflexivity. }
  erewrite bind_Ok; cycle 1.
  { unfold Get. cbn [stack set_stack]. cbn [Nat.sub]. rewrite H1. reflexivity. }
  erewrite bind_Ok; cycle 1.
  { unfold get_Value, deref, bind. cbn [userdata set_stack]. rewrite Hu. reflexivity. }
  rewrite Hv. cbn [ValueOf].
  erewrite bind_Ok; cycle 1.
  { unfold Type_Key. rewrite Ht. reflexivity. }
  erewrite bind_Ok by (by apply Hkey).
  unfold MapIndex at 1. rewrite bind_assoc.
  erewrite bind_Ok; cycle 1.
  { unfold as_map. rewrite Ht. reflexivity. }
  cbv beta iota. rewrite bind_assoc.
  erewrite bind_Ok by apply Hassign.
  rewrite bind_assoc.
  erewrite bind_Ok by apply Hhash.
  destruct p as [a|]; cbn [map_entries] in Hm.
  - rewrite bind_assoc. erewrite bind_Ok; cycle 1.
    { unfold deref. cbn [maps set_stack]. rewrite Hm. reflexivity. }
    destruct (map_find kt (Value_data key') m 0) as [[pos e]|]; done.
  - injection Hm as <-. done.
Qed.

(** *** Type identity is reflexive *)

Lemma GoType_eqb_refl_both :
  (∀ t, GoType_eqb t t = true) ∧ (∀ l, TypeList_eqb l l = true).
Proof.
  apply GoType_TypeList_ind; intros; cbn [GoType_eqb TypeList_eqb];
    rewrite ?bool_decide_eq_true_2, ?Nat.eqb_refl, ?String.eqb_refl,
      ?Bool.eqb_reflx by done;
    repeat match goal with H : _ = true |- _ => rewrite H; clear H end;
    done.
Qed.

Lemma GoType_eqb_refl t : GoType_eqb t t = true.
Proof. apply GoType_eqb_refl_both. Qed.

Lemma directlyAssignable_refl t : directlyAssignable t t = true.
Proof. unfold directlyAssignable. by rewrite GoType_eqb_refl. Qed.

(** *** Computations that leave the frame alone *)

Lemma si_ret {A} (a : A) : stack_indep (ret a).
Proof. done. Qed.

Lemma si_panic {A} e : stack_indep (@panic A e).
Proof. done. Qed.

Lemma si_bind {A B} (m : M A) (k : A → M B) :
  stack_indep m → (∀ a, stack_indep (k a)) → stack_indep (bind m k).
Proof.
  intros Hm Hk f s. unfold bind. rewrite Hm.
  destruct (m s) as [a s'|]; [apply Hk | done].
Qed.

Lemma si_for_range {A} (l : list A) body :
  (∀ x, stack_indep (body x)) → stack_indep (for_range l body).
Proof.
  intros Hb. induction l; cbn [for_range]; [apply si_ret|].
  apply si_bind; auto.
Qed.

Lemma si_deref_tables p : stack_indep (deref tables p).
Proof. intros f s. unfold deref. cbn. by destruct (tables s !! p). Qed.
Lemma si_deref_userdata p : stack_indep (deref userdata p).
Proof. intros f s. unfold deref. cbn. by destruct (userdata s !! p). Qed.
Lemma si_deref_maps p : stack_indep (deref maps p).
Proof. intros f s. unfold deref. cbn. by destruct (maps s !! p). Qed.
Lemma si_deref_closures p : stack_indep (deref closures p).
Proof. intros f s. unfold deref. cbn. by destruct (closures s !! p). Qed.

Lemma si_modify_tables g : stack_indep (modify (set_tables g)).
Proof. intros f s. by destruct s. Qed.
Lemma si_modify_userdata g : stack_indep (modify (set_userdata g)).
Proof. intros f s. by destruct s. Qed.
Lemma si_modify_maps g : stack_indep (modify (set_maps g)).
Proof. intros f s. by destruct s. Qed.
Lemma si_modify_closures g : stack_indep (modify (set_closures g)).
Proof. intros f s. by destruct s. Qed.

Lemma si_G_Registry : stack_indep G_Registry.
Proof. intros f s. by destruct s. Qed.
Lemma si_NewTable : stack_indep NewTable.
Proof. intros f s. by destruct s. Qed.
Lemma si_NewUserData : stack_indep NewUserData.
Proof. intros f s. by destruct s. Qed.
Lemma si_NewFunction g : stack_indep (NewFunction g).
Proof. intros f s. by destruct s. Qed.

Create HintDb si discriminated.
#[local] Hint Resolve si_ret si_panic si_deref_tables si_deref_userdata
  si_deref_maps si_deref_closures si_modify_tables si_modify_userdata
  si_modify_maps si_modify_closures si_G_Registry si_NewTable
  si_NewUserData si_NewFunction : si.

(** Decompose a computation along its binds and matches. *)
Ltac si_step :=
  match goal with
  | |- stack_indep (bind _ _) => apply si_bind; [|intros ?]
  | |- stack_indep (for_range _ _) => apply si_for_range; intros ?
  | |- stack_indep (match ?x with _ => _ end) => destruct x
  | |- stack_indep (if ?x then _ else _) => destruct x
  | |- stack_indep (let '(_, _) := ?x in _) => destruct x
  | |- stack_indep _ => solve [auto with si]
  end.
Ltac si := repeat si_step.

Lemma si_RawGetH tb key : stack_indep (RawGetH tb key).
Proof. unfold RawGetH. si. Qed.
Lemma si_RawSetH tb key v : stack_indep (RawSetH tb key v).
Proof. unfold RawSetH. si. Qed.
Lemma si_set_Value ud v : stack_indep (set_Value ud v).
Proof. unfold set_Value. si. Qed.
Lemma si_set_Metatable ud v : stack_indep (set_Metatable ud v).
Proof. unfold set_Metatable. si. Qed.
Lemma si_get_Value ud : stack_indep (get_Value ud).
Proof. unfold get_Value. si. Qed.
#[local] Hint Resolve si_RawGetH si_RawSetH si_set_Value si_set_Metatable
  si_get_Value : si.

Lemma si_Value_Interface v : stack_indep (Value_Interface v).
Proof. unfold Value_Interface. si. Qed.
Lemma si_assignTo v t : stack_indep (assignTo v t).
Proof. unfold assignTo. si. Qed.
Lemma si_check_hashable k : stack_indep (check_hashable k).
Proof. unfold check_hashable. si. Qed.
Lemma si_as_map w v : stack_indep (as_map w v).
Proof. unfold as_map. si. Qed.
Lemma si_Convert_LNumber n t : stack_indep (Convert_LNumber n t).
Proof. unfold Convert_LNumber. si. Qed.
#[local] Hint Resolve si_Value_Interface si_assignTo si_check_hashable
  si_as_map si_Convert_LNumber : si.

Lemma si_lValueToReflect v t : stack_indep (lValueToReflect v t).
Proof. unfold lValueToReflect. si. Qed.
Lemma si_MapIndex v k : stack_indep (MapIndex v k).
Proof. unfold MapIndex. si. Qed.
Lemma si_ensureMetatable : stack_indep ensureMetatable.
Proof. unfold ensureMetatable. si. Qed.
Lemma si_funcWrapper fn : stack_indep (funcWrapper fn).
Proof. unfold funcWrapper. si. Qed.
Lemma si_new_handle t v n : stack_indep (new_handle t v n).
Proof. unfold new_handle. si. Qed.
#[local] Hint Resolve si_lValueToReflect si_MapIndex si_ensureMetatable
  si_funcWrapper si_new_handle : si.

Lemma si_New x : stack_indep (New x).
Proof.
  unfold New, Value_Bool, Value_Int, Value_Uint, Value_Float, Value_String.
  si.
Qed.
#[local] Hint Resolve si_New : si.

(** Such a computation leaves the frame as it found it. *)
Lemma stack_indep_stack {A} (m : M A) s a s' :
  stack_indep m → m s = Ok a s' → stack s' = stack s.
Proof.
  intros Hm Hs. specialize (Hm (λ _, stack s) s).
  rewrite set_stack_id, Hs in Hm. cbn in Hm. by injection Hm as ->.
Qed.

(** C6, as stated, fails on the code for a key that does not convert to
    the key type of the map: the map [places], of type [map[string]string],
    has the keys ["NA"] and ["EU"], so the boolean [true] and the number 1
    are absent from it, and the index-read with either of them panics
    inside package reflect. *)
Lemma mapIndex_absent_key_counterexample :
  map_handle places_state 0 (TBasic string_t) (TBasic string_t) (Some 0)
  ∧ map_entries places_state (Some 0) = Some places_entries
  ∧ places_entries.*1 = [DString "NA"; DString "EU"]
  ∧ call mapIndex [LUserData 0; LBool true] places_state
    = Panic (reflect_panic "value is not assignable to type")
  ∧ call mapIndex [LUserData 0; LNumber (float64_of_Z 1)] places_state
    = Panic (reflect_panic
               "reflect.Value.Convert: value of type lua.LNumber cannot be converted").
Proof.
  split; [eexists _, _; split; [vm_compute; reflexivity | by split]|].
  repeat split; vm_compute; reflexivity.
Qed.

(** C6, amended.  An index-read through a map handle, with a key that
    converts to a host key of the map's key type and is absent from the map
    (or with any such key when the map is nil), raises no error: [mapIndex]
    returns no value and leaves the state as it is, and the index
    expression is [LNil]. *)
Theorem mapIndex_absent_key s ud kt et p lKey k m :
  map_handle s ud kt et p →
  host_key s lKey kt = Some k →
  map_entries s p = Some m →
  map_find kt k m 0 = None →
  call mapIndex [LUserData ud; lKey] s = Ok [] s
  ∧ first_result [] = LNil.
Proof.
  intros Hh Hk Hm Hf. split; [|done].
  pose proof (mapIndex_lookup s ud kt et p lKey k m [LUserData ud; lKey]
                Hh Hk Hm eq_refl eq_refl) as H.
  rewrite Hf in H. rewrite (call_spec _ _ _ _ _ H).
  rewrite set_stack_set_stack, set_stack_id. done.
Qed.

Lemma mapIndex_absent_key_witness :
  map_handle places_state 0 (TBasic string_t) (TBasic string_t) (Some 0)
  ∧ host_key places_state (LString "AS") (TBasic string_t) = Some (DString "AS")
  ∧ map_entries places_state (Some 0) = Some places_entries
  ∧ map_find (TBasic string_t) (DString "AS") places_entries 0 = None
  ∧ call mapIndex [LUserData 0; LString "AS"] places_state = Ok [] places_state
  ∧ first_result [] = LNil.
Proof.
  assert (map_handle places_state 0 (TBasic string_t) (TBasic string_t) (Some 0))
    as Hh by (eexists _, _; split; [vm_compute; reflexivity | by split]).
  split; [exact Hh|]. split; [vm_compute; reflexivity|]. split; [vm_compute; reflexivity|].
  split; [vm_compute; reflexivity|].
  apply (mapIndex_absent_key places_state 0 _ _ (Some 0) (LString "AS")
           (DString "AS") places_entries Hh);
    vm_compute; reflexivity.
Defined.

(** *** Writing a map *)

Lemma host_elem_inv s lValue et e :
  host_elem s lValue et = Some (Some e) →
  ∃ val val',
    (∀ σ, userdata s `prefix_of` userdata σ → lValueToReflect lValue et σ = Ok val σ)
    ∧ val ≠ RInvalid
    ∧ (∀ σ, assignTo val et σ = Ok val' σ)
    ∧ Value_data val' = e.
Proof.
  unfold host_elem.
  destruct (bind _ _ s) as [e' s'|] eqn:E; [|done]. intros [= ->].
  apply bind_inv in E as (val & s1 & H1 & E).
  apply lValueToReflect_pure in H1 as [-> H1].
  exists val. destruct val as [|lv|t d]; [done|..].
  - apply bind_inv in E as (val' & s2 & H2 & E). injection E as <- <-.
    apply assignTo_pure in H2 as [-> H2]. exists val'. eauto.
  - apply bind_inv in E as (val' & s2 & H2 & E). injection E as <- <-.
    apply assignTo_pure in H2 as [-> H2]. exists val'. eauto.
Qed.

Lemma mapNewIndex_write s ud kt et a lKey lValue k e m :
  map_handle s ud kt et (Some a) →
  host_key s lKey kt = Some k →
  host_elem s lValue et = Some (Some e) →
  maps s !! a = Some m →
  call mapNewIndex [LUserData ud; lKey; lValue] s
  = Ok [] (set_maps <[a := map_assign kt k e m]> s).
Proof.
  intros (u & t & Hu & Hv & Ht) Hk He Hm.
  apply host_key_inv in Hk as (key & key' & Hkey & Hassign & Hhash & <-).
  apply host_elem_inv in He as (val & val' & Hval & Hne & Hvassign & <-).
  set (σ := set_stack (λ _, [LUserData ud; lKey; lValue]) s).
  assert (mapNewIndex σ
          = Ok 0 (set_maps <[a := map_assign kt (Value_data key') (Value_data val') m]> σ))
    as H.
  { unfold mapNewIndex.
    erewrite bind_Ok by reflexivity.
    erewrite bind_Ok by reflexivity.
    erewrite bind_Ok by reflexivity.
    erewrite bind_Ok; cycle 1.
    { unfold get_Value, deref, bind. cbn [userdata set_stack σ]. rewrite Hu. reflexivity. }
    rewrite Hv. cbn [ValueOf].
    erewrite bind_Ok; cycle 1.
    { unfold Type_Key. rewrite Ht. reflexivity. }
    erewrite bind_Ok by (by apply Hkey).
    erewrite bind_Ok; cycle 1.
    { unfold Type_Elem. rewrite Ht. reflexivity. }
    erewrite bind_Ok by (by apply Hval).
    erewrite bind_Ok; [reflexivity|].
    unfold SetMapIndex.
    erewrite bind_Ok; cycle 1.
    { unfold as_map. rewrite Ht. reflexivity. }
    cbv beta iota.
    erewrite bind_Ok by apply Hassign.
    assert ((val0 <- assignTo val et;;
             check_hashable key';;;
             m0 <- deref maps a;;
             match map_find kt (Value_data key') m0 0 with
             | Some (pos, _) =>
                 modify (set_maps <[a:=<[pos:=(Value_data key', Value_data val0)]> m0]>)
             | None =>
                 modify (set_maps <[a:=m0 ++ [(Value_data key', Value_data val0)]]>)
             end) σ
            = Ok () (set_maps <[a:=map_assign kt (Value_data key') (Value_data val') m]> σ))
      as Hset.
    { erewrite bind_Ok by apply Hvassign.
      erewrite bind_Ok by apply Hhash.
      erewrite bind_Ok; cycle 1.
      { unfold deref. cbn [maps set_stack σ]. rewrite Hm. reflexivity. }
      unfold map_assign.
      by destruct (map_find kt (Value_data key') m 0) as [[pos e]|]. }
    destruct val; [done|exact Hset|exact Hset]. }
  rewrite (call_spec _ _ _ _ _ H). destruct s; reflexivity.
Qed.

(** The entry of a key that is equal to itself is found after the
    assignment. *)
Lemma map_find_app kt k m r pos :
  map_find kt k (m ++ r) pos
  = match map_find kt k m pos with
    | Some x => Some x
    | None => map_find kt k r (pos + length m)
    end.
Proof.
  revert pos. induction m as [|[k' e'] m IH]; intros pos; cbn [map_find app length].
  - by rewrite Nat.add_0_r.
  - destruct (key_eqb kt k' k); [done|].
    rewrite IH. by replace (S pos + length m) with (pos + S (length m)) by lia.
Qed.

Lemma map_find_Some kt k m pos0 pos e :
  map_find kt k m pos0 = Some (pos, e) →
  pos0 ≤ pos ∧ ∃ k', m !! (pos - pos0) = Some (k', e) ∧ key_eqb kt k' k = true.
Proof.
  revert pos0. induction m as [|[k' e'] m IH]; intros pos0; cbn [map_find]; [done|].
  destruct (key_eqb kt k' k) eqn:E.
  - intros [= <- <-]. split; [lia|]. rewrite Nat.sub_diag. eauto.
  - intros H. apply IH in H as (Hle & k'' & Hl & Hk). split; [lia|].
    exists k''. split; [|done].
    by replace (pos - pos0) with (S (pos - S pos0)) by lia.
Qed.

Lemma map_find_insert kt k e m pos0 pos e0 :
  key_eqb kt k k = true →
  map_find kt k m pos0 = Some (pos, e0) →
  map_find kt k (<[pos - pos0 := (k, e)]> m) pos0 = Some (pos, e).
Proof.
  intros Hkk. revert pos0.
  induction m as [|[k' e'] m IH]; intros pos0; cbn [map_find]; [done|].
  destruct (key_eqb kt k' k) eqn:E.
  - intros [= <- <-]. rewrite Nat.sub_diag. cbn. by rewrite Hkk.
  - intros H. pose proof (map_find_Some _ _ _ _ _ _ H) as [Hle _].
    replace (pos - pos0) with (S (pos - S pos0)) by lia.
    cbn. rewrite E. by apply IH.
Qed.

Lemma map_find_assign kt k e m :
  key_eqb kt k k = true →
  ∃ pos, map_find kt k (map_assign kt k e m) 0 = Some (pos, e).
Proof.
  intros Hkk. unfold map_assign.
  destruct (map_find kt k m 0) as [[pos e0]|] eqn:E.
  - exists pos. rewrite <- (Nat.sub_0_r pos) at 1. by eapply map_find_insert.
  - exists (length m). rewrite map_find_app, E. cbn. by rewrite Hkk.
Qed.

Lemma length_map_assign kt k e m : length m ≤ length (map_assign kt k e m).
Proof.
  unfold map_assign. destruct (map_find kt k m 0) as [[pos e0]|].
  - by rewrite length_insert.
  - rewrite length_app. lia.
Qed.

Lemma call_panic body args s e :
  body (set_stack (λ _, args) s) = Panic e → call body args s = Panic e.
Proof. intros Hb. unfold call, bind, get_state, modify, ret. by rewrite Hb. Qed.

Lemma Value_Interface_stored et e s :
  Value_Interface (RVal et e) s = Ok (stored_iface et e) s.
Proof. unfold Value_Interface, stored_iface. by destruct (TypeKind et), e. Qed.

(** A handler that ends with [L.Push(New(L, y)); return 1] returns the
    conversion of [y]. *)
Lemma call_push_New body args s y :
  body (set_stack (λ _, args) s)
  = (r <- New y ;; Push r ;;; ret 1) (set_stack (λ _, args) s) →
  call body args s = (r <- New y ;; ret [r]) s.
Proof.
  intros Hb. unfold bind at 1 in Hb. rewrite si_New in Hb.
  unfold bind. destruct (New y s) as [r s2|e] eqn:E; cbn [res_map] in Hb.
  - unfold bind, Push, modify, ret in Hb.
    rewrite (call_spec _ _ _ _ _ Hb).
    pose proof (stack_indep_stack _ _ _ _ (si_New y) E) as Hst.
    unfold ret. f_equal.
    + destruct s2; cbn [stack set_stack]. rewrite length_app. cbn [length].
      replace (length args + 1 - 1) with (length args) by lia.
      by rewrite drop_app_length.
    + rewrite <- Hst. by destruct s2.
  - by apply call_panic.
Qed.

(** [mapIndex] with a key that is in the map returns the forward
    conversion of the element stored under it. *)
Lemma mapIndex_found s ud kt et p lKey k m pos e :
  map_handle s ud kt et p →
  host_key s lKey kt = Some k →
  map_entries s p = Some m →
  map_find kt k m 0 = Some (pos, e) →
  call mapIndex [LUserData ud; lKey] s = (r <- New (stored_iface et e) ;; ret [r]) s.
Proof.
  intros Hh Hk Hm Hf. apply call_push_New.
  rewrite (mapIndex_lookup s ud kt et p lKey k m [LUserData ud; lKey]
             Hh Hk Hm eq_refl eq_refl), Hf.
  by erewrite bind_Ok by apply Value_Interface_stored.
Qed.

Lemma host_key_userdata s σ lKey kt k :
  host_key s lKey kt = Some k → userdata s `prefix_of` userdata σ →
  host_key σ lKey kt = Some k.
Proof.
  intros Hk Hu.
  apply host_key_inv in Hk as (key & key' & Hkey & Hassign & Hhash & <-).
  unfold host_key.
  erewrite bind_Ok by (by apply Hkey).
  erewrite bind_Ok by apply Hassign.
  erewrite bind_Ok by apply Hhash.
  done.
Qed.

Lemma host_elem_nil s et : host_elem s LNil et = Some (Some (zero_data et)).
Proof.
  unfold host_elem. cbn [lValueToReflect]. rewrite bind_ret. unfold Zero.
  unfold assignTo. rewrite directlyAssignable_refl. done.
Qed.

Lemma mapLen_length s ud kt et p m :
  map_handle s ud kt et p →
  map_entries s p = Some m →
  call mapLen [LUserData ud] s
  = Ok [LNumber (float64_of_Z (Z.of_nat (length m)))] s.
Proof.
  intros (u & t & Hu & Hv & Ht) Hm.
  set (σ := set_stack (λ _, [LUserData ud]) s).
  assert (mapLen σ
          = Ok 1 (set_stack (λ st, st ++ [LNumber (float64_of_Z (Z.of_nat (length m)))]) σ))
    as H.
  { unfold mapLen.
    erewrite bind_Ok by reflexivity.
    erewrite bind_Ok; cycle 1.
    { unfold get_Value, deref, bind. cbn [userdata set_stack σ]. rewrite Hu. reflexivity. }
    rewrite Hv. cbn [ValueOf].
    erewrite bind_Ok; [reflexivity|].
    unfold Len. rewrite Ht. destruct p as [a|]; cbn [map_entries] in Hm.
    - unfold deref, bind. cbn [maps set_stack σ]. by rewrite Hm.
    - by injection Hm as <-. }
  rewrite (call_spec _ _ _ _ _ H). destruct s; reflexivity.
Qed.

(** C10, as stated, fails on the code.  Through the handle of a nil map
    the write panics; and with the key NaN, which is equal to no key, the
    write succeeds but a read of the same key finds nothing. *)
Lemma mapNewIndex_nil_counterexample :
  call mapNewIndex [LUserData 0; LString "x"; LNil] nil_map_state
  = Panic (runtime_panic "assignment to entry in nil map")
  ∧ ∃ s1, call mapNewIndex [LUserData 0; LNumber S754_nan; LNil] float_map_state
          = Ok [] s1
          ∧ call mapIndex [LUserData 0; LNumber S754_nan] s1 = Ok [] s1.
Proof.
  split; [vm_compute; reflexivity|].
  exists (state_of (call mapNewIndex [LUserData 0; LNumber S754_nan; LNil]
                      float_map_state)).
  split; vm_compute; reflexivity.
Qed.

(** C10, amended.  Through the handle of a map that is not nil, with a key
    that converts to a host key equal to itself (any key but a NaN), the
    index-write of [LNil] stores the zero value of the element type: the
    key is in the map afterwards with that element, an index-read returns
    its forward conversion, and the length of the map, which [mapLen]
    reports, has not decreased. *)
Theorem mapNewIndex_nil_stores_zero s ud kt et a m lKey k :
  map_handle s ud kt et (Some a) →
  maps s !! a = Some m →
  host_key s lKey kt = Some k →
  key_eqb kt k k = true →
  ∃ s1 m',
    call mapNewIndex [LUserData ud; lKey; LNil] s = Ok [] s1
    ∧ maps s1 !! a = Some m'
    ∧ (∃ pos, map_find kt k m' 0 = Some (pos, zero_data et))
    ∧ call mapIndex [LUserData ud; lKey] s1
      = (r <- New (stored_iface et (zero_data et)) ;; ret [r]) s1
    ∧ length m ≤ length m'
    ∧ call mapLen [LUserData ud] s
      = Ok [LNumber (float64_of_Z (Z.of_nat (length m)))] s
    ∧ call mapLen [LUserData ud] s1
      = Ok [LNumber (float64_of_Z (Z.of_nat (length m')))] s1.
Proof.
  intros Hh Hm Hk Hkk.
  exists (set_maps <[a := map_assign kt k (zero_data et) m]> s),
    (map_assign kt k (zero_data et) m).
  assert (map_handle (set_maps <[a := map_assign kt k (zero_data et) m]> s)
            ud kt et (Some a)) as Hh1 by (by destruct s).
  assert (maps (set_maps <[a := map_assign kt k (zero_data et) m]> s) !! a
          = Some (map_assign kt k (zero_data et) m)) as Hm1.
  { destruct s; cbn. apply list_lookup_insert_eq. by eapply lookup_lt_Some. }
  destruct (map_find_assign kt k (zero_data et) m Hkk) as [pos Hf].
  split; [by apply (mapNewIndex_write s ud kt et a lKey LNil k (zero_data et) m
                      Hh Hk (host_elem_nil s et) Hm)|].
  split; [done|]. split; [eauto|].
  split.
  { eapply mapIndex_found; [exact Hh1| |exact Hm1|exact Hf].
    eapply host_key_userdata; [exact Hk|by destruct s]. }
  split; [apply length_map_assign|].
  split; by eapply mapLen_length.
Qed.

Lemma mapNewIndex_nil_stores_zero_witness :
  map_handle places_state 0 (TBasic string_t) (TBasic string_t) (Some 0)
  ∧ maps places_state !! 0 = Some places_entries
  ∧ host_key places_state (LString "EU") (TBasic string_t) = Some (DString "EU")
  ∧ key_eqb (TBasic string_t) (DString "EU") (DString "EU") = true
  ∧ ∃ s1 m',
      call mapNewIndex [LUserData 0; LString "EU"; LNil] places_state = Ok [] s1
      ∧ maps s1 !! 0 = Some m'
      ∧ (∃ pos, map_find (TBasic string_t) (DString "EU") m' 0
                = Some (pos, zero_data (TBasic string_t)))
      ∧ call mapIndex [LUserData 0; LString "EU"] s1
        = (r <- New (stored_iface (TBasic string_t) (zero_data (TBasic string_t))) ;;
           ret [r]) s1
      ∧ length places_entries ≤ length m'
      ∧ call mapLen [LUserData 0] places_state
        = Ok [LNumber (float64_of_Z (Z.of_nat (length places_entries)))] places_state
      ∧ call mapLen [LUserData 0] s1
        = Ok [LNumber (float64_of_Z (Z.of_nat (length m')))] s1.
Proof.
  assert (map_handle places_state 0 (TBasic string_t) (TBasic string_t) (Some 0))
    as Hh by (eexists _, _; split; [vm_compute; reflexivity | by split]).
  split; [exact Hh|]. split; [vm_compute; reflexivity|]. split; [vm_compute; reflexivity|].
  split; [vm_compute; reflexivity|].
  apply (mapNewIndex_nil_stores_zero places_state 0 _ _ 0 places_entries
           (LString "EU") (DString "EU") Hh);
    vm_compute; reflexivity.
Defined.

(** *** What the converters do to the state *)

Lemma ensureMetatable_inv s p s' :
  ensureMetatable s = Ok p s' →
  (s' = s ∧ ∃ reg, tables s !! Registry s = Some reg
                   ∧ reg !! metatableKey = Some (LTable p))
  ∨ ∃ reg, tables s !! Registry s = Some reg
           ∧ default LNil (reg !! metatableKey) = LNil
           ∧ s' = built s reg ∧ p = length (tables s).
Proof.
  destruct (tables s !! Registry s) as [reg|] eqn:Hreg.
  - destruct (default LNil (reg !! metatableKey)) eqn:Hkey.
    { rewrite (ensureMetatable_build s reg Hreg Hkey). intros [= <- <-].
      right. by exists reg. }
    all: unfold ensureMetatable, G_Registry, RawGetH, deref, bind, ret, panic;
      rewrite Hreg, Hkey; try done.
    intros [= <- <-]. left. split; [done|]. exists reg. split; [done|].
    destruct (reg !! metatableKey) as [v|]; [|done]. cbn in Hkey. by subst.
  - unfold ensureMetatable, G_Registry, RawGetH, deref, bind. by rewrite Hreg.
Qed.

Lemma new_handle_inv table val name s v s' :
  new_handle table val name s = Ok v s' →
  ∃ u, v = LUserData (length (userdata s))
       ∧ s' = set_userdata (λ h, h ++ [u]) s
       ∧ Value_Interface val s = Ok (Value u) s
       ∧ Metatable u = attached s table name.
Proof.
  unfold new_handle. unfold bind at 1. unfold NewUserData at 1.
  intros H. apply bind_inv in H as (x & s1 & Hx & H).
  assert (s1 = set_userdata (λ h, h ++ [mkUserData INil LNil]) s
          ∧ Value_Interface val s = Ok x s) as [-> Hx'].
  { destruct val as [|lv|t d]; [done|..]; cbn in Hx |- *.
    - by injection Hx as <- <-.
    - destruct (TypeKind t), d; by injection Hx as <- <-. }
  exists (mkUserData x (attached s table name)).
  revert H.
  unfold set_Value, set_Metatable, RawGetH, attached, kind_table,
    bind, deref, modify, ret, set_userdata.
  destruct s as [R T U Fs C Mp St]. cbn [userdata tables Value Metatable] in *.
  destruct name as [n|];
    repeat (rewrite ?lookup_app_length, ?insert_app_length;
            cbn [userdata tables Value Metatable mbind option_bind]).
  - destruct (T !! table) as [t|];
      repeat (rewrite ?lookup_app_length, ?insert_app_length;
              cbn [userdata tables Value Metatable mbind option_bind]);
      [|done].
    by intros [= <- <-].
  - by intros [= <- <-].
Qed.

(** The outcome of [New]: the operator tables are built if they were
    not, and then nothing else changes, or one handle is allocated, or one
    function. *)
Lemma New_inv x s v s' :
  New x s = Ok v s' →
  (s' = s ∧ ((x = INil ∧ v = LNil) ∨ x = ILua v))
  ∨ ∃ t d p s1,
      x = IDyn t d ∧ ensureMetatable s = Ok p s1
      ∧ ((s' = s1 ∧ handle_table (TypeKind t) = None ∧ TypeKind t ≠ Func)
         ∨ (∃ name u,
              handle_table (TypeKind t) = Some name
              ∧ v = LUserData (length (userdata s1))
              ∧ s' = set_userdata (λ h, h ++ [u]) s1
              ∧ Value u = stored_iface t d
              ∧ Metatable u = attached s1 p name)
         ∨ (TypeKind t = Func
            ∧ v = LFunction (length (functions s1))
            ∧ s' = set_functions (λ h, h ++ [fn_funcWrapper_closure (RVal t d)]) s1)).
Proof.
  destruct x as [|lv|t d]; cbn [New].
  - intros [= <- <-]. left. eauto.
  - intros [= <- <-]. left. eauto.
  - intros H. right. apply bind_inv in H as (p & s1 & He & H).
    exists t, d, p, s1. split; [done|]. split; [done|].
    cbn [ValueOf ValueKind] in H.
    assert (∀ name, new_handle p (RVal t d) name s1 = Ok v s' →
              ∃ u, v = LUserData (length (userdata s1))
                   ∧ s' = set_userdata (λ h, h ++ [u]) s1
                   ∧ Value u = stored_iface t d
                   ∧ Metatable u = attached s1 p name) as Hnew.
    { intros name Hn. apply new_handle_inv in Hn as (u & -> & -> & Hv & Hm).
      rewrite Value_Interface_stored in Hv. injection Hv as Hv. eauto. }
    destruct (TypeKind t) eqn:Hk; cbn [handle_table];
      try (left; split; [|done];
           first [ by injection H as <- <-
                 | by (destruct d; cbn in H; try discriminate;
                       injection H as <- <-) ]);
      try (right; left; eexists _;
           destruct (Hnew _ H) as (u & ? & ? & ? & ?); by exists u).
    right. right. unfold funcWrapper, NewFunction, bind, ret in H.
    by injection H as <- <-.
Qed.

Lemma TypeKind_underlying t : TypeKind (underlying t) = TypeKind t.
Proof. induction t; cbn; auto. Qed.

Lemma initialized_set_maps s p f : initialized s p → initialized (set_maps f s) p.
Proof. by destruct s. Qed.

Lemma initialized_set_userdata s p f :
  initialized s p → initialized (set_userdata f s) p.
Proof. by destruct s. Qed.


(** A value that the element type holds exactly is what the forward
    conversion of the stored element gives, once the operator tables are
    built. *)
Lemma reads_back_New s V et e :
  reads_back V et →
  host_elem s V et = Some (Some e) →
  ∀ σ p, initialized σ p → New (stored_iface et e) σ = Ok V σ.
Proof.
  intros Hrb He σ p Hi.
  pose proof (ensureMetatable_cached σ p (proj1 Hi)) as Hens.
  unfold New.
  destruct Hrb as [b|x|z t Hc Hr Hz].
  - unfold host_elem in He. cbn in He. injection He as <-.
    cbn [stored_iface TypeKind Basic_Kind]. by erewrite bind_Ok by exact Hens.
  - unfold host_elem in He. cbn in He. injection He as <-.
    cbn [stored_iface TypeKind Basic_Kind]. by erewrite bind_Ok by exact Hens.
  - assert (e = DInt z ∧ is_int_kind (TypeKind t) || is_uint_kind (TypeKind t) = true)
      as [-> Hint].
    { unfold host_elem in He. cbn [lValueToReflect] in He.
      unfold Convert_LNumber in He.
      destruct (wrap_in_range _ _ Hr) as [[Hik Hw]|(Hik & Hu & H0 & Hw)];
        rewrite Hik in He; [|rewrite Hu in He];
        rewrite ?float_to_int64_of_Z, ?float_to_uint64_of_Z, Hw in He by lia;
        rewrite bind_ret in He; unfold assignTo in He;
        rewrite directlyAssignable_refl in He; cbn in He;
        injection He as <-; (split; [done|]); by rewrite ?Hik, ?Hu. }
    assert (stored_iface t (DInt z) = IDyn t (DInt z)) as ->
      by (unfold stored_iface; by destruct (TypeKind t)).
    erewrite bind_Ok by exact Hens. cbn [ValueOf ValueKind].
    unfold converted_int_kind in Hc.
    destruct (TypeKind t); try discriminate; done.
Qed.


Lemma initialized_app_functions s p F :
  initialized s p → initialized (set_functions (λ h, h ++ F) s) p.
Proof.
  intros (Hreg & Hlt & F0 & HT & HF). split; [by destruct s|].
  split; [by destruct s|]. exists F0. split; [by destruct s|].
  intros k g Hk. destruct s; cbn. apply lookup_app_l_Some. by apply HF.
Qed.

(** After a conversion the operator tables are in place. *)
Lemma New_initialized t d s v s' :
  ready s → New (IDyn t d) s = Ok v s' → ∃ p, initialized s' p.
Proof.
  intros Hr Hnew. destruct (ensureMetatable_ready s Hr) as (p & s1 & He & Hi & _).
  exists p.
  apply New_inv in Hnew as [[_ [[? _]|?]]|Hnew]; [done..|].
  destruct Hnew as (t' & d' & p' & s1' & _ & Hens' & Hcase).
  rewrite He in Hens'. injection Hens' as <- <-.
  destruct Hcase as [(-> & _)|[(name & u & _ & _ & -> & _)|(_ & _ & ->)]].
  - done.
  - by apply initialized_set_userdata.
  - by apply initialized_app_functions.
Qed.

Lemma places_state_initialized : initialized places_state 1.
Proof.
  assert (ready (set_maps (λ _, [places_entries]) initial_state)) as Hr
    by (left; exists ∅; by split).
  assert (New places (set_maps (λ _, [places_entries]) initial_state)
          = Ok (LUserData 0) places_state) as Hnew by (vm_compute; reflexivity).
  destruct (New_initialized _ _ _ _ _ Hr Hnew) as [p Hp].
  assert (p = 1) as ->; [|exact Hp].
  pose proof Hp as [(reg & Hreg & Hkey) _].
  vm_compute in Hreg. injection Hreg as <-.
  vm_compute in Hkey. by injection Hkey.
Qed.


(** *** Equality of handles *)

Lemma baseEqual_spec s h1 h2 u1 u2 b :
  userdata s !! h1 = Some u1 → userdata s !! h2 = Some u2 →
  iface_eq (Value u1) (Value u2) = Some b →
  call baseEqual [LUserData h1; LUserData h2] s = Ok [LBool b] s.
Proof.
  intros H1 H2 Hb.
  set (σ := set_stack (λ _, [LUserData h1; LUserData h2]) s).
  assert (baseEqual σ = Ok 1 (set_stack (λ st, st ++ [LBool b]) σ)) as H.
  { unfold baseEqual.
    erewrite bind_Ok by reflexivity.
    erewrite bind_Ok by reflexivity.
    erewrite bind_Ok; cycle 1.
    { unfold get_Value, deref, bind. cbn [userdata set_stack σ]. rewrite H1. reflexivity. }
    erewrite bind_Ok; cycle 1.
    { unfold get_Value, deref, bind. cbn [userdata set_stack σ]. rewrite H2. reflexivity. }
    by rewrite Hb. }
  rewrite (call_spec _ _ _ _ _ H). destruct s; reflexivity.
Qed.

Lemma comparable_reference t :
  TypeKind t = Chan ∨ TypeKind t = Ptr → comparable t = true.
Proof. induction t; cbn; intros [?|?]; try done; auto. Qed.

Lemma iface_eq_reference t r r' :
  TypeKind t = Chan ∨ TypeKind t = Ptr →
  iface_eq (IDyn t (DRef r)) (IDyn t (DRef r')) = Some (bool_decide (r = r')).
Proof.
  intros Hk. unfold iface_eq. cbn [go_eq].
  by rewrite GoType_eqb_refl, comparable_reference.
Qed.

(** C2, as stated, fails on the code: the operator table of the two
    handles of a struct value has no equality operator, and the equality
    operator of the two handles of a map panics. *)
Lemma handles_equal_counterexample :
  (userdata tim_state !! 0 = Some (mkUserData tim (LTable 6))
   ∧ userdata tim_state !! 1 = Some (mkUserData tim (LTable 6))
   ∧ eq_handler tim_state 0 = None ∧ eq_handler tim_state 1 = None)
  ∧ (userdata places_twice_state !! 0 = Some (mkUserData places (LTable 3))
     ∧ userdata places_twice_state !! 1 = Some (mkUserData places (LTable 3))
     ∧ call baseEqual [LUserData 0; LUserData 1] places_twice_state
       = Panic (runtime_panic "comparing uncomparable type")).
Proof. repeat split; vm_compute; reflexivity. Qed.

(** C2, amended.  Two forward conversions of the same channel or pointer
    give two distinct handles; the operator table of both has [baseEqual]
    as its equality operator, and [baseEqual] returns true for them, as it
    compares the values the handles hold: for a handle of another channel
    or pointer of the same type it returns false. *)
Theorem handles_equal s t r :
  ready s →
  TypeKind t = Chan ∨ TypeKind t = Ptr →
  ∃ h1 s1 h2 s2 f,
    New (IDyn t (DRef r)) s = Ok (LUserData h1) s1
    ∧ New (IDyn t (DRef r)) s1 = Ok (LUserData h2) s2
    ∧ h1 ≠ h2
    ∧ eq_handler s2 h1 = Some (LFunction f)
    ∧ eq_handler s2 h2 = Some (LFunction f)
    ∧ functions s2 !! f = Some fn_baseEqual
    ∧ call baseEqual [LUserData h1; LUserData h2] s2 = Ok [LTrue] s2
    ∧ ∀ r' h3 s3,
        r' ≠ r →
        New (IDyn t (DRef r')) s2 = Ok (LUserData h3) s3 →
        call baseEqual [LUserData h1; LUserData h3] s3 = Ok [LFalse] s3.
Proof.
  intros Hr Hk.
  destruct (ensureMetatable_ready s Hr) as (p & s0 & He & Hi & _).
  assert (TypeKind t ≠ Interface) as Hni by (by destruct Hk as [-> | ->]).
  (* the table of the kind, and its equality operator *)
  assert (∃ k name methods,
            typeMetatable !! k = Some (name, methods)
            ∧ handle_table (TypeKind t) = Some (Some name)
            ∧ ("__eq", fn_baseEqual) ∈ methods) as (k & name & methods & Hk1 & Hk2 & Hk3).
  { destruct Hk as [-> | ->].
    - exists 0. eexists _, _. split; [reflexivity|]. split; [reflexivity|].
      repeat first [apply list_elem_of_here | apply list_elem_of_further].
    - exists 2. eexists _, _. split; [reflexivity|]. split; [reflexivity|].
      repeat first [apply list_elem_of_here | apply list_elem_of_further]. }
  destruct (initialized_kind s0 p k name methods Hi Hk1)
    as (Hkt & tb & Htb & _ & Hmeth).
  rewrite Forall_forall in Hmeth.
  destruct (Hmeth _ Hk3) as (f & Hf1 & Hf2). cbn [fst snd] in Hf1, Hf2.
  assert (attached s0 p (Some name) = LTable (p + S k)) as Hatt
    by (unfold attached; by rewrite Hkt).
  pose (u := mkUserData (IDyn t (DRef r)) (LTable (p + S k))).
  set (s1 := set_userdata (λ h, h ++ [u]) s0).
  set (s2 := set_userdata (λ h, h ++ [u]) s1).
  assert (New (IDyn t (DRef r)) s = Ok (LUserData (length (userdata s0))) s1) as Hn1.
  { rewrite (New_handle s p s0 t (DRef r) (Some name) He Hi Hni Hk2).
    by rewrite Hatt. }
  assert (initialized s1 p) as Hi1 by (by apply initialized_set_userdata).
  assert (∀ d, New (IDyn t d) s1
               = Ok (LUserData (length (userdata s1)))
                    (set_userdata (λ h, h ++ [mkUserData (IDyn t d) (LTable (p + S k))]) s1))
    as Hn2.
  { intros d.
    rewrite (New_handle s1 p s1 t d (Some name)
               (ensureMetatable_cached _ _ (proj1 Hi1)) Hi1 Hni Hk2).
    assert (attached s1 p (Some name) = attached s0 p (Some name)) as ->
      by (by destruct s0).
    by rewrite Hatt. }
  assert (initialized s2 p) as Hi2 by (by apply initialized_set_userdata).
  assert (userdata s2 !! length (userdata s0) = Some u) as Hu1.
  { destruct s0; cbn. apply lookup_app_l_Some, lookup_app_length. }
  assert (userdata s2 !! length (userdata s1) = Some u) as Hu2.
  { destruct s0; cbn. apply lookup_app_length. }
  assert (∀ h, userdata s2 !! h = Some u → eq_handler s2 h = Some (LFunction f))
    as Heq.
  { intros h Hh. unfold eq_handler. rewrite Hh. cbn [mbind option_bind Metatable u].
    assert (tables s2 = tables s0) as -> by (by destruct s0).
    rewrite Htb. exact Hf1. }
  exists (length (userdata s0)), s1, (length (userdata s1)), s2, f.
  split; [exact Hn1|]. split; [apply Hn2|].
  split; [destruct s0; cbn; rewrite length_app; cbn; lia|].
  split; [by apply Heq|]. split; [by apply Heq|].
  split; [by destruct s0|].
  split.
  { eapply baseEqual_spec; [exact Hu1|exact Hu2|].
    cbn [Value u]. rewrite iface_eq_reference by done.
    by rewrite bool_decide_eq_true_2. }
  intros r' h3 s3 Hne Hn3.
  assert (ensureMetatable s2 = Ok p s2) as He2
    by (apply ensureMetatable_cached, Hi2).
  rewrite (New_handle s2 p s2 t (DRef r') (Some name) He2 Hi2 Hni Hk2) in Hn3.
  injection Hn3 as <- <-.
  eapply baseEqual_spec.
  - destruct s0; cbn. apply lookup_app_l_Some. exact Hu1.
  - destruct s0; cbn. apply lookup_app_length.
  - cbn [Value u]. rewrite iface_eq_reference by done.
    by rewrite bool_decide_eq_false_2 by congruence.
Qed.

Lemma handles_equal_witness :
  ready initial_state
  ∧ (TypeKind (TChan (TBasic string_t)) = Chan
     ∨ TypeKind (TChan (TBasic string_t)) = Ptr)
  ∧ ∃ h1 s1 h2 s2 f,
      New ch initial_state = Ok (LUserData h1) s1
      ∧ New ch s1 = Ok (LUserData h2) s2
      ∧ h1 ≠ h2
      ∧ eq_handler s2 h1 = Some (LFunction f)
      ∧ eq_handler s2 h2 = Some (LFunction f)
      ∧ functions s2 !! f = Some fn_baseEqual
      ∧ call baseEqual [LUserData h1; LUserData h2] s2 = Ok [LTrue] s2
      ∧ ∀ r' h3 s3,
          r' ≠ Some 7 →
          New (IDyn (TChan (TBasic string_t)) (DRef r')) s2 = Ok (LUserData h3) s3 →
          call baseEqual [LUserData h1; LUserData h3] s3 = Ok [LFalse] s3.
Proof.
  split; [apply ready_initial_state|]. split; [by left|].
  apply (handles_equal initial_state (TChan (TBasic string_t)) (Some 7)
           ready_initial_state).
  by left.
Defined.

(** *** The handles and the operator tables are left as they are *)

Lemma handles_kept_refl s : handles_kept s s.
Proof. by split. Qed.

Lemma handles_kept_trans s1 s2 s3 :
  handles_kept s1 s2 → handles_kept s2 s3 → handles_kept s1 s3.
Proof. intros [H1 I1] [H2 I2]. split; [by etrans|]. auto. Qed.

Lemma hk_ret {A} (a : A) : keeps handles_kept (ret a).
Proof. intros s a' s' [= <- <-]. apply handles_kept_refl. Qed.

Lemma hk_panic {A} e : keeps handles_kept (@panic A e).
Proof. by intros s a s' ?. Qed.

Lemma hk_bind {A B} (m : M A) (k : A → M B) :
  keeps handles_kept m → (∀ a, keeps handles_kept (k a)) →
  keeps handles_kept (bind m k).
Proof.
  intros Hm Hk s b s' H. apply bind_inv in H as (a & s1 & H1 & H2).
  eapply handles_kept_trans; [by eapply Hm | by eapply Hk].
Qed.

(** A computation that only reads the state. *)
Lemma hk_read {A} (m : M A) :
  (∀ s a s', m s = Ok a s' → s' = s) → keeps handles_kept m.
Proof. intros Hm s a s' H. rewrite (Hm _ _ _ H). apply handles_kept_refl. Qed.

Lemma hk_deref {A} (heap : State → list A) p : keeps handles_kept (deref heap p).
Proof.
  apply hk_read. intros s a s'. unfold deref.
  destruct (heap s !! p); [by intros [= <- <-]|done].
Qed.

Lemma hk_modify_maps g : keeps handles_kept (modify (set_maps g)).
Proof. intros [] a s' [= <- <-]. by split. Qed.
Lemma hk_modify_closures g : keeps handles_kept (modify (set_closures g)).
Proof. intros [] a s' [= <- <-]. by split. Qed.
Lemma hk_modify_stack g : keeps handles_kept (modify (set_stack g)).
Proof. intros [] a s' [= <- <-]. by split. Qed.

Lemma hk_get_state : keeps handles_kept get_state.
Proof. apply hk_read. by intros s a s' [= <- <-]. Qed.
Lemma hk_Get n : keeps handles_kept (Get n).
Proof. apply hk_read. by intros s a s' [= <- <-]. Qed.
Lemma hk_NewFunction g : keeps handles_kept (NewFunction g).
Proof.
  intros s a s' [= <- <-]. split; [by destruct s|].
  intros p. apply initialized_app_functions.
Qed.
Lemma hk_alloc_closure v :
  keeps handles_kept
    (λ s, Ok (length (closures s)) (set_closures (λ h, h ++ [v]) s)).
Proof. intros [] a s' [= <- <-]. by split. Qed.

Create HintDb hk discriminated.
#[local] Hint Resolve hk_ret hk_panic hk_deref hk_modify_maps
  hk_modify_closures hk_modify_stack hk_get_state hk_Get hk_NewFunction
  hk_alloc_closure : hk.

Ltac hk_step :=
  match goal with
  | |- keeps handles_kept (bind _ _) => apply hk_bind; [|intros ?]
  | |- keeps handles_kept (match ?x with _ => _ end) => destruct x
  | |- keeps handles_kept (if ?x then _ else _) => destruct x
  | |- keeps handles_kept (let '(_, _) := ?x in _) => destruct x
  | |- keeps handles_kept _ => solve [auto with hk]
  end.
Ltac hk := repeat hk_step.

Lemma hk_get_Value ud : keeps handles_kept (get_Value ud).
Proof. unfold get_Value. hk. Qed.
Lemma hk_CheckUserData n : keeps handles_kept (CheckUserData n).
Proof. unfold CheckUserData. hk. Qed.
Lemma hk_Push v : keeps handles_kept (Push v).
Proof. unfold Push. hk. Qed.
Lemma hk_Value_Interface v : keeps handles_kept (Value_Interface v).
Proof. unfold Value_Interface. hk. Qed.
Lemma hk_Value_Type v : keeps handles_kept (Value_Type v).
Proof. unfold Value_Type. hk. Qed.
Lemma hk_assignTo v t : keeps handles_kept (assignTo v t).
Proof. unfold assignTo. hk. Qed.
Lemma hk_check_hashable k : keeps handles_kept (check_hashable k).
Proof. unfold check_hashable. hk. Qed.
Lemma hk_as_map w v : keeps handles_kept (as_map w v).
Proof. unfold as_map. hk. Qed.
Lemma hk_Convert_LNumber n t : keeps handles_kept (Convert_LNumber n t).
Proof. unfold Convert_LNumber. hk. Qed.
Lemma hk_Type_Key v : keeps handles_kept (Type_Key v).
Proof. unfold Type_Key. hk. Qed.
Lemma hk_Type_Elem v : keeps handles_kept (Type_Elem v).
Proof. unfold Type_Elem. hk. Qed.
#[local] Hint Resolve hk_get_Value hk_CheckUserData
  hk_Push hk_Value_Interface hk_Value_Type hk_assignTo hk_check_hashable
  hk_as_map hk_Convert_LNumber hk_Type_Key hk_Type_Elem : hk.

Lemma hk_lValueToReflect v t : keeps handles_kept (lValueToReflect v t).
Proof. unfold lValueToReflect. hk. Qed.
Lemma hk_MapIndex v k : keeps handles_kept (MapIndex v k).
Proof. unfold MapIndex. hk. Qed.
Lemma hk_SetMapIndex v k e : keeps handles_kept (SetMapIndex v k e).
Proof. unfold SetMapIndex. hk. Qed.
Lemma hk_MapKeys v : keeps handles_kept (MapKeys v).
Proof. unfold MapKeys. hk. Qed.
Lemma hk_Len v : keeps handles_kept (Len v).
Proof. unfold Len. hk. Qed.
#[local] Hint Resolve hk_lValueToReflect hk_MapIndex hk_SetMapIndex hk_MapKeys
  hk_Len : hk.

Lemma hk_ensureMetatable : keeps handles_kept ensureMetatable.
Proof.
  intros s p s' H.
  apply ensureMetatable_inv in H
    as [[-> _]|(reg & Hreg & Hkey & -> & ->)]; [apply handles_kept_refl|].
  split; [done|].
  intros q [(r & Hr & Hk) _]. rewrite Hreg in Hr. injection Hr as <-.
  rewrite Hk in Hkey. done.
Qed.
#[local] Hint Resolve hk_ensureMetatable : hk.

Lemma handles_kept_new_handle s u :
  handles_kept s (set_userdata (λ h, h ++ [u]) s).
Proof.
  split; [destruct s; cbn; by apply prefix_app_r|].
  intros p. apply initialized_set_userdata.
Qed.

Lemma hk_New x : keeps handles_kept (New x).
Proof.
  intros s v s' H.
  apply New_inv in H as [[-> _]|(t & d & p & s1 & _ & He & Hcase)];
    [apply handles_kept_refl|].
  apply hk_ensureMetatable in He.
  eapply handles_kept_trans; [exact He|].
  destruct Hcase as [(-> & _)|[(name & u & _ & _ & -> & _)|(_ & _ & ->)]].
  - apply handles_kept_refl.
  - apply handles_kept_new_handle.
  - by eapply hk_NewFunction.
Qed.
#[local] Hint Resolve hk_New : hk.

Lemma NewType_inv x s v s' :
  NewType x s = Ok v s' →
  ∃ p s1 u, ensureMetatable s = Ok p s1
            ∧ v = LUserData (length (userdata s1))
            ∧ s' = set_userdata (λ h, h ++ [u]) s1
            ∧ Metatable u = attached s1 p (Some "type").
Proof.
  intros H. unfold NewType in H.
  apply bind_inv in H as (p & s1 & He & H).
  apply bind_inv in H as (ty & s2 & Hty & H).
  assert (s2 = s1) as ->
    by (destruct x; cbn in Hty; try done; by injection Hty as <- <-).
  exists p, s1, (mkUserData ty (attached s1 p (Some "type"))).
  split; [done|]. clear He Hty.
  revert H. unfold NewUserData, set_Value, set_Metatable, RawGetH, attached,
    kind_table, bind, deref, modify, ret, set_userdata.
  destruct s1 as [R T U Fs C Mp St]. cbn [userdata tables Value Metatable].
  repeat (rewrite ?lookup_app_length, ?insert_app_length;
          cbn [userdata tables Value Metatable]).
  destruct (T !! p) as [tb|];
    repeat (rewrite ?lookup_app_length, ?insert_app_length;
            cbn [userdata tables Value Metatable mbind option_bind]); [|done].
  by intros [= <- <-].
Qed.

Lemma hk_NewType x : keeps handles_kept (NewType x).
Proof.
  intros s v s' H. apply NewType_inv in H as (p & s1 & u & He & _ & -> & _).
  apply hk_ensureMetatable in He.
  eapply handles_kept_trans; [exact He|]. apply handles_kept_new_handle.
Qed.

Lemma hk_call body args :
  keeps handles_kept body → keeps handles_kept (call body args).
Proof. intros Hb. unfold call. hk. Qed.

Lemma hk_handler Sprintf g body :
  handler Sprintf g = Some body → keeps handles_kept body.
Proof.
  destruct g; cbn [handler]; try done; intros [= <-].
  - unfold baseEqual. hk.
  - unfold mapIndex. hk.
  - unfold mapNewIndex. hk.
  - unfold mapLen. hk.
  - unfold mapCall. hk.
  - unfold baseToString. hk.
  - unfold mapCall_fn. hk.
Qed.

Lemma hk_run Sprintf op : keeps handles_kept (run Sprintf op).
Proof.
  destruct op; cbn [run].
  - hk.
  - apply hk_bind; [apply hk_NewType | intros; apply hk_ret].
  - hk.
  - destruct (handler Sprintf g) as [body|] eqn:E; [|apply hk_panic].
    apply hk_call. by eapply hk_handler.
Qed.

(** *** The handles that an operation makes *)

Lemma ik_ret {A} (a : A) : keeps interpreter_kept (ret a).
Proof. by intros s a' s' [= <- <-]. Qed.

Lemma ik_panic {A} e : keeps interpreter_kept (@panic A e).
Proof. by intros s a s' ?. Qed.

Lemma ik_bind {A B} (m : M A) (k : A → M B) :
  keeps interpreter_kept m → (∀ a, keeps interpreter_kept (k a)) →
  keeps interpreter_kept (bind m k).
Proof.
  intros Hm Hk s b s' H. apply bind_inv in H as (a & s1 & H1 & H2).
  destruct (Hm _ _ _ H1) as (? & ? & ?), (Hk _ _ _ _ H2) as (? & ? & ?).
  repeat split; congruence.
Qed.

Lemma ik_deref {A} (heap : State → list A) p : keeps interpreter_kept (deref heap p).
Proof.
  intros s a s'. unfold deref. destruct (heap s !! p); [by intros [= <- <-]|done].
Qed.

Lemma ik_modify_maps g : keeps interpreter_kept (modify (set_maps g)).
Proof. by intros [] a s' [= <- <-]. Qed.
Lemma ik_modify_closures g : keeps interpreter_kept (modify (set_closures g)).
Proof. by intros [] a s' [= <- <-]. Qed.
Lemma ik_modify_stack g : keeps interpreter_kept (modify (set_stack g)).
Proof. by intros [] a s' [= <- <-]. Qed.
Lemma ik_get_state : keeps interpreter_kept get_state.
Proof. by intros s a s' [= <- <-]. Qed.
Lemma ik_Get n : keeps interpreter_kept (Get n).
Proof. by intros s a s' [= <- <-]. Qed.
Lemma ik_NewFunction g : keeps interpreter_kept (NewFunction g).
Proof. by intros [] a s' [= <- <-]. Qed.
Lemma ik_alloc_closure v :
  keeps interpreter_kept
    (λ s, Ok (length (closures s)) (set_closures (λ h, h ++ [v]) s)).
Proof. by intros [] a s' [= <- <-]. Qed.

Create HintDb ik discriminated.
#[local] Hint Resolve ik_ret ik_panic ik_deref ik_modify_maps
  ik_modify_closures ik_modify_stack ik_get_state ik_Get ik_NewFunction
  ik_alloc_closure : ik.

Ltac ik_step :=
  match goal with
  | |- keeps interpreter_kept (bind _ _) => apply ik_bind; [|intros ?]
  | |- keeps interpreter_kept (match ?x with _ => _ end) => destruct x
  | |- keeps interpreter_kept (if ?x then _ else _) => destruct x
  | |- keeps interpreter_kept (let '(_, _) := ?x in _) => destruct x
  | |- keeps interpreter_kept (let _ := _ in _) => cbv zeta
  | |- keeps interpreter_kept _ => solve [auto with ik]
  end.
Ltac ik := repeat ik_step.

Lemma ik_get_Value ud : keeps interpreter_kept (get_Value ud).
Proof. unfold get_Value. ik. Qed.
Lemma ik_CheckUserData n : keeps interpreter_kept (CheckUserData n).
Proof. unfold CheckUserData. ik. Qed.
Lemma ik_Push v : keeps interpreter_kept (Push v).
Proof. unfold Push. ik. Qed.
Lemma ik_Value_Interface v : keeps interpreter_kept (Value_Interface v).
Proof. unfold Value_Interface. ik. Qed.
Lemma ik_Value_Type v : keeps interpreter_kept (Value_Type v).
Proof. unfold Value_Type. ik. Qed.
Lemma ik_assignTo v t : keeps interpreter_kept (assignTo v t).
Proof. unfold assignTo. ik. Qed.
Lemma ik_check_hashable k : keeps interpreter_kept (check_hashable k).
Proof. unfold check_hashable. ik. Qed.
Lemma ik_as_map w v : keeps interpreter_kept (as_map w v).
Proof. unfold as_map. ik. Qed.
Lemma ik_Convert_LNumber n t : keeps interpreter_kept (Convert_LNumber n t).
Proof. unfold Convert_LNumber. ik. Qed.
Lemma ik_Type_Key v : keeps interpreter_kept (Type_Key v).
Proof. unfold Type_Key. ik. Qed.
Lemma ik_Type_Elem v : keeps interpreter_kept (Type_Elem v).
Proof. unfold Type_Elem. ik. Qed.
#[local] Hint Resolve ik_get_Value ik_CheckUserData ik_Push ik_Value_Interface
  ik_Value_Type ik_assignTo ik_check_hashable ik_as_map ik_Convert_LNumber
  ik_Type_Key ik_Type_Elem : ik.

Lemma ik_lValueToReflect v t : keeps interpreter_kept (lValueToReflect v t).
Proof. unfold lValueToReflect. ik. Qed.
Lemma ik_MapIndex v k : keeps interpreter_kept (MapIndex v k).
Proof. unfold MapIndex. ik. Qed.
Lemma ik_SetMapIndex v k e : keeps interpreter_kept (SetMapIndex v k e).
Proof. unfold SetMapIndex. ik. Qed.
Lemma ik_MapKeys v : keeps interpreter_kept (MapKeys v).
Proof. unfold MapKeys. ik. Qed.
Lemma ik_Len v : keeps interpreter_kept (Len v).
Proof. unfold Len. ik. Qed.
#[local] Hint Resolve ik_lValueToReflect ik_MapIndex ik_SetMapIndex ik_MapKeys
  ik_Len : ik.

(** The operator table of a kind is the same table in every state in which
    the registry table is [p]. *)
Lemma attached_initialized s s' p name :
  initialized s p → initialized s' p →
  (∃ k, handle_table k = Some name) ∨ name = Some "type" →
  attached s' p name = attached s p name.
Proof.
  intros Hi Hi' Hname. unfold attached.
  assert (∀ j n methods, typeMetatable !! j = Some (n, methods) →
            default LNil (kind_table s' p n) = default LNil (kind_table s p n)) as H.
  { intros j n methods Hj.
    destruct (initialized_kind s p j n methods Hi Hj) as [-> _].
    by destruct (initialized_kind s' p j n methods Hi' Hj) as [-> _]. }
  destruct Hname as [[k Hk]| ->]; [|by apply (H 5 _ _ eq_refl)].
  destruct k; try discriminate; injection Hk as <-;
    first [ done
          | by apply (H 0 _ _ eq_refl) | by apply (H 1 _ _ eq_refl)
          | by apply (H 2 _ _ eq_refl) | by apply (H 3 _ _ eq_refl)
          | by apply (H 4 _ _ eq_refl) ].
Qed.

Lemma made_by_conversion_kept s s' u :
  (∀ p, initialized s p → initialized s' p) →
  made_by_conversion s u → made_by_conversion s' u.
Proof.
  intros Hi [t d p name Hp Hv Hk Hm|p Hp Hm].
  - apply (by_New s' u t d p name); [by apply Hi|done..|].
    rewrite Hm. symmetry. apply attached_initialized; eauto.
  - apply (by_NewType s' u p); [by apply Hi|].
    rewrite Hm. symmetry. apply attached_initialized; eauto.
Qed.

Lemma handles_converted_refl s : handles_converted s s.
Proof.
  intros Hr. split; [done|]. split; [apply handles_kept_refl|].
  intros h u Hnone Hsome. congruence.
Qed.

Lemma handles_converted_trans s s1 s2 :
  handles_converted s s1 → handles_converted s1 s2 → handles_converted s s2.
Proof.
  intros H1 H2 Hr.
  destruct (H1 Hr) as (Hr1 & Hk1 & Hn1). destruct (H2 Hr1) as (Hr2 & Hk2 & Hn2).
  split; [done|]. split; [by eapply handles_kept_trans|].
  intros h u Hnone Hsome.
  destruct (userdata s1 !! h) as [u1|] eqn:E; [|by apply (Hn2 h)].
  pose proof (prefix_lookup_Some _ _ _ _ E (proj1 Hk2)) as E2.
  rewrite Hsome in E2. injection E2 as ->.
  apply (made_by_conversion_kept s1); [apply Hk2|by apply (Hn1 h)].
Qed.

Lemma hc_quiet {A} (m : M A) :
  keeps handles_kept m → keeps interpreter_kept m → keeps handles_converted m.
Proof.
  intros Hk Hq s a s' H Hr.
  pose proof (Hk _ _ _ H) as Hkept. destruct (Hq _ _ _ H) as (Hu & Ht & Hg).
  split.
  { destruct Hr as [(reg & Hreg & Hkey)|[p Hp]].
    - left. exists reg. by rewrite Ht, Hg.
    - right. exists p. by apply Hkept. }
  split; [done|]. intros h u Hnone Hsome. congruence.
Qed.

Lemma hc_bind {A B} (m : M A) (k : A → M B) :
  keeps handles_converted m → (∀ a, keeps handles_converted (k a)) →
  keeps handles_converted (bind m k).
Proof.
  intros Hm Hk s b s' H. apply bind_inv in H as (a & s1 & H1 & H2).
  eapply handles_converted_trans; [by eapply Hm|by eapply Hk].
Qed.

Lemma hc_for_range {A} (l : list A) body :
  (∀ x, keeps handles_converted (body x)) →
  keeps handles_converted (for_range l body).
Proof.
  intros Hb. induction l as [|x l IH]; cbn [for_range].
  - apply hc_quiet; [apply hk_ret|apply ik_ret].
  - apply hc_bind; [apply Hb | intros _; apply IH].
Qed.

(** What [ensureMetatable] leaves to a conversion, and the handle that the
    conversion then allocates. *)
Lemma hc_new_handle s p s1 u :
  ready s → ensureMetatable s = Ok p s1 →
  (∀ q, initialized s1 q →
        made_by_conversion (set_userdata (λ h, h ++ [u]) s1) u) →
  handles_converted s (set_userdata (λ h, h ++ [u]) s1).
Proof.
  intros Hr He Hu _.
  destruct (ensureMetatable_ready s Hr) as (p' & s1' & He' & Hi & Hsame & _).
  rewrite He in He'. injection He' as <- <-.
  destruct Hsame as (_ & Hus & _).
  split; [right; exists p; by apply initialized_set_userdata|].
  split.
  { eapply handles_kept_trans; [by eapply hk_ensureMetatable|].
    apply handles_kept_new_handle. }
  intros h u' Hnone Hsome.
  assert (h = length (userdata s1) ∧ u' = u) as [-> ->]; [|by eapply Hu].
  apply lookup_ge_None_1 in Hnone. rewrite <- Hus in Hnone.
  destruct s1 as [R T U Fs C Mp St]; cbn in *.
  apply lookup_app_Some in Hsome as [Hsome|[? Hsome]].
  - apply lookup_lt_Some in Hsome. lia.
  - destruct (h - length U) as [|n] eqn:En; [|done].
    injection Hsome as <-. split; [lia|done].
Qed.

Lemma hc_ensureMetatable_only s p s1 :
  ready s → ensureMetatable s = Ok p s1 → handles_converted s s1.
Proof.
  intros Hr He _.
  destruct (ensureMetatable_ready s Hr) as (p' & s1' & He' & Hi & Hsame & _).
  rewrite He in He'. injection He' as <- <-.
  destruct Hsame as (_ & Hus & _).
  split; [right; by exists p|]. split; [by eapply hk_ensureMetatable|].
  intros h u Hnone Hsome. congruence.
Qed.

Lemma hc_New x : keeps handles_converted (New x).
Proof.
  intros s v s' H Hr. revert Hr. change (handles_converted s s').
  pose proof H as Hinv.
  apply New_inv in Hinv as [[-> _]|Hinv].
  { apply handles_converted_refl. }
  destruct Hinv as (t & d & p & s1 & -> & He & Hcase).
  intros Hr. revert Hr. change (handles_converted s s').
  destruct Hcase as [(-> & _)|[(name & u & Hh & _ & -> & Hv & Hm)|(_ & _ & ->)]].
  - intros Hr. by apply (hc_ensureMetatable_only s p s1).
  - intros Hr. apply (hc_new_handle s p s1 u Hr He); [|done].
    intros q Hq.
    destruct (ensureMetatable_ready s Hr) as (p' & s1' & He' & Hi & _).
    rewrite He in He'. injection He' as <- <-.
    apply (by_New _ u t d p name); [by apply initialized_set_userdata|done..|].
    rewrite Hm. by destruct s1.
  - intros Hr.
    refine (handles_converted_trans s s1 _
              (hc_ensureMetatable_only s p s1 Hr He) _ Hr).
    apply (hc_quiet (NewFunction (fn_funcWrapper_closure (RVal t d)))
             (hk_NewFunction _) (ik_NewFunction _) s1 (length (functions s1))).
    by destruct s1.
Qed.

Lemma hc_NewType x : keeps handles_converted (NewType x).
Proof.
  intros s v s' H Hr.
  apply NewType_inv in H as (p & s1 & u & He & _ & -> & Hm).
  apply (hc_new_handle s p s1 u Hr He); [|done].
  intros q Hq.
  destruct (ensureMetatable_ready s Hr) as (p' & s1' & He' & Hi & _).
  rewrite He in He'. injection He' as <- <-.
  apply (by_NewType _ u p); [by apply initialized_set_userdata|].
  rewrite Hm. by destruct s1.
Qed.

Ltac hc_step :=
  match goal with
  | |- keeps handles_converted (bind _ _) => apply hc_bind; [|intros ?]
  | |- keeps handles_converted (for_range _ _) => apply hc_for_range; intros ?
  | |- keeps handles_converted (New _) => apply hc_New
  | |- keeps handles_converted (match ?x with _ => _ end) => destruct x
  | |- keeps handles_converted (if ?x then _ else _) => destruct x
  | |- keeps handles_converted (let '(_, _) := ?x in _) => destruct x
  | |- keeps handles_converted (let _ := _ in _) => cbv zeta
  | |- keeps handles_converted _ =>
      apply hc_quiet; [solve [auto with hk]|solve [auto with ik]]
  end.
Ltac hc := repeat hc_step.

Lemma hc_call body args :
  keeps handles_converted body → keeps handles_converted (call body args).
Proof. intros Hb. unfold call. hc. exact Hb. Qed.

Lemma hc_handler Sprintf g body :
  handler Sprintf g = Some body → keeps handles_converted body.
Proof.
  destruct g; cbn [handler]; try done; intros [= <-].
  - unfold baseEqual. hc.
  - unfold mapIndex. hc.
  - unfold mapNewIndex. hc.
  - unfold mapLen. hc.
  - unfold mapCall. hc.
  - unfold baseToString. hc.
  - unfold mapCall_fn. hc.
Qed.

Lemma hc_absent_handler (host_operation : HostOperation) g :
  keeps handles_converted (absent_handler host_operation g).
Proof. unfold absent_handler. hc. Qed.

Lemma hc_run_all (host_operation : HostOperation) Sprintf op :
  keeps handles_converted (run_all host_operation Sprintf op).
Proof.
  destruct op as [x|x| |g args]; cbn [run_all run].
  - hc.
  - apply hc_bind; [apply hc_NewType|intros ?; hc].
  - intros s rs s' H Hr. apply bind_inv in H as (p & s1 & He & [= <- <-]).
    by apply (hc_ensureMetatable_only s p s1).
  - apply hc_call. unfold handler_all.
    destruct (handler Sprintf g) as [body|] eqn:E;
      [by eapply hc_handler|apply hc_absent_handler].
Qed.



(** *** The registry is initialized once *)

Lemma New_initialized_tables s p x v s' :
  initialized s p → New x s = Ok v s' →
  initialized s' p ∧ tables s' = tables s.
Proof.
  intros Hi Hnew. split; [by eapply (hk_New x s v s' Hnew)|].
  apply New_inv in Hnew as [[-> _]|(t & d & p' & s1 & _ & He & Hcase)]; [done|].
  rewrite (ensureMetatable_cached s p (proj1 Hi)) in He. injection He as <- <-.
  destruct Hcase as [(-> & _)|[(name & u & _ & _ & -> & _)|(_ & _ & ->)]];
    by destruct s.
Qed.

(** C8.  In an interpreter whose registry has no entry under the key of
    the package, the first call of [ensureMetatable] builds a table with
    the six named operator tables, each with its handlers, and stores it in
    the registry under that key.  From then on, in every state in which
    that entry is in place, a call returns the same table and leaves the
    state, the registry included, as it is; a conversion builds no table
    and leaves the entry in place. *)
Theorem ensureMetatable_once s :
  fresh s →
  ∃ p s1,
    ensureMetatable s = Ok p s1
    ∧ kind_table s1 (Registry s1) metatableKey = Some (LTable p)
    ∧ (∃ names, tables s1 !! p = Some names
                ∧ ∀ name, is_Some (names !! name) ↔ name ∈ typeMetatable.*1)
    ∧ length typeMetatable = 6
    ∧ (∀ k name methods,
         typeMetatable !! k = Some (name, methods) →
         ∃ tp t, kind_table s1 p name = Some (LTable tp)
                 ∧ tables s1 !! tp = Some t
                 ∧ Forall (λ m, ∃ f, t !! m.1 = Some (LFunction f)
                                     ∧ functions s1 !! f = Some m.2) methods)
    ∧ initialized s1 p
    ∧ (∀ s2, initialized s2 p → ensureMetatable s2 = Ok p s2)
    ∧ (∀ s2 x v s3, initialized s2 p → New x s2 = Ok v s3 →
                    initialized s3 p ∧ tables s3 = tables s2).
Proof.
  intros (reg & Hreg & Hkey).
  pose proof (built_initialized s reg Hreg) as Hi.
  exists (length (tables s)), (built s reg).
  split; [by apply ensureMetatable_fresh|].
  split.
  { destruct Hi as [(r & Hr & Hk) _]. unfold kind_table. by rewrite Hr. }
  split.
  { destruct Hi as (_ & _ & F & HT & _).
    specialize (HT 0 _ eq_refl). rewrite Nat.add_0_r in HT.
    eexists. split; [exact HT|].
    intros name. cbn [names_table typeMetatable fst fmap list_fmap].
    rewrite !lookup_insert_is_Some.
    assert (¬ is_Some ((∅ : gmap string LValue) !! name)) as Hempty
      by apply lookup_empty_is_Some.
    rewrite !elem_of_cons, elem_of_nil. split.
    - intros H.
      repeat (destruct H as [<-|[_ H]]; [tauto|]). done.
    - intros H.
      repeat (destruct H as [->|H];
              [repeat first [by left | right; split; [done|]]|]).
      done. }
  split; [done|].
  split.
  { intros k name methods Hk.
    destruct (initialized_kind _ _ k name methods Hi Hk) as (Hkt & t & Ht & _ & Hm).
    eauto. }
  split; [exact Hi|].
  split.
  { intros s2 Hi2. apply ensureMetatable_cached, Hi2. }
  intros s2 x v s3. apply New_initialized_tables.
Qed.

Lemma ensureMetatable_once_witness :
  fresh initial_state
  ∧ ∃ p s1,
      ensureMetatable initial_state = Ok p s1
      ∧ kind_table s1 (Registry s1) metatableKey = Some (LTable p)
      ∧ (∃ names, tables s1 !! p = Some names
                  ∧ ∀ name, is_Some (names !! name) ↔ name ∈ typeMetatable.*1)
      ∧ length typeMetatable = 6
      ∧ (∀ k name methods,
           typeMetatable !! k = Some (name, methods) →
           ∃ tp t, kind_table s1 p name = Some (LTable tp)
                   ∧ tables s1 !! tp = Some t
                   ∧ Forall (λ m, ∃ f, t !! m.1 = Some (LFunction f)
                                       ∧ functions s1 !! f = Some m.2) methods)
      ∧ initialized s1 p
      ∧ (∀ s2, initialized s2 p → ensureMetatable s2 = Ok p s2)
      ∧ (∀ s2 x v s3, initialized s2 p → New x s2 = Ok v s3 →
                      initialized s3 p ∧ tables s3 = tables s2).
Proof.
  assert (fresh initial_state) as Hf by (exists ∅; by split).
  split; [exact Hf|]. exact (ensureMetatable_once initial_state Hf).
Defined.

(** *** The iterator of a map *)

(** C4 fails on the code where a key of the snapshot is no longer found
    when its turn comes.  After the host has deleted ["EU"], the first
    invocation yields the pair of ["NA"] and the second panics, where
    [mapIndex] would test [IsValid]; and the iterator over a map with a
    NaN key panics at that key, which no lookup finds. *)
Theorem mapCall_fn_zero_Value :
  (∃ s, iterate_with_deletion 1 (set_maps (λ _, [places_entries]) initial_state)
        = Ok [[LString "NA"; LString "North America"]] s)
  ∧ iterate_with_deletion 2 (set_maps (λ _, [places_entries]) initial_state)
    = Panic (reflect_panic "call of reflect.Value.Interface on zero Value")
  ∧ iterate_nan 1 (set_maps (λ _, [nan_entries]) initial_state)
    = Panic (reflect_panic "call of reflect.Value.Interface on zero Value").
Proof.
  split.
  { exists (state_of (iterate_with_deletion 1
                        (set_maps (λ _, [places_entries]) initial_state))).
    vm_compute; reflexivity. }
  split; vm_compute; reflexivity.
Qed.

Lemma New_heaps x s v s' :
  New x s = Ok v s' → maps s' = maps s ∧ closures s' = closures s.
Proof.
  intros H.
  apply New_inv in H as [[-> _]|(t & d & p & s1 & _ & He & Hcase)]; [done|].
  assert (maps s1 = maps s ∧ closures s1 = closures s) as [Hm Hc].
  { apply ensureMetatable_inv in He as [[-> _]|(reg & _ & _ & -> & _)]; done. }
  destruct Hcase as [(-> & _)|[(name & u & _ & _ & -> & _)|(_ & _ & ->)]];
    [done|by destruct s1..].
Qed.

(** Calling a map handle gives a new function, the closure over the map,
    the keys it has at that moment (each entry once, in the order of the
    enumeration) and the counter 0. *)
Lemma mapCall_creates s ud kt et p m :
  map_handle s ud kt et p →
  map_entries s p = Some m →
  ∃ t, underlying t = TMap kt et
       ∧ call mapCall [LUserData ud] s
         = Ok [LFunction (length (functions s))]
             (set_functions (λ h, h ++ [fn_mapCall_closure (length (closures s))])
                (set_closures
                   (λ h, h ++ [mkVars (RVal t (DRef p))
                                      (map (λ e, RVal kt e.1) m) 0]) s)).
Proof.
  intros (u & t & Hu & Hv & Ht) Hm. exists t. split; [done|].
  set (σ := set_stack (λ _, [LUserData ud]) s).
  assert (mapCall σ
          = Ok 1 (set_stack (λ st, st ++ [LFunction (length (functions s))])
                    (set_functions (λ h, h ++ [fn_mapCall_closure (length (closures s))])
                       (set_closures
                          (λ h, h ++ [mkVars (RVal t (DRef p))
                                             (map (λ e, RVal kt e.1) m) 0]) σ))))
    as H.
  { unfold mapCall.
    erewrite bind_Ok by reflexivity.
    erewrite bind_Ok; cycle 1.
    { unfold get_Value, deref, bind. cbn [userdata set_stack σ]. rewrite Hu. reflexivity. }
    rewrite Hv. cbn [ValueOf].
    erewrite bind_Ok; cycle 1.
    { unfold MapKeys. erewrite bind_Ok; cycle 1.
      { unfold as_map. rewrite Ht. reflexivity. }
      cbv beta iota. destruct p as [a|]; cbn [map_entries] in Hm.
      - unfold deref, bind. cbn [maps set_stack σ]. rewrite Hm. reflexivity.
      - injection Hm as <-. reflexivity. }
    destruct s; reflexivity. }
  rewrite (call_spec _ _ _ _ _ H). destruct s; reflexivity.
Qed.

(** An invocation of the iterator whose counter is within the snapshot,
    when the key then due is found in the map: it yields the forward
    conversions of the key and of the element that the map holds for it at
    that moment, and advances the counter. *)
Lemma mapCall_fn_yields s env t p kt et keys i k m pos e :
  closures s !! env = Some (mkVars (RVal t (DRef p)) keys i) →
  underlying t = TMap kt et →
  keys !! i = Some (RVal kt k) →
  hashable k = true →
  map_entries s p = Some m →
  map_find kt k m 0 = Some (pos, e) →
  call (mapCall_fn env) [] s
  = (rk <- New (stored_iface kt k) ;;
     rv <- New (stored_iface et e) ;;
     modify (set_closures <[env := mkVars (RVal t (DRef p)) keys (S i)]>) ;;;
     ret [rk; rv]) s.
Proof.
  intros Hc Ht Hi Hh Hm Hf.
  assert (∀ σ, maps σ = maps s →
               MapIndex (RVal t (DRef p)) (RVal kt k) σ = Ok (RVal et e) σ) as Hidx.
  { intros σ Hσ. unfold MapIndex.
    erewrite bind_Ok; cycle 1.
    { unfold as_map. rewrite Ht. reflexivity. }
    cbv beta iota.
    erewrite bind_Ok; cycle 1.
    { unfold assignTo. rewrite directlyAssignable_refl. reflexivity. }
    erewrite bind_Ok; cycle 1.
    { unfold check_hashable. rewrite Hh. reflexivity. }
    destruct p as [a|]; cbn [map_entries] in Hm.
    - unfold deref, bind. rewrite Hσ, Hm. cbn [Value_data]. by rewrite Hf.
    - injection Hm as <-. done. }
  unfold call, mapCall_fn.
  erewrite bind_Ok by reflexivity.
  erewrite bind_Ok by reflexivity.
  rewrite bind_assoc.
  erewrite bind_Ok; cycle 1.
  { unfold deref. cbn [closures set_stack]. rewrite Hc. reflexivity. }
  cbn [var_keys var_i var_value]. rewrite Hi.
  rewrite bind_assoc.
  erewrite bind_Ok by apply Value_Interface_stored.
  rewrite bind_assoc. unfold bind at 1. rewrite si_New.
  destruct (New (stored_iface kt k) s) as [rk s1|] eqn:E1; cbn [res_map];
    [|by rewrite (bind_Panic _ _ _ _ E1)].
  rewrite (bind_Ok _ _ _ _ _ E1).
  destruct (New_heaps _ _ _ _ E1) as [Hm1 Hc1].
  pose proof (stack_indep_stack _ _ _ _ (si_New _) E1) as Hst1.
  rewrite bind_assoc. erewrite bind_Ok by reflexivity.
  rewrite bind_assoc.
  erewrite bind_Ok by (apply Hidx; by destruct s1).
  rewrite bind_assoc.
  erewrite bind_Ok by apply Value_Interface_stored.
  rewrite bind_assoc. unfold bind at 1.
  rewrite !set_stack_set_stack, si_New.
  destruct (New (stored_iface et e) s1) as [rv s2|] eqn:E2; cbn [res_map];
    [|by rewrite (bind_Panic _ _ _ _ E2)].
  rewrite (bind_Ok _ _ _ _ _ E2).
  pose proof (stack_indep_stack _ _ _ _ (si_New _) E2) as Hst2.
  unfold bind, Push, modify, get_state, ret.
  f_equal. destruct s2, s1, s. cbn in *. by subst.
Qed.

(** An invocation of the iterator whose counter has passed the snapshot
    yields nothing and changes nothing. *)
Lemma mapCall_fn_exhausted s env vars :
  closures s !! env = Some vars →
  length (var_keys vars) ≤ var_i vars →
  call (mapCall_fn env) [] s = Ok [] s.
Proof.
  intros Hc Hi.
  assert (mapCall_fn env (set_stack (λ _, []) s) = Ok 0 (set_stack (λ _, []) s)) as H.
  { unfold mapCall_fn.
    erewrite bind_Ok; cycle 1.
    { unfold deref. cbn [closures set_stack]. rewrite Hc. reflexivity. }
    by rewrite (lookup_ge_None_2 _ _ Hi). }
  rewrite (call_spec _ _ _ _ _ H). by destruct s.
Qed.

(** ** Further properties of the handlers and the converters *)

(** *** Arguments that are not handles *)

Lemma CheckUserData_not_userdata n args s :
  (∀ ud, args !! (n - 1) ≠ Some (LUserData ud)) →
  CheckUserData n (set_stack (λ _, args) s) = Panic (type_error n).
Proof.
  intros H. unfold CheckUserData, Get, bind. cbn [stack set_stack].
  destruct (args !! (n - 1)) as [[]|] eqn:E; try done.
  by destruct (H p).
Qed.

(** X1.  Every handler of these files that the operator tables name
    ([mapLen], [mapIndex], [mapNewIndex], [mapCall], [baseToString],
    [baseEqual]) raises the type error of the interpreter for argument 1
    when its first argument is not a userdata; [baseEqual] raises it for
    argument 2 when the first is a userdata and the second is not. *)
Theorem handlers_check_userdata Sprintf s args :
  (∀ ud, args !! 0 ≠ Some (LUserData ud)) →
  (∀ g body, handler Sprintf g = Some body →
             (∀ env, g ≠ fn_mapCall_closure env) →
             call body args s = Panic (type_error 1))
  ∧ (∀ h, call baseEqual (LUserData h :: args) s = Panic (type_error 2)).
Proof.
  intros Hargs.
  pose proof (CheckUserData_not_userdata 1 args s Hargs) as H1.
  split.
  - intros g body Hg Hne. apply call_panic.
    destruct g; cbn [handler] in Hg; try done; injection Hg as <-;
      try (by apply bind_Panic).
    by destruct (Hne env).
  - intros h. apply call_panic. unfold baseEqual.
    erewrite bind_Ok by reflexivity.
    apply bind_Panic.
    by apply (CheckUserData_not_userdata 2 (LUserData h :: args) s).
Qed.

Lemma handlers_check_userdata_witness :
  (∀ ud, [LString "x"] !! 0 ≠ Some (LUserData ud))
  ∧ (∀ g body, handler no_Sprintf g = Some body →
               (∀ env, g ≠ fn_mapCall_closure env) →
               call body [LString "x"] places_state = Panic (type_error 1))
  ∧ (∀ h, call baseEqual [LUserData h; LString "x"] places_state
          = Panic (type_error 2)).
Proof.
  assert (∀ ud, [LString "x"] !! 0 ≠ Some (LUserData ud)) as H by done.
  split; [exact H|].
  exact (handlers_check_userdata no_Sprintf places_state [LString "x"] H).
Defined.

(** *** The length of a map *)

(** X2.  Through the handle of a map, [mapLen] returns one value, the
    number of entries of the map as a number (0 for a nil map), and leaves
    the state as it is; the number is exact for every map of at most
    [2^53] entries. *)
Theorem mapLen_counts s ud kt et p m :
  map_handle s ud kt et p →
  map_entries s p = Some m →
  call mapLen [LUserData ud] s
  = Ok [LNumber (float64_of_Z (Z.of_nat (length m)))] s
  ∧ (p = None → length m = 0)
  ∧ ((Z.of_nat (length m) <= 2 ^ 53)%Z →
     float_trunc (float64_of_Z (Z.of_nat (length m))) = Some (Z.of_nat (length m))).
Proof.
  intros Hh Hm. split; [by eapply mapLen_length|]. split.
  - intros ->. by injection Hm as <-.
  - intros Hle. apply float_trunc_of_Z. lia.
Qed.

Lemma mapLen_counts_witness :
  map_handle places_state 0 (TBasic string_t) (TBasic string_t) (Some 0)
  ∧ map_entries places_state (Some 0) = Some places_entries
  ∧ call mapLen [LUserData 0] places_state
    = Ok [LNumber (float64_of_Z (Z.of_nat (length places_entries)))] places_state
  ∧ (Some 0 = None → length places_entries = 0)
  ∧ ((Z.of_nat (length places_entries) <= 2 ^ 53)%Z →
     float_trunc (float64_of_Z (Z.of_nat (length places_entries)))
     = Some (Z.of_nat (length places_entries))).
Proof.
  assert (map_handle places_state 0 (TBasic string_t) (TBasic string_t) (Some 0))
    as Hh by (eexists _, _; split; [vm_compute; reflexivity | by split]).
  assert (map_entries places_state (Some 0) = Some places_entries) as Hm
    by (vm_compute; reflexivity).
  split; [exact Hh|]. split; [exact Hm|].
  exact (mapLen_counts places_state 0 _ _ (Some 0) places_entries Hh Hm).
Defined.

(** *** Keys that the key type does not accept *)

Lemma GoType_eqb_TBasic t b : GoType_eqb t (TBasic b) = true → t = TBasic b.
Proof. destruct t; cbn; try done. intros H. by apply bool_decide_eq_true in H as ->. Qed.

Lemma not_assignable_basic kt b V :
  kt ≠ TBasic b → TypeKind kt ≠ Interface →
  directlyAssignable kt (TBasic b) = false ∧ implements kt V = false.
Proof.
  intros Hne Hk. split.
  - unfold directlyAssignable.
    destruct (GoType_eqb kt (TBasic b)) eqn:E;
      [by apply GoType_eqb_TBasic in E|].
    destruct (has_name kt) eqn:Hn; [done|]. cbn [andb].
    by destruct kt.
  - unfold implements. destruct (underlying kt) eqn:E; try done.
    rewrite <- TypeKind_underlying, E in Hk. done.
Qed.

Lemma lValueToReflect_fixed lKey bt hint s :
  fixed_type lKey = Some bt →
  ∃ d, lValueToReflect lKey hint s = Ok (RVal (TBasic bt) d) s.
Proof. destruct lKey; try done; intros [= <-]; by eexists. Qed.

(** X3.  A boolean or a string is converted to the type [bool] or [string]
    whatever the hint, so a map accepts it as a key only if its key type is
    that very type or an interface: through the handle of a map with any
    other key type, a declared type such as [type Name string] included,
    the index-read panics inside package reflect, and so does the
    index-write, whatever the value written. *)
Theorem map_key_not_assignable s ud kt et p lKey bt :
  map_handle s ud kt et p →
  fixed_type lKey = Some bt →
  kt ≠ TBasic bt → TypeKind kt ≠ Interface →
  call mapIndex [LUserData ud; lKey] s
  = Panic (reflect_panic "value is not assignable to type")
  ∧ ∀ lValue, panics (call mapNewIndex [LUserData ud; lKey; lValue] s).
Proof.
  intros (u & t & Hu & Hv & Ht) Hfix Hne Hki.
  assert (∀ d σ, assignTo (RVal (TBasic bt) d) kt σ
                 = Panic (reflect_panic "value is not assignable to type")) as Hassign.
  { intros d σ. unfold assignTo.
    destruct (not_assignable_basic kt bt (TBasic bt) Hne Hki) as [-> ->]. done. }
  split.
  - apply call_panic. unfold mapIndex.
    erewrite bind_Ok by reflexivity.
    erewrite bind_Ok by reflexivity.
    erewrite bind_Ok; cycle 1.
    { unfold get_Value, deref, bind. cbn [userdata set_stack]. rewrite Hu. reflexivity. }
    rewrite Hv. cbn [ValueOf].
    erewrite bind_Ok; cycle 1.
    { unfold Type_Key. rewrite Ht. reflexivity. }
    destruct (lValueToReflect_fixed lKey bt kt
                (set_stack (λ _, [LUserData ud; lKey]) s) Hfix) as [d Hd].
    erewrite bind_Ok by exact Hd.
    apply bind_Panic. unfold MapIndex.
    erewrite bind_Ok; cycle 1.
    { unfold as_map. rewrite Ht. reflexivity. }
    cbv beta iota. apply bind_Panic. apply Hassign.
  - intros lValue.
    set (σ := set_stack (λ _, [LUserData ud; lKey; lValue]) s).
    assert (panics (mapNewIndex σ)) as [e He]; [|exists e; by apply call_panic].
    unfold mapNewIndex.
    erewrite bind_Ok by reflexivity.
    erewrite bind_Ok by reflexivity.
    erewrite bind_Ok by reflexivity.
    erewrite bind_Ok; cycle 1.
    { unfold get_Value, deref, bind. cbn [userdata set_stack σ]. rewrite Hu. reflexivity. }
    rewrite Hv. cbn [ValueOf].
    erewrite bind_Ok; cycle 1.
    { unfold Type_Key. rewrite Ht. reflexivity. }
    destruct (lValueToReflect_fixed lKey bt kt σ Hfix) as [d Hd].
    erewrite bind_Ok by exact Hd.
    erewrite bind_Ok; cycle 1.
    { unfold Type_Elem. rewrite Ht. reflexivity. }
    destruct (lValueToReflect lValue et σ) as [val σ'|e] eqn:E.
    + erewrite bind_Ok by exact E.
      eexists. apply bind_Panic. unfold SetMapIndex.
      erewrite bind_Ok; cycle 1.
      { unfold as_map. rewrite Ht. reflexivity. }
      cbv beta iota. apply bind_Panic. apply Hassign.
    + exists e. by apply bind_Panic.
Qed.

Lemma map_key_not_assignable_witness :
  map_handle ages_state 0 (TNamed "Name" (TBasic string_t)) (TBasic int_t) (Some 0)
  ∧ fixed_type (LString "Tim") = Some string_t
  ∧ TNamed "Name" (TBasic string_t) ≠ TBasic string_t
  ∧ TypeKind (TNamed "Name" (TBasic string_t)) ≠ Interface
  ∧ call mapIndex [LUserData 0; LString "Tim"] ages_state
    = Panic (reflect_panic "value is not assignable to type")
  ∧ ∀ lValue, panics (call mapNewIndex [LUserData 0; LString "Tim"; lValue] ages_state).
Proof.
  assert (map_handle ages_state 0 (TNamed "Name" (TBasic string_t)) (TBasic int_t)
            (Some 0))
    as Hh by (eexists _, _; split; [vm_compute; reflexivity | by split]).
  split; [exact Hh|]. split; [reflexivity|]. split; [discriminate|].
  split; [discriminate|].
  apply (map_key_not_assignable ages_state 0 _ _ (Some 0) (LString "Tim") string_t Hh);
    [reflexivity | discriminate | discriminate].
Defined.

(** *** Writing through the handle of a nil map *)

(** X4.  A nil map can be read and measured but not written: through its
    handle, with a key and a value that convert, the index-write panics
    with the run-time error of Go, while the index-read of the key returns
    nothing and [mapLen] returns 0. *)
Theorem mapNewIndex_nil_map s ud kt et K V k e :
  map_handle s ud kt et None →
  host_key s K kt = Some k →
  host_elem s V et = Some (Some e) →
  call mapNewIndex [LUserData ud; K; V] s
  = Panic (runtime_panic "assignment to entry in nil map")
  ∧ call mapIndex [LUserData ud; K] s = Ok [] s
  ∧ call mapLen [LUserData ud] s = Ok [LNumber (float64_of_Z 0)] s.
Proof.
  intros Hh Hk He.
  split; [|split].
  - destruct Hh as (u & t & Hu & Hv & Ht).
    apply host_key_inv in Hk as (key & key' & Hkey & Hassign & Hhash & <-).
    apply host_elem_inv in He as (val & val' & Hval & Hne & Hvassign & <-).
    apply call_panic. unfold mapNewIndex.
    erewrite bind_Ok by reflexivity.
    erewrite bind_Ok by reflexivity.
    erewrite bind_Ok by reflexivity.
    erewrite bind_Ok; cycle 1.
    { unfold get_Value, deref, bind. cbn [userdata set_stack]. rewrite Hu. reflexivity. }
    rewrite Hv. cbn [ValueOf].
    erewrite bind_Ok; cycle 1.
    { unfold Type_Key. rewrite Ht. reflexivity. }
    erewrite bind_Ok by (by apply Hkey).
    erewrite bind_Ok; cycle 1.
    { unfold Type_Elem. rewrite Ht. reflexivity. }
    erewrite bind_Ok by (by apply Hval).
    apply bind_Panic. unfold SetMapIndex.
    erewrite bind_Ok; cycle 1.
    { unfold as_map. rewrite Ht. reflexivity. }
    cbv beta iota.
    erewrite bind_Ok by apply Hassign.
    destruct val; [done|..]; by erewrite bind_Ok by apply Hvassign.
  - by apply (mapIndex_lookup s ud kt et None K k [] [LUserData ud; K]) in Hh as H;
      [rewrite (call_spec _ _ _ _ _ H), set_stack_set_stack, set_stack_id|..].
  - by apply (mapLen_length s ud kt et None []).
Qed.

Lemma mapNewIndex_nil_map_witness :
  map_handle nil_map_state 0 (TBasic string_t) (TBasic int_t) None
  ∧ host_key nil_map_state (LString "x") (TBasic string_t) = Some (DString "x")
  ∧ host_elem nil_map_state (LNumber (float64_of_Z 1)) (TBasic int_t)
    = Some (Some (DInt 1))
  ∧ call mapNewIndex [LUserData 0; LString "x"; LNumber (float64_of_Z 1)] nil_map_state
    = Panic (runtime_panic "assignment to entry in nil map")
  ∧ call mapIndex [LUserData 0; LString "x"] nil_map_state = Ok [] nil_map_state
  ∧ call mapLen [LUserData 0] nil_map_state
    = Ok [LNumber (float64_of_Z 0)] nil_map_state.
Proof.
  assert (map_handle nil_map_state 0 (TBasic string_t) (TBasic int_t) None)
    as Hh by (eexists _, _; split; [vm_compute; reflexivity | by split]).
  split; [exact Hh|]. split; [vm_compute; reflexivity|].
  split; [vm_compute; reflexivity|].
  apply (mapNewIndex_nil_map nil_map_state 0 _ _ (LString "x")
           (LNumber (float64_of_Z 1)) (DString "x") (DInt 1) Hh);
    vm_compute; reflexivity.
Defined.

(** *** Deleting a key *)

(** X5.  The one value whose index-write deletes: a userdata that holds no
    Go value (as [NewType] returns for nil) converts to the zero
    [reflect.Value], with which [SetMapIndex] deletes the key.  The entry of
    the key is removed, so the map has one entry less, and nothing changes
    when the key is absent; the script value nil, in contrast, stores the
    zero value of the element type. *)
Theorem mapNewIndex_empty_handle s ud kt et a m K k h u :
  map_handle s ud kt et (Some a) →
  maps s !! a = Some m →
  host_key s K kt = Some k →
  userdata s !! h = Some u → Value u = INil →
  call mapNewIndex [LUserData ud; K; LUserData h] s
  = Ok [] match map_find kt k m 0 with
          | Some (pos, _) => set_maps <[a := delete pos m]> s
          | None => s
          end
  ∧ (∀ pos e, map_find kt k m 0 = Some (pos, e) →
              S (length (delete pos m)) = length m).
Proof.
  intros (u0 & t & Hu & Hv & Ht) Hm Hk Hh HINil. split.
  - apply host_key_inv in Hk as (key & key' & Hkey & Hassign & Hhash & <-).
    set (σ := set_stack (λ _, [LUserData ud; K; LUserData h]) s).
    assert (mapNewIndex σ
            = Ok 0 match map_find kt (Value_data key') m 0 with
                   | Some (pos, _) => set_maps <[a := delete pos m]> σ
                   | None => σ
                   end) as H.
    { unfold mapNewIndex.
      erewrite bind_Ok by reflexivity.
      erewrite bind_Ok by reflexivity.
      erewrite bind_Ok by reflexivity.
      erewrite bind_Ok; cycle 1.
      { unfold get_Value, deref, bind. cbn [userdata set_stack σ]. rewrite Hu. reflexivity. }
      rewrite Hv. cbn [ValueOf].
      erewrite bind_Ok; cycle 1.
      { unfold Type_Key. rewrite Ht. reflexivity. }
      erewrite bind_Ok by (by apply Hkey).
      erewrite bind_Ok; cycle 1.
      { unfold Type_Elem. rewrite Ht. reflexivity. }
      erewrite bind_Ok; cycle 1.
      { replace (default LNil (stack σ !! (3 - 1))) with (LUserData h) by reflexivity.
        cbn [lValueToReflect]. unfold get_Value, deref, bind.
        cbn [userdata set_stack σ]. rewrite Hh, HINil. reflexivity. }
      cbn [ValueOf].
      erewrite bind_Ok; [reflexivity|].
      unfold SetMapIndex.
      erewrite bind_Ok; cycle 1.
      { unfold as_map. rewrite Ht. reflexivity. }
      cbv beta iota.
      erewrite bind_Ok by apply Hassign.
      erewrite bind_Ok by apply Hhash.
      erewrite bind_Ok; cycle 1.
      { unfold deref. cbn [maps set_stack σ]. rewrite Hm. reflexivity. }
      by destruct (map_find kt (Value_data key') m 0) as [[pos e]|]. }
    rewrite (call_spec _ _ _ _ _ H).
    destruct (map_find kt (Value_data key') m 0) as [[pos e]|]; by destruct s.
  - intros pos e Hf. apply map_find_Some in Hf as (_ & k' & Hl & _).
    rewrite Nat.sub_0_r in Hl. apply lookup_lt_Some in Hl.
    rewrite length_delete by (by apply lookup_lt_is_Some_2). lia.
Qed.

Lemma mapNewIndex_empty_handle_witness :
  map_handle places_nil_type_state 0 (TBasic string_t) (TBasic string_t) (Some 0)
  ∧ maps places_nil_type_state !! 0 = Some places_entries
  ∧ host_key places_nil_type_state (LString "EU") (TBasic string_t)
    = Some (DString "EU")
  ∧ userdata places_nil_type_state !! 1 = Some (mkUserData INil (LTable 7))
  ∧ Value (mkUserData INil (LTable 7)) = INil
  ∧ call mapNewIndex [LUserData 0; LString "EU"; LUserData 1] places_nil_type_state
    = Ok [] match map_find (TBasic string_t) (DString "EU") places_entries 0 with
            | Some (pos, _) =>
                set_maps <[0 := delete pos places_entries]> places_nil_type_state
            | None => places_nil_type_state
            end
  ∧ (∀ pos e, map_find (TBasic string_t) (DString "EU") places_entries 0
              = Some (pos, e) →
              S (length (delete pos places_entries)) = length places_entries).
Proof.
  assert (map_handle places_nil_type_state 0 (TBasic string_t) (TBasic string_t)
            (Some 0))
    as Hh by (eexists _, _; split; [vm_compute; reflexivity | by split]).
  split; [exact Hh|]. split; [vm_compute; reflexivity|].
  split; [vm_compute; reflexivity|]. split; [vm_compute; reflexivity|].
  split; [reflexivity|].
  apply (mapNewIndex_empty_handle places_nil_type_state 0 _ _ 0 places_entries
           (LString "EU") (DString "EU") 1 (mkUserData INil (LTable 7)) Hh);
    vm_compute; reflexivity.
Defined.

(** *** Equality of handles whose values cannot be compared *)

Lemma not_comparable_kind t :
  TypeKind t = Map ∨ TypeKind t = Slice ∨ TypeKind t = Func → comparable t = false.
Proof.
  induction t as [b| | | | | | | | |]; cbn; try (by intros [?|[?|?]]); auto.
  by destruct b; intros [?|[?|?]].
Qed.

(** X6.  [baseEqual] is Go's [==] on the two values held, as interfaces:
    for two handles whose values have the same type of kind [Map], [Slice]
    or [Func] (the operator tables of maps and slices name [baseEqual] as
    their equality operator) it panics with the run-time error of comparing
    an uncomparable type; for two handles whose values have different types
    it returns false. *)
Theorem baseEqual_by_type s h1 h2 u1 u2 t1 d1 t2 d2 :
  userdata s !! h1 = Some u1 → userdata s !! h2 = Some u2 →
  Value u1 = IDyn t1 d1 → Value u2 = IDyn t2 d2 →
  (t1 = t2 →
   TypeKind t1 = Map ∨ TypeKind t1 = Slice ∨ TypeKind t1 = Func →
   call baseEqual [LUserData h1; LUserData h2] s
   = Panic (runtime_panic "comparing uncomparable type"))
  ∧ (GoType_eqb t1 t2 = false →
     call baseEqual [LUserData h1; LUserData h2] s = Ok [LFalse] s).
Proof.
  intros H1 H2 Hv1 Hv2. split.
  - intros <- Hk. apply call_panic. unfold baseEqual.
    erewrite bind_Ok by reflexivity.
    erewrite bind_Ok by reflexivity.
    erewrite bind_Ok; cycle 1.
    { unfold get_Value, deref, bind. cbn [userdata set_stack]. rewrite H1. reflexivity. }
    erewrite bind_Ok; cycle 1.
    { unfold get_Value, deref, bind. cbn [userdata set_stack]. rewrite H2. reflexivity. }
    rewrite Hv1, Hv2. unfold iface_eq. cbn [go_eq].
    by rewrite GoType_eqb_refl, not_comparable_kind.
  - intros Hne. eapply baseEqual_spec; [exact H1|exact H2|].
    rewrite Hv1, Hv2. unfold iface_eq. cbn [go_eq]. by rewrite Hne.
Qed.

Lemma baseEqual_by_type_witness :
  userdata places_twice_state !! 0 = Some (mkUserData places (LTable 3))
  ∧ userdata places_twice_state !! 1 = Some (mkUserData places (LTable 3))
  ∧ (TMap (TBasic string_t) (TBasic string_t) = TMap (TBasic string_t) (TBasic string_t) →
     TypeKind (TMap (TBasic string_t) (TBasic string_t)) = Map
     ∨ TypeKind (TMap (TBasic string_t) (TBasic string_t)) = Slice
     ∨ TypeKind (TMap (TBasic string_t) (TBasic string_t)) = Func →
     call baseEqual [LUserData 0; LUserData 1] places_twice_state
     = Panic (runtime_panic "comparing uncomparable type"))
  ∧ (GoType_eqb (TMap (TBasic string_t) (TBasic string_t))
       (TMap (TBasic string_t) (TBasic string_t)) = false →
     call baseEqual [LUserData 0; LUserData 1] places_twice_state
     = Ok [LFalse] places_twice_state).
Proof.
  assert (userdata places_twice_state !! 0 = Some (mkUserData places (LTable 3)))
    as H0 by (vm_compute; reflexivity).
  assert (userdata places_twice_state !! 1 = Some (mkUserData places (LTable 3)))
    as H1 by (vm_compute; reflexivity).
  split; [exact H0|]. split; [exact H1|].
  exact (baseEqual_by_type places_twice_state 0 1 _ _ _ _ _ _ H0 H1 eq_refl eq_refl).
Defined.

(** *** The reverse conversion of a number *)

Lemma wrap_signed_in_range k z :
  is_int_kind k = true → in_range k (wrap_signed (int_bits k) z) = true.
Proof.
  intros Hk. unfold in_range, wrap_signed. rewrite Hk.
  assert (0 < int_bits k)%Z as Hw by (by destruct k).
  pose proof (Z.mod_pos_bound (z + 2 ^ (int_bits k - 1)) (2 ^ int_bits k)
                ltac:(apply Z.pow_pos_nonneg; lia)) as Hm.
  assert (2 ^ int_bits k = 2 * 2 ^ (int_bits k - 1))%Z as Hp.
  { rewrite <- Z.pow_succ_r by lia. f_equal. lia. }
  apply andb_true_intro. split; [apply Z.leb_le | apply Z.ltb_lt]; lia.
Qed.

Lemma wrap_unsigned_in_range k z :
  is_uint_kind k = true → in_range k (wrap_unsigned (int_bits k) z) = true.
Proof.
  intros Hk. unfold in_range, wrap_unsigned.
  assert (is_int_kind k = false) as -> by (by destruct k).
  rewrite Hk.
  assert (0 < int_bits k)%Z as Hw by (by destruct k).
  pose proof (Z.mod_pos_bound z (2 ^ int_bits k)
                ltac:(apply Z.pow_pos_nonneg; lia)) as Hm.
  apply andb_true_intro. split; [apply Z.leb_le | apply Z.ltb_lt]; lia.
Qed.

(** X7.  A number converts exactly when the hint is of an integer kind, of
    a float kind or an interface, and then to a value of the hint type
    itself (a declared type included) without a change of state; for an
    integer kind the result lies within the range of the kind, whatever the
    number (fractional, out of range, infinite or NaN).  For any other
    hint, such as [string] or [bool], the conversion panics inside
    package reflect. *)
Theorem lValueToReflect_number n hint s :
  (numeric_hint (TypeKind hint) = true →
   ∃ d, lValueToReflect (LNumber n) hint s = Ok (RVal hint d) s
        ∧ (is_int_kind (TypeKind hint) || is_uint_kind (TypeKind hint) = true →
           ∃ z, d = DInt z ∧ in_range (TypeKind hint) z = true))
  ∧ (numeric_hint (TypeKind hint) = false →
     lValueToReflect (LNumber n) hint s
     = Panic (reflect_panic
                "reflect.Value.Convert: value of type lua.LNumber cannot be converted")).
Proof.
  cbn [lValueToReflect]. unfold Convert_LNumber, numeric_hint, ret, panic.
  destruct (is_int_kind (TypeKind hint)) eqn:Hi.
  { split; [|done]. intros _. eexists. split; [done|]. intros _.
    eexists. split; [done|]. by apply wrap_signed_in_range. }
  destruct (is_uint_kind (TypeKind hint)) eqn:Hu.
  { split; [|done]. intros _. eexists. split; [done|]. intros _.
    eexists. split; [done|]. by apply wrap_unsigned_in_range. }
  destruct (TypeKind hint); try discriminate; cbn;
    (split; [|done]); first [done | intros _; eexists; by split].
Qed.

(** *** The hint matters for numbers and nil only *)

(** X8.  The reverse converter never changes the state, and uses the hint
    for a number and for nil only: any other script value converts to the
    same host value under every hint. *)
Theorem lValueToReflect_hint v hint s r s' :
  lValueToReflect v hint s = Ok r s' →
  s' = s
  ∧ ((∀ n, v ≠ LNumber n) → v ≠ LNil →
     ∀ hint', lValueToReflect v hint' s = Ok r s).
Proof.
  intros H. pose proof (lValueToReflect_pure _ _ _ _ _ H) as [-> _].
  split; [done|]. intros Hn Hnil hint'.
  destruct v; try done. by destruct (Hn n).
Qed.

Lemma lValueToReflect_hint_witness :
  lValueToReflect (LBool true) (TBasic int_t) initial_state
  = Ok (RVal (TBasic bool_t) (DBool true)) initial_state
  ∧ initial_state = initial_state
  ∧ ((∀ n, LBool true ≠ LNumber n) → LBool true ≠ LNil →
     ∀ hint', lValueToReflect (LBool true) hint' initial_state
              = Ok (RVal (TBasic bool_t) (DBool true)) initial_state).
Proof.
  split; [reflexivity|].
  apply (lValueToReflect_hint (LBool true) (TBasic int_t) initial_state).
  reflexivity.
Defined.

(** *** Round trips of floats and of handles *)

(** X9.  Forward conversion and then reverse conversion with the original
    type as the hint give back every value of a type of kind [Float64],
    the infinities and NaN included, and every value of a type of kind
    [Float32] that [float32] holds exactly. *)
Theorem roundtrip_floats s t f :
  ready s →
  TypeKind t = Float64 ∨ (TypeKind t = Float32 ∧ float32_round f = f) →
  roundtrip t (DFloat f) s.
Proof.
  intros Hr Hk. destruct (ensureMetatable_ready s Hr) as (p & s1 & He & _).
  exists s1. unfold New. rewrite bind_assoc. erewrite bind_Ok by exact He.
  cbn [ValueOf ValueKind].
  destruct Hk as [Hk|[Hk Hf]]; rewrite Hk; unfold bind, ret, Value_Float;
    cbv beta iota; unfold lValueToReflect, Convert_LNumber, ret; rewrite Hk;
    cbn [is_int_kind is_uint_kind]; by rewrite ?Hf.
Qed.

Lemma roundtrip_floats_witness :
  ready initial_state
  ∧ (TypeKind (TBasic float32_t) = Float64
     ∨ (TypeKind (TBasic float32_t) = Float32
        ∧ float32_round one_and_a_half = one_and_a_half))
  ∧ roundtrip (TBasic float32_t) (DFloat one_and_a_half) initial_state.
Proof.
  assert (TypeKind (TBasic float32_t) = Float64
          ∨ (TypeKind (TBasic float32_t) = Float32
             ∧ float32_round one_and_a_half = one_and_a_half)) as H
    by (right; split; vm_compute; reflexivity).
  split; [apply ready_initial_state|]. split; [exact H|].
  apply (roundtrip_floats initial_state _ _ ready_initial_state H).
Defined.

(** X10.  A host value of kind [Chan], [Map], [Ptr], [Slice], [Struct] or
    [UnsafePointer] converts to a handle that did not exist; the reverse
    conversion of the handle gives the value back, with its type and its
    data, under every hint, in that state and in every state that keeps the
    handles. *)
Theorem roundtrip_handles s t d name :
  ready s →
  TypeKind t ≠ Interface →
  handle_table (TypeKind t) = Some name →
  ∃ h s',
    New (IDyn t d) s = Ok (LUserData h) s'
    ∧ userdata s !! h = None
    ∧ roundtrip t d s
    ∧ ∀ hint σ, userdata s' `prefix_of` userdata σ →
                lValueToReflect (LUserData h) hint σ = Ok (RVal t d) σ.
Proof.
  intros Hr Hk Hn.
  destruct (ensureMetatable_ready s Hr) as (p & s1 & He & Hi & Hsame & _).
  pose proof (New_handle s p s1 t d name He Hi Hk Hn) as Hnew.
  destruct Hsame as (_ & Hus & _).
  set (s' := set_userdata
               (λ h, h ++ [mkUserData (IDyn t d) (attached s1 p name)]) s1) in *.
  assert (∀ hint σ, userdata s' `prefix_of` userdata σ →
            lValueToReflect (LUserData (length (userdata s1))) hint σ
            = Ok (RVal t d) σ) as Hback.
  { intros hint σ Hσ. cbn [lValueToReflect]. unfold get_Value, deref, bind.
    rewrite (prefix_lookup_Some (userdata s') _ (length (userdata s1))
               (mkUserData (IDyn t d) (attached s1 p name))); [done| |exact Hσ].
    destruct s1; cbn. apply lookup_app_length. }
  exists (length (userdata s1)), s'.
  split; [exact Hnew|].
  split; [rewrite <- Hus; apply lookup_ge_None_2; lia|].
  split; [|exact Hback].
  exists s'. erewrite bind_Ok by exact Hnew. by apply Hback.
Qed.

Lemma roundtrip_handles_witness :
  ready initial_state
  ∧ TypeKind (TChan (TBasic string_t)) ≠ Interface
  ∧ handle_table (TypeKind (TChan (TBasic string_t))) = Some (Some "chan")
  ∧ ∃ h s',
      New ch initial_state = Ok (LUserData h) s'
      ∧ userdata initial_state !! h = None
      ∧ roundtrip (TChan (TBasic string_t)) (DRef (Some 7)) initial_state
      ∧ ∀ hint σ, userdata s' `prefix_of` userdata σ →
                  lValueToReflect (LUserData h) hint σ
                  = Ok (RVal (TChan (TBasic string_t)) (DRef (Some 7))) σ.
Proof.
  split; [apply ready_initial_state|]. split; [discriminate|].
  split; [reflexivity|].
  apply (roundtrip_handles initial_state (TChan (TBasic string_t)) (DRef (Some 7))
           (Some "chan") ready_initial_state);
    [discriminate | reflexivity].
Defined.

(** *** Type handles *)

Lemma NewType_spec x ty s p s1 :
  ensureMetatable s = Ok p s1 →
  is_Some (tables s1 !! p) →
  TypeOf x s1 = Ok ty s1 →
  NewType x s
  = Ok (LUserData (length (userdata s1)))
       (set_userdata
          (λ h, h ++ [mkUserData ty (attached s1 p (Some "type"))]) s1).
Proof.
  intros He [tb Htb] Hty. unfold NewType.
  erewrite bind_Ok by exact He.
  erewrite bind_Ok by exact Hty.
  unfold NewUserData, set_Value, set_Metatable, RawGetH, attached, kind_table,
    bind, deref, modify, ret, set_userdata.
  destruct s1 as [R T U Fs C Mp St]. cbn [userdata tables Value Metatable] in *.
  repeat (rewrite ?lookup_app_length, ?insert_app_length, ?Htb;
          cbn [userdata tables Value Metatable mbind option_bind]).
  done.
Qed.

(** X11.  [NewType] on a host value allocates a handle that did not exist,
    holding the descriptor of the dynamic type of the value, with the
    operator table of the kind ["type"], whose [__call] is [typeCall]; the
    data of the value play no part; the reverse conversion of the handle
    gives the descriptor.  On nil it allocates a handle that holds no
    value. *)
Theorem NewType_descriptor s t d :
  ready s →
  ∃ h s' p tb f,
    NewType (IDyn t d) s = Ok (LUserData h) s'
    ∧ userdata s !! h = None
    ∧ userdata s' !! h
      = Some (mkUserData (IDyn rtype_ptr (DType t)) (LTable (p + 6)))
    ∧ initialized s' p
    ∧ tables s' !! (p + 6) = Some tb
    ∧ tb !! "__call" = Some (LFunction f)
    ∧ functions s' !! f = Some fn_typeCall
    ∧ (∀ d', NewType (IDyn t d') s = Ok (LUserData h) s')
    ∧ (∀ hint, lValueToReflect (LUserData h) hint s'
               = Ok (RVal rtype_ptr (DType t)) s')
    ∧ ∃ s0, NewType INil s = Ok (LUserData h) s0
            ∧ userdata s0 !! h = Some (mkUserData INil (LTable (p + 6))).
Proof.
  intros Hr.
  destruct (ensureMetatable_ready s Hr) as (p & s1 & He & Hi & Hsame & _).
  destruct Hsame as (_ & Hus & _).
  pose proof (initialized_table _ _ Hi) as Htb.
  destruct (initialized_kind s1 p 5 _ _ Hi eq_refl) as (Hkt & tb & Htb5 & _ & Hm).
  apply Forall_cons in Hm as [(f & Hf1 & Hf2) _]. cbn [fst snd] in Hf1, Hf2.
  assert (attached s1 p (Some "type") = LTable (p + 6)) as Hatt
    by (unfold attached; by rewrite Hkt).
  assert (∀ x ty, TypeOf x s1 = Ok ty s1 →
            NewType x s
            = Ok (LUserData (length (userdata s1)))
                 (set_userdata (λ h, h ++ [mkUserData ty (LTable (p + 6))]) s1))
    as Hnew.
  { intros x ty Hty. rewrite (NewType_spec x ty s p s1 He Htb Hty).
    by rewrite Hatt. }
  exists (length (userdata s1)),
    (set_userdata
       (λ h, h ++ [mkUserData (IDyn rtype_ptr (DType t)) (LTable (p + 6))]) s1),
    p, tb, f.
  split; [by apply Hnew|].
  split; [rewrite <- Hus; apply lookup_ge_None_2; lia|].
  split; [destruct s1; cbn; apply lookup_app_length|].
  split; [by apply initialized_set_userdata|].
  split; [by destruct s1|]. split; [done|]. split; [by destruct s1|].
  split; [intros d'; by apply Hnew|].
  split.
  { intros hint. cbn [lValueToReflect]. unfold get_Value, deref, bind.
    destruct s1 as [R T U Fs C Mp St]; cbn [userdata set_userdata].
    by rewrite lookup_app_length. }
  eexists. split; [by apply Hnew|].
  destruct s1; cbn. apply lookup_app_length.
Qed.

Lemma NewType_descriptor_witness :
  ready initial_state
  ∧ ∃ h s' p tb f,
      NewType places initial_state = Ok (LUserData h) s'
      ∧ userdata initial_state !! h = None
      ∧ userdata s' !! h
        = Some (mkUserData
                  (IDyn rtype_ptr (DType (TMap (TBasic string_t) (TBasic string_t))))
                  (LTable (p + 6)))
      ∧ initialized s' p
      ∧ tables s' !! (p + 6) = Some tb
      ∧ tb !! "__call" = Some (LFunction f)
      ∧ functions s' !! f = Some fn_typeCall
      ∧ (∀ d', NewType (IDyn (TMap (TBasic string_t) (TBasic string_t)) d')
                 initial_state = Ok (LUserData h) s')
      ∧ (∀ hint, lValueToReflect (LUserData h) hint s'
                 = Ok (RVal rtype_ptr
                         (DType (TMap (TBasic string_t) (TBasic string_t)))) s')
      ∧ ∃ s0, NewType INil initial_state = Ok (LUserData h) s0
              ∧ userdata s0 !! h = Some (mkUserData INil (LTable (p + 6))).
Proof.
  split; [apply ready_initial_state|].
  exact (NewType_descriptor initial_state (TMap (TBasic string_t) (TBasic string_t))
           (DRef (Some 0)) ready_initial_state).
Defined.

(** *** What the first call of ensureMetatable leaves alone *)

(** X12.  The first call of [ensureMetatable] allocates seven tables and
    twenty-three functions after the objects that exist, writes the one
    entry of the registry under its key, and leaves everything else as it
    is: the other tables, the other entries of the registry, the functions,
    the handles, the closures, the Go heap and the frame. *)
Theorem ensureMetatable_frame s :
  fresh s →
  ∃ s1,
    ensureMetatable s = Ok (length (tables s)) s1
    ∧ length (tables s1) = length (tables s) + 7
    ∧ length (functions s1) = length (functions s) + 23
    ∧ functions s `prefix_of` functions s1
    ∧ (∀ a, a ≠ Registry s → a < length (tables s) →
            tables s1 !! a = tables s !! a)
    ∧ (∀ key, key ≠ metatableKey →
              kind_table s1 (Registry s1) key = kind_table s (Registry s) key)
    ∧ same_objects s s1.
Proof.
  intros (reg & Hreg & Hkey). exists (built s reg).
  pose proof (lookup_lt_Some _ _ _ Hreg) as Hlt.
  split; [by apply ensureMetatable_fresh|].
  unfold built. cbn [tables functions Registry].
  split; [rewrite length_insert, length_app; reflexivity|].
  split; [rewrite length_app; reflexivity|].
  split; [by apply prefix_app_r|].
  split.
  { intros a Ha Hla. rewrite list_lookup_insert_ne by done.
    by rewrite lookup_app_l. }
  split; [|done].
  intros key Hk. unfold kind_table. cbn [tables Registry].
  rewrite list_lookup_insert_eq by (rewrite length_app; lia).
  rewrite Hreg. cbn [mbind option_bind]. by rewrite lookup_insert_ne.
Qed.

Lemma ensureMetatable_frame_witness :
  fresh initial_state
  ∧ ∃ s1,
      ensureMetatable initial_state = Ok (length (tables initial_state)) s1
      ∧ length (tables s1) = length (tables initial_state) + 7
      ∧ length (functions s1) = length (functions initial_state) + 23
      ∧ functions initial_state `prefix_of` functions s1
      ∧ (∀ a, a ≠ Registry initial_state → a < length (tables initial_state) →
              tables s1 !! a = tables initial_state !! a)
      ∧ (∀ key, key ≠ metatableKey →
                kind_table s1 (Registry s1) key
                = kind_table initial_state (Registry initial_state) key)
      ∧ same_objects initial_state s1.
Proof.
  assert (fresh initial_state) as Hf by (exists ∅; by split).
  split; [exact Hf|]. exact (ensureMetatable_frame initial_state Hf).
Defined.

(** *** A registry entry that is not a table *)

(** X13.  When the registry holds, under the key of the package, a value
    that is neither nil nor a table, the type assertion of [ensureMetatable]
    fails: [ensureMetatable], [NewType] and every conversion by [New]
    of a Go value panic, while [New] still returns nil and script values as
    they are. *)
Theorem ensureMetatable_not_a_table s reg v :
  tables s !! Registry s = Some reg →
  reg !! metatableKey = Some v →
  v ≠ LNil → (∀ p, v ≠ LTable p) →
  ensureMetatable s
  = Panic (runtime_panic "interface conversion: lua.LValue is not *lua.LTable")
  ∧ (∀ t d, New (IDyn t d) s
            = Panic (runtime_panic "interface conversion: lua.LValue is not *lua.LTable"))
  ∧ (∀ x, NewType x s
          = Panic (runtime_panic "interface conversion: lua.LValue is not *lua.LTable"))
  ∧ New INil s = Ok LNil s
  ∧ (∀ lv, New (ILua lv) s = Ok lv s).
Proof.
  intros Hreg Hkey Hnil Htab.
  assert (ensureMetatable s
          = Panic (runtime_panic "interface conversion: lua.LValue is not *lua.LTable"))
    as He.
  { unfold ensureMetatable, G_Registry, RawGetH, deref, bind, ret, panic.
    rewrite Hreg, Hkey. cbn [default from_option].
    destruct v; try done. by destruct (Htab p). }
  split; [exact He|].
  split; [intros t d; by apply bind_Panic|].
  split; [intros x; by apply bind_Panic|].
  done.
Qed.

Lemma ensureMetatable_not_a_table_witness :
  tables taken_state !! Registry taken_state
  = Some {[ metatableKey := LString "taken" ]}
  ∧ ({[ metatableKey := LString "taken" ]} : gmap string LValue) !! metatableKey
    = Some (LString "taken")
  ∧ LString "taken" ≠ LNil
  ∧ (∀ p, LString "taken" ≠ LTable p)
  ∧ ensureMetatable taken_state
    = Panic (runtime_panic "interface conversion: lua.LValue is not *lua.LTable")
  ∧ (∀ t d, New (IDyn t d) taken_state
            = Panic (runtime_panic "interface conversion: lua.LValue is not *lua.LTable"))
  ∧ (∀ x, NewType x taken_state
          = Panic (runtime_panic "interface conversion: lua.LValue is not *lua.LTable"))
  ∧ New INil taken_state = Ok LNil taken_state
  ∧ (∀ lv, New (ILua lv) taken_state = Ok lv taken_state).
Proof.
  split; [reflexivity|]. split; [vm_compute; reflexivity|].
  split; [discriminate|]. split; [discriminate|].
  apply (ensureMetatable_not_a_table taken_state
           {[ metatableKey := LString "taken" ]} (LString "taken"));
    [reflexivity | vm_compute; reflexivity | discriminate | discriminate].
Defined.

(** *** Which operations write the Go heap *)

Lemma mk_ret {A} (a : A) : keeps maps_kept (ret a).
Proof. by intros s a' s' [= <- <-]. Qed.

Lemma mk_panic {A} e : keeps maps_kept (@panic A e).
Proof. by intros s a s' ?. Qed.

Lemma mk_bind {A B} (m : M A) (k : A → M B) :
  keeps maps_kept m → (∀ a, keeps maps_kept (k a)) → keeps maps_kept (bind m k).
Proof.
  intros Hm Hk s b s' H. apply bind_inv in H as (a & s1 & H1 & H2).
  unfold maps_kept. rewrite (Hk _ _ _ _ H2). by apply (Hm _ _ _ H1).
Qed.

Lemma mk_for_range {A} (l : list A) body :
  (∀ x, keeps maps_kept (body x)) → keeps maps_kept (for_range l body).
Proof.
  intros Hb. induction l as [|x l IH]; cbn [for_range]; [apply mk_ret|].
  apply mk_bind; [apply Hb | intros _; apply IH].
Qed.

Lemma mk_deref {A} (heap : State → list A) p : keeps maps_kept (deref heap p).
Proof.
  intros s a s'. unfold deref. destruct (heap s !! p); [by intros [= <- <-]|done].
Qed.

Lemma mk_modify_tables g : keeps maps_kept (modify (set_tables g)).
Proof. by intros [] a s' [= <- <-]. Qed.
Lemma mk_modify_userdata g : keeps maps_kept (modify (set_userdata g)).
Proof. by intros [] a s' [= <- <-]. Qed.
Lemma mk_modify_closures g : keeps maps_kept (modify (set_closures g)).
Proof. by intros [] a s' [= <- <-]. Qed.
Lemma mk_modify_stack g : keeps maps_kept (modify (set_stack g)).
Proof. by intros [] a s' [= <- <-]. Qed.

Lemma mk_get_state : keeps maps_kept get_state.
Proof. by intros s a s' [= <- <-]. Qed.
Lemma mk_Get n : keeps maps_kept (Get n).
Proof. by intros s a s' [= <- <-]. Qed.
Lemma mk_G_Registry : keeps maps_kept G_Registry.
Proof. by intros s a s' [= <- <-]. Qed.
Lemma mk_NewTable : keeps maps_kept NewTable.
Proof. by intros [] a s' [= <- <-]. Qed.
Lemma mk_NewUserData : keeps maps_kept NewUserData.
Proof. by intros [] a s' [= <- <-]. Qed.
Lemma mk_NewFunction g : keeps maps_kept (NewFunction g).
Proof. by intros [] a s' [= <- <-]. Qed.
Lemma mk_alloc_closure v :
  keeps maps_kept (λ s, Ok (length (closures s)) (set_closures (λ h, h ++ [v]) s)).
Proof. by intros [] a s' [= <- <-]. Qed.

Create HintDb mk discriminated.
#[local] Hint Resolve mk_ret mk_panic mk_deref mk_modify_tables
  mk_modify_userdata mk_modify_closures mk_modify_stack mk_get_state mk_Get
  mk_G_Registry mk_NewTable mk_NewUserData mk_NewFunction mk_alloc_closure : mk.

Ltac mk_step :=
  match goal with
  | |- keeps maps_kept (bind _ _) => apply mk_bind; [|intros ?]
  | |- keeps maps_kept (for_range _ _) => apply mk_for_range; intros ?
  | |- keeps maps_kept (match ?x with _ => _ end) => destruct x
  | |- keeps maps_kept (if ?x then _ else _) => destruct x
  | |- keeps maps_kept (let '(_, _) := ?x in _) => destruct x
  | |- keeps maps_kept (let _ := _ in _) => cbv zeta
  | |- keeps maps_kept _ => solve [auto with mk]
  end.
Ltac mk := repeat mk_step.

Lemma mk_RawGetH tb key : keeps maps_kept (RawGetH tb key).
Proof. unfold RawGetH. mk. Qed.
Lemma mk_RawSetH tb key v : keeps maps_kept (RawSetH tb key v).
Proof. unfold RawSetH. mk. Qed.
Lemma mk_set_Value ud v : keeps maps_kept (set_Value ud v).
Proof. unfold set_Value. mk. Qed.
Lemma mk_set_Metatable ud v : keeps maps_kept (set_Metatable ud v).
Proof. unfold set_Metatable. mk. Qed.
Lemma mk_get_Value ud : keeps maps_kept (get_Value ud).
Proof. unfold get_Value. mk. Qed.
Lemma mk_CheckUserData n : keeps maps_kept (CheckUserData n).
Proof. unfold CheckUserData. mk. Qed.
Lemma mk_Push v : keeps maps_kept (Push v).
Proof. unfold Push. mk. Qed.
Lemma mk_Value_Interface v : keeps maps_kept (Value_Interface v).
Proof. unfold Value_Interface. mk. Qed.
Lemma mk_Value_Type v : keeps maps_kept (Value_Type v).
Proof. unfold Value_Type. mk. Qed.
Lemma mk_Value_Bool v : keeps maps_kept (Value_Bool v).
Proof. unfold Value_Bool. mk. Qed.
Lemma mk_Value_Int v : keeps maps_kept (Value_Int v).
Proof. unfold Value_Int. mk. Qed.
Lemma mk_Value_Uint v : keeps maps_kept (Value_Uint v).
Proof. unfold Value_Uint. mk. Qed.
Lemma mk_Value_Float v : keeps maps_kept (Value_Float v).
Proof. unfold Value_Float. mk. Qed.
Lemma mk_Value_String v : keeps maps_kept (Value_String v).
Proof. unfold Value_String. mk. Qed.
Lemma mk_TypeOf x : keeps maps_kept (TypeOf x).
Proof. unfold TypeOf. mk. Qed.
Lemma mk_assignTo v t : keeps maps_kept (assignTo v t).
Proof. unfold assignTo. mk. Qed.
Lemma mk_check_hashable k : keeps maps_kept (check_hashable k).
Proof. unfold check_hashable. mk. Qed.
Lemma mk_as_map w v : keeps maps_kept (as_map w v).
Proof. unfold as_map. mk. Qed.
Lemma mk_Convert_LNumber n t : keeps maps_kept (Convert_LNumber n t).
Proof. unfold Convert_LNumber. mk. Qed.
Lemma mk_Type_Key v : keeps maps_kept (Type_Key v).
Proof. unfold Type_Key. mk. Qed.
Lemma mk_Type_Elem v : keeps maps_kept (Type_Elem v).
Proof. unfold Type_Elem. mk. Qed.
#[local] Hint Resolve mk_RawGetH mk_RawSetH mk_set_Value mk_set_Metatable
  mk_get_Value mk_CheckUserData mk_Push mk_Value_Interface mk_Value_Type
  mk_Value_Bool mk_Value_Int mk_Value_Uint mk_Value_Float mk_Value_String
  mk_TypeOf mk_assignTo mk_check_hashable mk_as_map mk_Convert_LNumber
  mk_Type_Key mk_Type_Elem : mk.

Lemma mk_lValueToReflect v t : keeps maps_kept (lValueToReflect v t).
Proof. unfold lValueToReflect. mk. Qed.
Lemma mk_MapIndex v k : keeps maps_kept (MapIndex v k).
Proof. unfold MapIndex. mk. Qed.
Lemma mk_MapKeys v : keeps maps_kept (MapKeys v).
Proof. unfold MapKeys. mk. Qed.
Lemma mk_Len v : keeps maps_kept (Len v).
Proof. unfold Len. mk. Qed.
Lemma mk_ensureMetatable : keeps maps_kept ensureMetatable.
Proof. unfold ensureMetatable. mk. Qed.
Lemma mk_funcWrapper fn : keeps maps_kept (funcWrapper fn).
Proof. unfold funcWrapper. mk. Qed.
#[local] Hint Resolve mk_lValueToReflect mk_MapIndex mk_MapKeys mk_Len
  mk_ensureMetatable mk_funcWrapper : mk.

Lemma mk_new_handle t v n : keeps maps_kept (new_handle t v n).
Proof. unfold new_handle. mk. Qed.
#[local] Hint Resolve mk_new_handle : mk.

Lemma mk_New x : keeps maps_kept (New x).
Proof. unfold New. mk. Qed.
Lemma mk_NewType x : keeps maps_kept (NewType x).
Proof. unfold NewType. mk. Qed.
#[local] Hint Resolve mk_New mk_NewType : mk.

Lemma mk_call body args : keeps maps_kept body → keeps maps_kept (call body args).
Proof. intros Hb. unfold call. mk. Qed.

(** [SetMapIndex] on the map at [a] writes that map only. *)
Lemma SetMapIndex_writes t a key val s s' :
  SetMapIndex (RVal t (DRef (Some a))) key val s = Ok tt s' →
  ∀ a', a' ≠ a → maps s' !! a' = maps s !! a'.
Proof.
  intros H a' Ha. unfold SetMapIndex in H.
  apply bind_inv in H as ([[kt et] p] & s1 & Hmap & H).
  assert (s1 = s ∧ p = Some a) as [-> ->].
  { unfold as_map in Hmap. destruct (underlying t); try done.
    by injection Hmap as <- <- <- <-. }
  apply bind_inv in H as (key' & s1 & Hk & H).
  apply assignTo_pure in Hk as [-> _].
  assert (∀ (m : M unit) σ,
            (check_hashable key' ;;; m) s = Ok tt σ → m s = Ok tt σ) as Hhash.
  { intros m σ Hm. apply bind_inv in Hm as ([] & s1 & Hc & Hm).
    by apply check_hashable_pure in Hc as [-> _]. }
  assert (∀ g σ, (m <- deref maps a ;; g m) s = Ok tt σ →
            (∀ m, g m = ret tt ∨ ∃ m', g m = modify (set_maps <[a := m']>)) →
            maps σ !! a' = maps s !! a') as Hwrite.
  { intros g σ Hm Hg. apply bind_inv in Hm as (m & s1 & Hd & Hm).
    assert (s1 = s) as ->.
    { unfold deref in Hd. destruct (maps s !! a); [by injection Hd|done]. }
    destruct (Hg m) as [E|[m' E]]; rewrite E in Hm.
    - by injection Hm as <-.
    - injection Hm as <-. destruct s; cbn. by apply list_lookup_insert_ne. }
  destruct val as [|lv|tv dv].
  - apply Hhash in H. eapply Hwrite; [exact H|].
    intros m. cbv beta.
    destruct (map_find kt (Value_data key') m 0) as [[pos e]|];
      [right; by eexists | first [by left | right; by eexists]].
  - apply bind_inv in H as (val' & s1 & Hv & H).
    apply assignTo_pure in Hv as [-> _].
    apply Hhash in H. eapply Hwrite; [exact H|].
    intros m. cbv beta.
    destruct (map_find kt (Value_data key') m 0) as [[pos e]|];
      [right; by eexists | first [by left | right; by eexists]].
  - apply bind_inv in H as (val' & s1 & Hv & H).
    apply assignTo_pure in Hv as [-> _].
    apply Hhash in H. eapply Hwrite; [exact H|].
    intros m. cbv beta.
    destruct (map_find kt (Value_data key') m 0) as [[pos e]|];
      [right; by eexists | first [by left | right; by eexists]].
Qed.

(** X14.  Of the functions whose code is in these files, only the
    index-write [mapNewIndex] writes a Go map: [New], [NewType],
    [ensureMetatable], and a call of [mapLen], [mapIndex], [mapCall], the
    closure that [mapCall] returns, [baseEqual] or [baseToString] leave
    every map as it is; and the index-write through the handle of a map
    leaves every other map as it is.  These seven are the handlers that
    [handler] knows; the handlers of the other proxies are in other files,
    and nothing is said of them. *)
Theorem maps_written_by_index_write Sprintf s :
  (∀ x v s', New x s = Ok v s' → maps s' = maps s)
  ∧ (∀ x v s', NewType x s = Ok v s' → maps s' = maps s)
  ∧ (∀ p s', ensureMetatable s = Ok p s' → maps s' = maps s)
  ∧ (∀ g body args rs s',
       handler Sprintf g = Some body → g ≠ fn_mapNewIndex →
       call body args s = Ok rs s' → maps s' = maps s)
  ∧ (∀ ud rest kt et a rs s',
       call mapNewIndex (LUserData ud :: rest) s = Ok rs s' →
       map_handle s ud kt et (Some a) →
       ∀ a', a' ≠ a → maps s' !! a' = maps s !! a')
  ∧ (∀ g, is_Some (handler Sprintf g)
          ↔ g ∈ [fn_mapLen; fn_mapIndex; fn_mapNewIndex; fn_mapCall;
                 fn_baseEqual; fn_baseToString]
            ∨ ∃ env, g = fn_mapCall_closure env).
Proof.
  split; [intros x v s'; apply mk_New|].
  split; [intros x v s'; apply mk_NewType|].
  split; [intros p s'; apply mk_ensureMetatable|].
  split.
  { intros g body args rs s' Hg Hne. apply mk_call.
    destruct g; cbn [handler] in Hg; try done; injection Hg as <-.
    - unfold baseEqual. mk.
    - unfold mapIndex. mk.
    - unfold mapLen. mk.
    - unfold mapCall. mk.
    - unfold baseToString. mk.
    - unfold mapCall_fn. mk. }
  split.
  { intros ud rest kt et a rs s' Hrun (u & t & Hu & Hv & Ht) a' Ha.
    apply call_inv in Hrun as (n & σ & Hbody & _ & ->).
    assert (maps σ !! a' = maps s !! a') as <-; [|by destruct σ].
    set (s0 := set_stack (λ _, LUserData ud :: rest) s) in *.
    assert (maps s0 = maps s) as <- by (by destruct s).
    unfold mapNewIndex in Hbody.
    erewrite bind_Ok in Hbody by reflexivity.
    erewrite bind_Ok in Hbody by reflexivity.
    erewrite bind_Ok in Hbody by reflexivity.
    erewrite bind_Ok in Hbody; cycle 1.
    { unfold get_Value, deref, bind. cbn [userdata set_stack s0]. rewrite Hu. reflexivity. }
    rewrite Hv in Hbody. cbn [ValueOf] in Hbody.
    erewrite bind_Ok in Hbody; cycle 1.
    { unfold Type_Key. rewrite Ht. reflexivity. }
    apply bind_inv in Hbody as (key & s1 & Hkey & Hbody).
    apply lValueToReflect_pure in Hkey as [-> _].
    erewrite bind_Ok in Hbody; cycle 1.
    { unfold Type_Elem. rewrite Ht. reflexivity. }
    apply bind_inv in Hbody as (val & s1 & Hval & Hbody).
    apply lValueToReflect_pure in Hval as [-> _].
    apply bind_inv in Hbody as ([] & s1 & Hset & Hbody).
    injection Hbody as <- <-.
    by eapply SetMapIndex_writes. }
  intros g. split.
  - intros [body Hg].
    destruct g; cbn [handler] in Hg; try done;
      first [ right; by eexists
            | left; repeat first [apply list_elem_of_here | apply list_elem_of_further] ].
  - intros [Hin|[env ->]]; [|by eexists].
    repeat (apply elem_of_cons in Hin as [->|Hin]; [by eexists|]).
    by apply elem_of_nil in Hin.
Qed.

Lemma maps_written_by_index_write_witness :
  New places two_maps_state = Ok (LUserData 1) (state_of (New places two_maps_state))
  ∧ maps (state_of (New places two_maps_state)) = maps two_maps_state
  ∧ call mapLen [LUserData 0] two_maps_state
    = Ok [LNumber (float64_of_Z 2)] two_maps_state
  ∧ map_handle two_maps_state 0 (TBasic string_t) (TBasic string_t) (Some 0)
  ∧ call mapNewIndex [LUserData 0; LString "AS"; LString "Asia"] two_maps_state
    = Ok [] (set_maps (λ _, [places_entries ++ [(DString "AS", DString "Asia")];
                             [(DString "AF", DString "Africa")]]) two_maps_state)
  ∧ ∀ a', a' ≠ 0 →
      maps (set_maps (λ _, [places_entries ++ [(DString "AS", DString "Asia")];
                            [(DString "AF", DString "Africa")]]) two_maps_state) !! a'
      = maps two_maps_state !! a'.
Proof.
  destruct (maps_written_by_index_write no_Sprintf two_maps_state)
    as (HNew & _ & _ & _ & Hwrite & _).
  assert (New places two_maps_state
          = Ok (LUserData 1) (state_of (New places two_maps_state))) as H1
    by (vm_compute; reflexivity).
  assert (map_handle two_maps_state 0 (TBasic string_t) (TBasic string_t) (Some 0))
    as Hh by (eexists _, _; split; [vm_compute; reflexivity | by split]).
  assert (call mapNewIndex [LUserData 0; LString "AS"; LString "Asia"] two_maps_state
          = Ok [] (set_maps (λ _, [places_entries ++ [(DString "AS", DString "Asia")];
                                   [(DString "AF", DString "Africa")]]) two_maps_state))
    as H2 by (vm_compute; reflexivity).
  split; [exact H1|]. split; [exact (HNew _ _ _ H1)|].
  split; [vm_compute; reflexivity|]. split; [exact Hh|]. split; [exact H2|].
  exact (Hwrite 0 _ _ _ 0 _ _ H2 Hh).
Defined.

(** In an interpreter without the operator tables, a conversion builds
    them after the tables that exist. *)
Lemma New_fresh_initialized t d s v s' :
  fresh s → New (IDyn t d) s = Ok v s' → initialized s' (length (tables s)).
Proof.
  intros (reg & Hreg & Hkey) Hnew.
  apply New_inv in Hnew as [[_ [[? _]|?]]|Hnew]; [done..|].
  destruct Hnew as (t' & d' & p' & s1 & _ & He & Hcase).
  rewrite (ensureMetatable_fresh s reg Hreg Hkey) in He. injection He as <- <-.
  pose proof (built_initialized s reg Hreg) as Hi.
  destruct Hcase as [(-> & _)|[(name & u & _ & _ & -> & _)|(_ & _ & ->)]].
  - done.
  - by apply initialized_set_userdata.
  - by apply initialized_app_functions.
Qed.

(** *** A write leaves the other keys alone *)

Lemma key_eqb_discrete kt d1 d2 :
  discrete d1 = true ∨ discrete d2 = true → key_eqb kt d1 d2 = true → d1 = d2.
Proof.
  unfold key_eqb. intros Hd H.
  destruct d1, d2; cbn [go_eq] in H; try done;
    try (by destruct Hd as [Hd|Hd]).
  - destruct (Bool.eqb b b0) eqn:E; [|done]. by apply eqb_prop in E as ->.
  - destruct (z =? z0)%Z eqn:E; [|done]. by apply Z.eqb_eq in E as ->.
  - destruct (String.eqb s s0) eqn:E; [|done]. by apply String.eqb_eq in E as ->.
  - destruct (bool_decide (p = p0)) eqn:E; [|done].
    by apply bool_decide_eq_true in E as ->.
Qed.

Lemma map_find_insert_other kt k e k' m pos0 pos e0 :
  discrete k' = true → k' ≠ k →
  map_find kt k m pos0 = Some (pos, e0) →
  map_find kt k' (<[pos - pos0 := (k, e)]> m) pos0 = map_find kt k' m pos0.
Proof.
  intros Hd Hne. revert pos0.
  induction m as [|[k1 e1] m IH]; intros pos0; cbn [map_find]; [done|].
  destruct (key_eqb kt k1 k) eqn:E.
  - intros [= <- <-]. rewrite Nat.sub_diag. cbn [insert list_insert map_find].
    assert (key_eqb kt k k' = false) as ->.
    { destruct (key_eqb kt k k') eqn:E'; [|done].
      apply key_eqb_discrete in E'; [by subst | by right]. }
    assert (key_eqb kt k1 k' = false) as ->; [|done].
    destruct (key_eqb kt k1 k') eqn:E'; [|done].
    apply key_eqb_discrete in E'; [|by right]. subst k1.
    apply key_eqb_discrete in E; [by subst | by left].
  - intros H. pose proof (map_find_Some _ _ _ _ _ _ H) as [Hle _].
    replace (pos - pos0) with (S (pos - S pos0)) by lia.
    cbn [insert list_insert map_find].
    destruct (key_eqb kt k1 k'); [done|]. by apply IH.
Qed.

Lemma map_find_assign_other kt k e k' m :
  discrete k' = true → k' ≠ k →
  map_find kt k' (map_assign kt k e m) 0 = map_find kt k' m 0.
Proof.
  intros Hd Hne. unfold map_assign.
  destruct (map_find kt k m 0) as [[pos e0]|] eqn:E.
  - rewrite <- (Nat.sub_0_r pos) at 1. by eapply map_find_insert_other.
  - rewrite map_find_app. destruct (map_find kt k' m 0); [done|].
    cbn [map_find].
    destruct (key_eqb kt k k') eqn:E'; [|done].
    apply key_eqb_discrete in E'; [by subst | by right].
Qed.

(** X15.  An index-write at one key leaves the other keys as they are:
    for a key that converts to a boolean, an integer, a string or a
    reference other than the host key written, the map holds after the
    write what it held before, at the same place, and an index-read of that
    key returns the forward conversion of that element, or nothing when
    the key is absent. *)
Theorem mapNewIndex_other_keys s ud kt et a m K V k e K' k' :
  map_handle s ud kt et (Some a) →
  maps s !! a = Some m →
  host_key s K kt = Some k →
  host_elem s V et = Some (Some e) →
  host_key s K' kt = Some k' →
  discrete k' = true → k' ≠ k →
  ∃ s1 m',
    call mapNewIndex [LUserData ud; K; V] s = Ok [] s1
    ∧ maps s1 !! a = Some m'
    ∧ map_find kt k' m' 0 = map_find kt k' m 0
    ∧ call mapIndex [LUserData ud; K'] s1
      = match map_find kt k' m 0 with
        | Some (_, e') => (r <- New (stored_iface et e') ;; ret [r]) s1
        | None => Ok [] s1
        end.
Proof.
  intros Hh Hm Hk He Hk' Hd Hne.
  set (s1 := set_maps <[a := map_assign kt k e m]> s).
  assert (map_handle s1 ud kt et (Some a)) as Hh1 by (by destruct s).
  assert (maps s1 !! a = Some (map_assign kt k e m)) as Hm1.
  { destruct s; cbn. apply list_lookup_insert_eq. by eapply lookup_lt_Some. }
  assert (host_key s1 K' kt = Some k') as Hk1
    by (eapply host_key_userdata; [exact Hk'|by destruct s]).
  pose proof (map_find_assign_other kt k e k' m Hd Hne) as Hf.
  exists s1, (map_assign kt k e m).
  split; [by apply (mapNewIndex_write s ud kt et a K V k e m)|].
  clearbody s1. split; [done|]. split; [done|].
  destruct (map_find kt k' m 0) as [[pos e']|] eqn:E.
  - by eapply mapIndex_found.
  - pose proof (mapIndex_lookup s1 ud kt et (Some a) K' k' _ [LUserData ud; K']
                  Hh1 Hk1 Hm1 eq_refl eq_refl) as H.
    rewrite Hf in H. rewrite (call_spec _ _ _ _ _ H).
    by rewrite set_stack_set_stack, set_stack_id.
Qed.

Lemma mapNewIndex_other_keys_witness :
  map_handle places_state 0 (TBasic string_t) (TBasic string_t) (Some 0)
  ∧ maps places_state !! 0 = Some places_entries
  ∧ host_key places_state (LString "EU") (TBasic string_t) = Some (DString "EU")
  ∧ host_elem places_state (LString "Europe") (TBasic string_t)
    = Some (Some (DString "Europe"))
  ∧ host_key places_state (LString "NA") (TBasic string_t) = Some (DString "NA")
  ∧ discrete (DString "NA") = true
  ∧ DString "NA" ≠ DString "EU"
  ∧ ∃ s1 m',
      call mapNewIndex [LUserData 0; LString "EU"; LString "Europe"] places_state
      = Ok [] s1
      ∧ maps s1 !! 0 = Some m'
      ∧ map_find (TBasic string_t) (DString "NA") m' 0
        = map_find (TBasic string_t) (DString "NA") places_entries 0
      ∧ call mapIndex [LUserData 0; LString "NA"] s1
        = match map_find (TBasic string_t) (DString "NA") places_entries 0 with
          | Some (_, e') => (r <- New (stored_iface (TBasic string_t) e') ;; ret [r]) s1
          | None => Ok [] s1
          end.
Proof.
  assert (map_handle places_state 0 (TBasic string_t) (TBasic string_t) (Some 0))
    as Hh by (eexists _, _; split; [vm_compute; reflexivity | by split]).
  split; [exact Hh|]. split; [vm_compute; reflexivity|].
  split; [vm_compute; reflexivity|]. split; [vm_compute; reflexivity|].
  split; [vm_compute; reflexivity|]. split; [reflexivity|]. split; [discriminate|].
  apply (mapNewIndex_other_keys places_state 0 _ _ 0 places_entries
           (LString "EU") (LString "Europe") (DString "EU") (DString "Europe")
           (LString "NA") (DString "NA") Hh);
    first [discriminate | vm_compute; reflexivity].
Defined.

(** *** The length of a map after a write *)

(** X16.  An index-write of a value that converts to an element adds at
    most one entry: when the key is in the map its element is replaced in
    place and the length stays, otherwise one entry is added; [mapLen]
    reports the new length. *)
Theorem mapNewIndex_length s ud kt et a m K V k e :
  map_handle s ud kt et (Some a) →
  maps s !! a = Some m →
  host_key s K kt = Some k →
  host_elem s V et = Some (Some e) →
  ∃ s1 m',
    call mapNewIndex [LUserData ud; K; V] s = Ok [] s1
    ∧ maps s1 !! a = Some m'
    ∧ match map_find kt k m 0 with
      | Some (pos, _) => m' = <[pos := (k, e)]> m ∧ length m' = length m
      | None => m' = m ++ [(k, e)] ∧ length m' = S (length m)
      end
    ∧ call mapLen [LUserData ud] s1
      = Ok [LNumber (float64_of_Z (Z.of_nat (length m')))] s1.
Proof.
  intros Hh Hm Hk He.
  set (s1 := set_maps <[a := map_assign kt k e m]> s).
  assert (map_handle s1 ud kt et (Some a)) as Hh1 by (by destruct s).
  assert (maps s1 !! a = Some (map_assign kt k e m)) as Hm1.
  { destruct s; cbn. apply list_lookup_insert_eq. by eapply lookup_lt_Some. }
  exists s1, (map_assign kt k e m).
  split; [by apply (mapNewIndex_write s ud kt et a K V k e m)|].
  clearbody s1. split; [done|]. split.
  - unfold map_assign. destruct (map_find kt k m 0) as [[pos e0]|].
    + by rewrite length_insert.
    + rewrite length_app. cbn. split; [done|lia].
  - by eapply mapLen_length.
Qed.

Lemma mapNewIndex_length_witness :
  map_handle places_state 0 (TBasic string_t) (TBasic string_t) (Some 0)
  ∧ maps places_state !! 0 = Some places_entries
  ∧ host_key places_state (LString "AS") (TBasic string_t) = Some (DString "AS")
  ∧ host_elem places_state (LString "Asia") (TBasic string_t)
    = Some (Some (DString "Asia"))
  ∧ ∃ s1 m',
      call mapNewIndex [LUserData 0; LString "AS"; LString "Asia"] places_state
      = Ok [] s1
      ∧ maps s1 !! 0 = Some m'
      ∧ match map_find (TBasic string_t) (DString "AS") places_entries 0 with
        | Some (pos, _) =>
            m' = <[pos := (DString "AS", DString "Asia")]> places_entries
            ∧ length m' = length places_entries
        | None =>
            m' = places_entries ++ [(DString "AS", DString "Asia")]
            ∧ length m' = S (length places_entries)
        end
      ∧ call mapLen [LUserData 0] s1
        = Ok [LNumber (float64_of_Z (Z.of_nat (length m')))] s1.
Proof.
  assert (map_handle places_state 0 (TBasic string_t) (TBasic string_t) (Some 0))
    as Hh by (eexists _, _; split; [vm_compute; reflexivity | by split]).
  split; [exact Hh|]. split; [vm_compute; reflexivity|].
  split; [vm_compute; reflexivity|]. split; [vm_compute; reflexivity|].
  apply (mapNewIndex_length places_state 0 _ _ 0 places_entries
           (LString "AS") (LString "Asia") (DString "AS") (DString "Asia") Hh);
    vm_compute; reflexivity.
Defined.

(** *** Script values in a map of interfaces *)

Lemma zero_data_interface et : underlying et = TInterface → zero_data et = DIface INil.
Proof. induction et; cbn; try done; auto. Qed.

Lemma assignTo_basic_interface b d et s :
  underlying et = TInterface →
  assignTo (RVal (TBasic b) d) et s
  = Ok (RVal et (DIface (IDyn (TBasic b) d))) s.
Proof.
  intros Hu. unfold assignTo, directlyAssignable, implements.
  assert (GoType_eqb et (TBasic b) = false) as ->
    by (destruct et; cbn in *; done).
  rewrite Hu. cbn [underlying GoType_eqb].
  destruct (has_name et && has_name (TBasic b));
    cbn [TypeKind]; by destruct b, d.
Qed.

Lemma host_elem_interface s et V :
  underlying et = TInterface →
  LValue_Type V ≠ None → (∀ h, V ≠ LUserData h) →
  ∃ x, host_elem s V et = Some (Some (DIface x))
       ∧ ∀ σ p, initialized σ p → New x σ = Ok V σ.
Proof.
  intros Hu Hty Hud.
  assert (TypeKind et = Interface) as Hk by (by rewrite <- TypeKind_underlying, Hu).
  assert (∀ lv,
            (val <- assignTo (RVal et (DIface (ILua lv))) et ;;
             ret (Some (Value_data val))) s
            = Ok (Some (DIface (ILua lv))) s) as Hsame.
  { intros lv. unfold assignTo. rewrite directlyAssignable_refl.
    by rewrite bind_ret. }
  assert (∀ lv, lv ≠ LValue_nil →
            (val <- assignTo (RLua lv) et ;; ret (Some (Value_data val))) s
            = Ok (Some (DIface (ILua lv))) s) as Hlua.
  { intros lv Hlv. unfold assignTo, implements. rewrite Hu.
    rewrite bind_ret. by destruct lv. }
  unfold host_elem.
  destruct V; try done; cbn [lValueToReflect].
  - (* LNil *)
    exists INil. split; [|done].
    rewrite bind_ret. unfold Zero. rewrite zero_data_interface by done.
    unfold assignTo. rewrite directlyAssignable_refl. by rewrite bind_ret.
  - (* LBool *)
    exists (IDyn (TBasic bool_t) (DBool b)). split.
    + rewrite bind_ret.
      by rewrite (bind_Ok _ _ _ _ _ (assignTo_basic_interface _ _ et s Hu)).
    + intros σ p Hi. unfold New.
      by erewrite bind_Ok by (apply ensureMetatable_cached, Hi).
  - (* LNumber *)
    exists (ILua (LNumber n)). split; [|done].
    unfold Convert_LNumber. rewrite Hk. cbn [is_int_kind is_uint_kind].
    rewrite bind_ret. by rewrite Hsame.
  - (* LString *)
    exists (IDyn (TBasic string_t) (DString s0)). split.
    + rewrite bind_ret.
      by rewrite (bind_Ok _ _ _ _ _ (assignTo_basic_interface _ _ et s Hu)).
    + intros σ p Hi. unfold New.
      by erewrite bind_Ok by (apply ensureMetatable_cached, Hi).
  - exists (ILua (LFunction p)). split; [|done]. rewrite bind_ret. by rewrite Hlua.
  - by destruct (Hud p).
  - exists (ILua (LTable p)). split; [|done]. rewrite bind_ret. by rewrite Hlua.
  - exists (ILua (LStateV p)). split; [|done]. rewrite bind_ret. by rewrite Hlua.
  - exists (ILua (LChannel c)). split; [|done]. rewrite bind_ret. by rewrite Hlua.
Qed.

(** X17.  A map whose element type is [interface{}] holds every script
    value that is not a userdata as it is: after the index-write of a
    boolean, a number (fractional or not), a string, nil, a function, a
    table, a thread or a channel, the index-read of the key returns that
    very value. *)
Theorem map_of_interfaces_reads_back s p ud kt et a m K V k :
  initialized s p →
  map_handle s ud kt et (Some a) →
  maps s !! a = Some m →
  host_key s K kt = Some k →
  key_eqb kt k k = true →
  underlying et = TInterface →
  LValue_Type V ≠ None → (∀ h, V ≠ LUserData h) →
  ∃ s1,
    call mapNewIndex [LUserData ud; K; V] s = Ok [] s1
    ∧ call mapIndex [LUserData ud; K] s1 = Ok [V] s1.
Proof.
  intros Hi Hh Hm Hk Hkk Hu Hty Hud.
  destruct (host_elem_interface s et V Hu Hty Hud) as (x & He & Hnew).
  assert (TypeKind et = Interface) as Hkind by (by rewrite <- TypeKind_underlying, Hu).
  set (s1 := set_maps <[a := map_assign kt k (DIface x) m]> s).
  assert (map_handle s1 ud kt et (Some a)) as Hh1 by (by destruct s).
  assert (maps s1 !! a = Some (map_assign kt k (DIface x) m)) as Hm1.
  { destruct s; cbn. apply list_lookup_insert_eq. by eapply lookup_lt_Some. }
  assert (initialized s1 p) as Hi1 by (by apply initialized_set_maps).
  assert (host_key s1 K kt = Some k) as Hk1
    by (eapply host_key_userdata; [exact Hk|by destruct s]).
  destruct (map_find_assign kt k (DIface x) m Hkk) as [pos Hf].
  exists s1. split; [by apply (mapNewIndex_write s ud kt et a K V k (DIface x) m)|].
  clearbody s1.
  rewrite (mapIndex_found s1 ud kt et (Some a) K k _ pos (DIface x) Hh1 Hk1 Hm1 Hf).
  unfold stored_iface. rewrite Hkind.
  by erewrite bind_Ok by (by eapply Hnew).
Qed.

Lemma any_map_state_initialized : initialized any_map_state 1.
Proof.
  assert (fresh (set_maps (λ _, [[]]) initial_state)) as Hf by (exists ∅; by split).
  assert (New any_map (set_maps (λ _, [[]]) initial_state)
          = Ok (LUserData 0) any_map_state) as Hnew by (vm_compute; reflexivity).
  exact (New_fresh_initialized _ _ _ _ _ Hf Hnew).
Qed.

Lemma map_of_interfaces_reads_back_witness :
  initialized any_map_state 1
  ∧ map_handle any_map_state 0 (TBasic string_t) TInterface (Some 0)
  ∧ maps any_map_state !! 0 = Some []
  ∧ host_key any_map_state (LString "pi") (TBasic string_t) = Some (DString "pi")
  ∧ key_eqb (TBasic string_t) (DString "pi") (DString "pi") = true
  ∧ underlying TInterface = TInterface
  ∧ LValue_Type (LNumber three_and_a_half) ≠ None
  ∧ (∀ h, LNumber three_and_a_half ≠ LUserData h)
  ∧ ∃ s1,
      call mapNewIndex [LUserData 0; LString "pi"; LNumber three_and_a_half]
        any_map_state = Ok [] s1
      ∧ call mapIndex [LUserData 0; LString "pi"] s1
        = Ok [LNumber three_and_a_half] s1.
Proof.
  pose proof any_map_state_initialized as Hi.
  assert (map_handle any_map_state 0 (TBasic string_t) TInterface (Some 0))
    as Hh by (eexists _, _; split; [vm_compute; reflexivity | by split]).
  split; [exact Hi|]. split; [exact Hh|]. split; [vm_compute; reflexivity|].
  split; [vm_compute; reflexivity|]. split; [vm_compute; reflexivity|].
  split; [reflexivity|]. split; [discriminate|]. split; [discriminate|].
  apply (map_of_interfaces_reads_back any_map_state 1 0 _ _ 0 []
           (LString "pi") (LNumber three_and_a_half) (DString "pi") Hi Hh);
    first [discriminate | vm_compute; reflexivity].
Defined.


(** *** The iterator of a map of scalars *)

Lemma New_scalar s p t d v :
  initialized s p → scalar t d = Some v → New (stored_iface t d) s = Ok v s.
Proof.
  intros Hi Hs. unfold scalar in Hs.
  assert (stored_iface t d = IDyn t d) as ->.
  { unfold stored_iface. destruct (TypeKind t), d; done. }
  unfold New. erewrite bind_Ok by (apply ensureMetatable_cached, Hi).
  cbn [ValueOf ValueKind].
  destruct (TypeKind t), d; try discriminate; by injection Hs as <-.
Qed.

Lemma scalar_hashable t d v : scalar t d = Some v → hashable d = true.
Proof. unfold scalar. by destruct (TypeKind t), d. Qed.

Lemma initialized_set_closures s p f :
  initialized s p → initialized (set_closures f s) p.
Proof. by destruct s. Qed.

Lemma set_closures_insert_insert env x y s :
  set_closures <[env := y]> (set_closures <[env := x]> s)
  = set_closures <[env := y]> s.
Proof. destruct s; cbn. unfold set_closures; cbn. by rewrite list_insert_insert_eq. Qed.

(** One invocation, in a state whose operator tables are built. *)
Lemma mapCall_fn_scalar s p0 env t p kt et keys i k m r :
  initialized s p0 →
  closures s !! env = Some (mkVars (RVal t (DRef p)) keys i) →
  underlying t = TMap kt et →
  keys !! i = Some (RVal kt k) →
  map_entries s p = Some m →
  yielded kt et m k = Some r →
  call (mapCall_fn env) [] s
  = Ok r (set_closures <[env := mkVars (RVal t (DRef p)) keys (S i)]> s).
Proof.
  intros Hi Hc Ht Hk Hm Hy. unfold yielded in Hy.
  destruct (map_find kt k m 0) as [[pos e]|] eqn:Hf; [|done].
  unfold pair_of in Hy. cbn [fst snd] in Hy.
  destruct (scalar kt k) as [rk|] eqn:Ek; [|done].
  destruct (scalar et e) as [rv|] eqn:Ee; [|done].
  cbn in Hy. injection Hy as <-.
  rewrite (mapCall_fn_yields s env t p kt et keys i k m pos e Hc Ht Hk
             (scalar_hashable _ _ _ Ek) Hm Hf).
  erewrite bind_Ok by (by eapply New_scalar).
  erewrite bind_Ok by (by eapply New_scalar).
  reflexivity.
Qed.

(** The invocations from the counter on, while every key of the snapshot
    is found in the map. *)
Lemma invoke_snapshot p0 env t p kt et keys m rs : ∀ s i,
  initialized s p0 →
  closures s !! env = Some (mkVars (RVal t (DRef p)) keys i) →
  underlying t = TMap kt et →
  map_entries s p = Some m →
  Forall2 (λ key r, ∃ k, key = RVal kt k ∧ yielded kt et m k = Some r)
    (drop i keys) rs →
  invoke (fn_mapCall_closure env) (length rs) s
  = Ok rs (set_closures
             <[env := mkVars (RVal t (DRef p)) keys (i + length rs)]> s).
Proof.
  induction rs as [|r rs IH]; intros s i Hi Hc Ht Hm HF.
  - cbn [invoke length]. rewrite Nat.add_0_r. unfold ret. f_equal.
    destruct s; unfold set_closures; cbn in *. by rewrite list_insert_id.
  - destruct (drop i keys) as [|key tl] eqn:Hdrop; [by apply Forall2_nil_cons_inv in HF|].
    apply Forall2_cons in HF as [(k & -> & Hy) HF].
    assert (keys !! i = Some (RVal kt k)) as Hk.
    { pose proof (lookup_drop keys i 0) as Hl. rewrite Hdrop, Nat.add_0_r in Hl.
      by rewrite <- Hl. }
    assert (drop (S i) keys = tl) as Htl.
    { pose proof (drop_drop keys 1 i) as Hl. rewrite Hdrop, Nat.add_1_r in Hl.
      by rewrite <- Hl. }
    set (s' := set_closures <[env := mkVars (RVal t (DRef p)) keys (S i)]> s).
    cbn [invoke length run handler].
    erewrite bind_Ok by (by eapply mapCall_fn_scalar).
    fold s'.
    erewrite bind_Ok; cycle 1.
    { apply (IH s' (S i)).
      - by apply initialized_set_closures.
      - destruct s; cbn. apply list_lookup_insert_eq. by eapply lookup_lt_Some.
      - done.
      - by destruct s, p.
      - by rewrite Htl. }
    unfold ret. f_equal.
    unfold s'. rewrite set_closures_insert_insert.
    by replace (S i + length rs) with (i + S (length rs)) by lia.
Qed.

Lemma invoke_exhausted env vars s :
  closures s !! env = Some vars →
  length (var_keys vars) ≤ var_i vars →
  invoke (fn_mapCall_closure env) 1 s = Ok [[]] s.
Proof.
  intros Hc Hi. cbn [invoke run handler].
  by erewrite bind_Ok by (by eapply mapCall_fn_exhausted).
Qed.

Lemma Forall2_keys kt (P : GoData → list LValue → Prop)
    (m : list (GoData * GoData)) rs :
  Forall2 (λ entry r, P entry.1 r) m rs →
  Forall2 (λ key r, ∃ k, key = RVal kt k ∧ P k r) (map (λ e, RVal kt e.1) m) rs.
Proof.
  induction 1 as [|entry r m rs H HF IH]; cbn [map]; constructor; eauto.
Qed.

Lemma host_elem_userdata s σ lValue et e :
  host_elem s lValue et = Some (Some e) → userdata s `prefix_of` userdata σ →
  host_elem σ lValue et = Some (Some e).
Proof.
  intros He Hu.
  apply host_elem_inv in He as (val & val' & Hval & Hne & Hassign & <-).
  unfold host_elem.
  erewrite bind_Ok by (by apply Hval).
  destruct val; [done|..]; by erewrite bind_Ok by apply Hassign.
Qed.

(** X18.  Over a map whose keys are pairwise different (each key finds
    its own entry; a NaN does not) and whose keys and elements are
    booleans, numbers or strings: calling the handle gives a new function,
    and invoking it as many times as the map has entries yields the pairs
    of the entries, each once, in the order of the enumeration; every
    invocation after that yields nothing.  The iteration writes no map,
    no handle and no table. *)
Theorem iterator_enumerates s p0 ud kt et p m rs :
  initialized s p0 →
  map_handle s ud kt et p →
  map_entries s p = Some m →
  (∀ i k e, m !! i = Some (k, e) → map_find kt k m 0 = Some (i, e)) →
  Forall2 (λ entry r, pair_of kt et entry = Some r) m rs →
  ∃ f env s1 s2,
    call mapCall [LUserData ud] s = Ok [LFunction f] s1
    ∧ functions s !! f = None
    ∧ functions s1 !! f = Some (fn_mapCall_closure env)
    ∧ invoke (fn_mapCall_closure env) (length m) s1 = Ok rs s2
    ∧ invoke (fn_mapCall_closure env) 1 s2 = Ok [[]] s2
    ∧ maps s2 = maps s ∧ userdata s2 = userdata s ∧ tables s2 = tables s.
Proof.
  intros Hi Hh Hm Hproper HF.
  destruct (mapCall_creates s ud kt et p m Hh Hm) as (t & Ht & Hcall).
  set (keys := map (λ e, RVal kt e.1) m) in *.
  set (s1 := set_functions (λ h, h ++ [fn_mapCall_closure (length (closures s))])
               (set_closures
                  (λ h, h ++ [mkVars (RVal t (DRef p)) keys 0]) s)) in *.
  assert (length rs = length m) as Hlen by (symmetry; by eapply Forall2_length).
  assert (invoke (fn_mapCall_closure (length (closures s))) (length rs) s1
          = Ok rs (set_closures
                     <[length (closures s)
                       := mkVars (RVal t (DRef p)) keys (0 + length rs)]> s1))
    as Hrun.
  { apply (invoke_snapshot p0 _ t p kt et keys m rs s1 0).
    - apply initialized_app_functions. by apply initialized_set_closures.
    - destruct s; cbn. apply lookup_app_length.
    - done.
    - by destruct s, p.
    - rewrite drop_0. apply Forall2_keys.
      apply Forall2_same_length_lookup. split; [done|].
      intros i [k e] r Hl Hr. cbn [fst].
      apply Forall2_same_length_lookup in HF as [_ HF].
      unfold yielded. rewrite (Hproper i k e Hl). by apply (HF i). }
  exists (length (functions s)), (length (closures s)), s1, 
    (set_closures
       <[length (closures s) := mkVars (RVal t (DRef p)) keys (0 + length rs)]> s1).
  split; [exact Hcall|].
  split; [apply lookup_ge_None_2; lia|].
  split; [destruct s; cbn; apply lookup_app_length|].
  split; [by rewrite <- Hlen|].
  split.
  { eapply invoke_exhausted.
    - destruct s; cbn. apply list_lookup_insert_eq. rewrite length_app. cbn. lia.
    - cbn [var_keys var_i]. unfold keys. rewrite length_map. lia. }
  by destruct s.
Qed.

Lemma iterator_enumerates_witness :
  initialized places_state 1
  ∧ map_handle places_state 0 (TBasic string_t) (TBasic string_t) (Some 0)
  ∧ map_entries places_state (Some 0) = Some places_entries
  ∧ (∀ i k e, places_entries !! i = Some (k, e) →
              map_find (TBasic string_t) k places_entries 0 = Some (i, e))
  ∧ Forall2 (λ entry r, pair_of (TBasic string_t) (TBasic string_t) entry = Some r)
      places_entries
      [[LString "NA"; LString "North America"];
       [LString "EU"; LString "European Union"]]
  ∧ ∃ f env s1 s2,
      call mapCall [LUserData 0] places_state = Ok [LFunction f] s1
      ∧ functions places_state !! f = None
      ∧ functions s1 !! f = Some (fn_mapCall_closure env)
      ∧ invoke (fn_mapCall_closure env) (length places_entries) s1
        = Ok [[LString "NA"; LString "North America"];
              [LString "EU"; LString "European Union"]] s2
      ∧ invoke (fn_mapCall_closure env) 1 s2 = Ok [[]] s2
      ∧ maps s2 = maps places_state ∧ userdata s2 = userdata places_state
      ∧ tables s2 = tables places_state.
Proof.
  assert (map_handle places_state 0 (TBasic string_t) (TBasic string_t) (Some 0))
    as Hh by (eexists _, _; split; [vm_compute; reflexivity | by split]).
  assert (map_entries places_state (Some 0) = Some places_entries) as Hm
    by (vm_compute; reflexivity).
  assert (∀ i k e, places_entries !! i = Some (k, e) →
                   map_find (TBasic string_t) k places_entries 0 = Some (i, e))
    as Hproper.
  { intros [|[|i]] k e H; [| |done]; injection H as <- <-; vm_compute; reflexivity. }
  assert (Forall2 (λ entry r, pair_of (TBasic string_t) (TBasic string_t) entry = Some r)
            places_entries
            [[LString "NA"; LString "North America"];
             [LString "EU"; LString "European Union"]]) as HF
    by (repeat constructor).
  split; [apply places_state_initialized|]. split; [exact Hh|]. split; [exact Hm|].
  split; [exact Hproper|]. split; [exact HF|].
  exact (iterator_enumerates places_state 1 0 _ _ (Some 0) places_entries _
           places_state_initialized Hh Hm Hproper HF).
Defined.

(** X19.  The iterator works on a snapshot of the keys and on the live
    map.  When an index-write follows the creation of the iterator, the
    invocations yield one pair for each key that the map had at the
    creation, with the element that the map holds for it after the write,
    and then nothing: a key that the write added is not visited.  (Keys
    and elements are booleans, numbers or strings, and every key of the
    snapshot is found in the map.) *)
Theorem iterator_after_write s p0 ud kt et a m K V k e rs :
  initialized s p0 →
  map_handle s ud kt et (Some a) →
  maps s !! a = Some m →
  host_key s K kt = Some k →
  host_elem s V et = Some (Some e) →
  Forall2 (λ entry r, yielded kt et (map_assign kt k e m) entry.1 = Some r) m rs →
  ∃ f env s1 s2 s3,
    call mapCall [LUserData ud] s = Ok [LFunction f] s1
    ∧ functions s1 !! f = Some (fn_mapCall_closure env)
    ∧ call mapNewIndex [LUserData ud; K; V] s1 = Ok [] s2
    ∧ maps s2 !! a = Some (map_assign kt k e m)
    ∧ invoke (fn_mapCall_closure env) (length m) s2 = Ok rs s3
    ∧ invoke (fn_mapCall_closure env) 1 s3 = Ok [[]] s3.
Proof.
  intros Hi Hh Hm Hk He HF.
  destruct (mapCall_creates s ud kt et (Some a) m Hh Hm) as (t & Ht & Hcall).
  set (keys := map (λ e, RVal kt e.1) m) in *.
  set (s1 := set_functions (λ h, h ++ [fn_mapCall_closure (length (closures s))])
               (set_closures
                  (λ h, h ++ [mkVars (RVal t (DRef (Some a))) keys 0]) s)) in *.
  set (s2 := set_maps <[a := map_assign kt k e m]> s1).
  assert (length rs = length m) as Hlen by (symmetry; by eapply Forall2_length).
  assert (userdata s1 = userdata s) as Hus by (by destruct s).
  assert (call mapNewIndex [LUserData ud; K; V] s1 = Ok [] s2) as Hwrite.
  { apply (mapNewIndex_write s1 ud kt et a K V k e m).
    - by destruct s.
    - eapply host_key_userdata; [exact Hk|by rewrite Hus].
    - eapply host_elem_userdata; [exact He|by rewrite Hus].
    - by destruct s. }
  assert (maps s2 !! a = Some (map_assign kt k e m)) as Hm2.
  { destruct s; cbn. apply list_lookup_insert_eq. by eapply lookup_lt_Some. }
  assert (invoke (fn_mapCall_closure (length (closures s))) (length rs) s2
          = Ok rs (set_closures
                     <[length (closures s)
                       := mkVars (RVal t (DRef (Some a))) keys (0 + length rs)]> s2))
    as Hrun.
  { apply (invoke_snapshot p0 _ t (Some a) kt et keys (map_assign kt k e m) rs s2 0).
    - apply initialized_set_maps, initialized_app_functions.
      by apply initialized_set_closures.
    - destruct s; cbn. apply lookup_app_length.
    - done.
    - exact Hm2.
    - rewrite drop_0. by apply Forall2_keys. }
  exists (length (functions s)), (length (closures s)), s1, s2,
    (set_closures
       <[length (closures s)
         := mkVars (RVal t (DRef (Some a))) keys (0 + length rs)]> s2).
  split; [exact Hcall|].
  split; [destruct s; cbn; apply lookup_app_length|].
  split; [exact Hwrite|]. split; [exact Hm2|].
  split; [by rewrite <- Hlen|].
  eapply invoke_exhausted.
  - destruct s; cbn. apply list_lookup_insert_eq. rewrite length_app. cbn. lia.
  - cbn [var_keys var_i]. unfold keys. rewrite length_map. lia.
Qed.

Lemma iterator_after_write_witness :
  initialized places_state 1
  ∧ map_handle places_state 0 (TBasic string_t) (TBasic string_t) (Some 0)
  ∧ maps places_state !! 0 = Some places_entries
  ∧ host_key places_state (LString "AS") (TBasic string_t) = Some (DString "AS")
  ∧ host_elem places_state (LString "Asia") (TBasic string_t)
    = Some (Some (DString "Asia"))
  ∧ Forall2 (λ entry r,
               yielded (TBasic string_t) (TBasic string_t)
                 (map_assign (TBasic string_t) (DString "AS") (DString "Asia")
                    places_entries) entry.1 = Some r)
      places_entries
      [[LString "NA"; LString "North America"];
       [LString "EU"; LString "European Union"]]
  ∧ ∃ f env s1 s2 s3,
      call mapCall [LUserData 0] places_state = Ok [LFunction f] s1
      ∧ functions s1 !! f = Some (fn_mapCall_closure env)
      ∧ call mapNewIndex [LUserData 0; LString "AS"; LString "Asia"] s1 = Ok [] s2
      ∧ maps s2 !! 0
        = Some (map_assign (TBasic string_t) (DString "AS") (DString "Asia")
                  places_entries)
      ∧ invoke (fn_mapCall_closure env) (length places_entries) s2
        = Ok [[LString "NA"; LString "North America"];
              [LString "EU"; LString "European Union"]] s3
      ∧ invoke (fn_mapCall_closure env) 1 s3 = Ok [[]] s3.
Proof.
  assert (map_handle places_state 0 (TBasic string_t) (TBasic string_t) (Some 0))
    as Hh by (eexists _, _; split; [vm_compute; reflexivity | by split]).
  assert (maps places_state !! 0 = Some places_entries) as Hm
    by (vm_compute; reflexivity).
  assert (host_key places_state (LString "AS") (TBasic string_t)
          = Some (DString "AS")) as Hk by (vm_compute; reflexivity).
  assert (host_elem places_state (LString "Asia") (TBasic string_t)
          = Some (Some (DString "Asia"))) as He by (vm_compute; reflexivity).
  assert (Forall2 (λ entry r,
                     yielded (TBasic string_t) (TBasic string_t)
                       (map_assign (TBasic string_t) (DString "AS") (DString "Asia")
                          places_entries) entry.1 = Some r)
            places_entries
            [[LString "NA"; LString "North America"];
             [LString "EU"; LString "European Union"]]) as HF
    by (repeat constructor).
  split; [apply places_state_initialized|]. split; [exact Hh|]. split; [exact Hm|].
  split; [exact Hk|]. split; [exact He|]. split; [exact HF|].
  exact (iterator_after_write places_state 1 0 _ _ 0 places_entries
           (LString "AS") (LString "Asia") (DString "AS") (DString "Asia") _
           places_state_initialized Hh Hm Hk He HF).
Defined.

(** *** The text of a handle *)



(** *** The table of the doc comment of New *)

Lemma New_stored s p s1 t d name :
  ensureMetatable s = Ok p s1 → initialized s1 p →
  handle_table (TypeKind t) = Some name →
  New (IDyn t d) s
  = Ok (LUserData (length (userdata s1)))
       (set_userdata
          (λ h, h ++ [mkUserData (stored_iface t d) (attached s1 p name)]) s1).
Proof.
  intros He Hi Hn. unfold New. erewrite bind_Ok by exact He.
  cbn [ValueOf ValueKind].
  pose proof (initialized_table _ _ Hi) as Ht.
  pose proof (Value_Interface_stored t d s1) as Hx.
  destruct (TypeKind t) eqn:Hk; try discriminate;
    injection Hn as <-; by apply new_handle_spec.
Qed.

(** X21.  The table in the doc comment of [New] is what the code does: in
    a state in which the package can run, for a host value of a kind that
    the table lists (but [Func], whose wrapper is in another file), [New]
    returns a value of the gopher-lua type listed; and for nil it returns
    [LNil].  The code also converts the kind [Uint16], for which the table
    has no line, to a number. *)
Theorem New_documented s t d ty :
  ready s →
  fits (TypeKind t) d = true →
  TypeKind t ≠ Func →
  (TypeKind t, ty) ∈ documented ∨ (TypeKind t = Uint16 ∧ ty = LTNumber) →
  (∃ v s', New (IDyn t d) s = Ok v s' ∧ LValue_Type v = Some ty)
  ∧ New INil s = Ok LNil s.
Proof.
  intros Hr Hfit Hfunc Hdoc. split; [|done].
  destruct (ensureMetatable_ready s Hr) as (p & s1 & He & Hi & _).
  assert (∀ name, handle_table (TypeKind t) = Some name → ty = LTUserData →
            ∃ v s', New (IDyn t d) s = Ok v s' ∧ LValue_Type v = Some ty) as Hhandle.
  { intros name Hn ->. rewrite (New_stored s p s1 t d name He Hi Hn). by eexists _, _. }
  assert (∀ k, TypeKind t = k → fits k d = true →
            handle_table k = None → k ≠ Func →
            (k, ty) ∈ (Uint16, LTNumber) :: documented →
            ∃ v s', New (IDyn t d) s = Ok v s' ∧ LValue_Type v = Some ty) as Hscalar.
  { intros k Hk Hf Hn Hnf Hin. unfold New. erewrite bind_Ok by exact He.
    cbn [ValueOf ValueKind]. rewrite Hk. unfold documented in Hin.
    repeat (apply elem_of_cons in Hin as [Hin|Hin];
            [injection Hin as -> ->; try discriminate Hn; try done;
             destruct d; try discriminate Hf; by eexists _, _|]).
    by apply elem_of_nil in Hin. }
  destruct (handle_table (TypeKind t)) as [name|] eqn:Hn.
  - apply (Hhandle name eq_refl).
    destruct Hdoc as [Hdoc|[Hk _]]; [|by rewrite Hk in Hn].
    unfold documented in Hdoc.
    repeat (apply elem_of_cons in Hdoc as [Hdoc|Hdoc];
            [injection Hdoc as Hk ->; first [done | by rewrite Hk in Hn]|]).
    by apply elem_of_nil in Hdoc.
  - apply (Hscalar (TypeKind t) eq_refl Hfit Hn Hfunc).
    destruct Hdoc as [Hdoc|[-> ->]]; [by apply list_elem_of_further|].
    apply list_elem_of_here.
Qed.

Lemma New_documented_witness :
  ready initial_state
  ∧ fits (TypeKind (TBasic uint16_t)) (DInt 834) = true
  ∧ TypeKind (TBasic uint16_t) ≠ Func
  ∧ ((TypeKind (TBasic uint16_t), LTNumber) ∈ documented
     ∨ (TypeKind (TBasic uint16_t) = Uint16 ∧ LTNumber = LTNumber))
  ∧ (∃ v s', New (IDyn (TBasic uint16_t) (DInt 834)) initial_state = Ok v s'
             ∧ LValue_Type v = Some LTNumber)
  ∧ New INil initial_state = Ok LNil initial_state.
Proof.
  assert ((TypeKind (TBasic uint16_t), LTNumber) ∈ documented
          ∨ (TypeKind (TBasic uint16_t) = Uint16 ∧ LTNumber = LTNumber)) as H
    by (by right).
  split; [apply ready_initial_state|]. split; [reflexivity|].
  split; [discriminate|]. split; [exact H|].
  apply (New_documented initial_state (TBasic uint16_t) (DInt 834) LTNumber
           ready_initial_state); [reflexivity | discriminate | exact H].
Defined.

(** *** Reading an element that gets a handle *)

(** X22.  An index-read of a key whose element is of kind [Chan], [Map],
    [Ptr], [Slice], [Struct] or [UnsafePointer] allocates a handle at every
    read: two reads of the same key return two distinct handles, neither of
    which existed, both holding the element; no map is written. *)
Theorem mapIndex_fresh_handle s p0 ud kt et p lKey k m pos e name :
  initialized s p0 →
  map_handle s ud kt et p →
  host_key s lKey kt = Some k →
  map_entries s p = Some m →
  map_find kt k m 0 = Some (pos, e) →
  TypeKind et ≠ Interface →
  handle_table (TypeKind et) = Some name →
  ∃ h1 s1 h2 s2 mt,
    call mapIndex [LUserData ud; lKey] s = Ok [LUserData h1] s1
    ∧ call mapIndex [LUserData ud; lKey] s1 = Ok [LUserData h2] s2
    ∧ h1 ≠ h2
    ∧ userdata s !! h1 = None ∧ userdata s !! h2 = None
    ∧ userdata s2 !! h1 = Some (mkUserData (IDyn et e) mt)
    ∧ userdata s2 !! h2 = Some (mkUserData (IDyn et e) mt)
    ∧ maps s2 = maps s.
Proof.
  intros Hi Hh Hk Hm Hf Hki Hn.
  assert (stored_iface et e = IDyn et e) as Hst.
  { unfold stored_iface. by destruct (TypeKind et), e. }
  set (u := mkUserData (IDyn et e) (attached s p0 name)).
  set (s1 := set_userdata (λ h, h ++ [u]) s).
  set (s2 := set_userdata (λ h, h ++ [u]) s1).
  assert (∀ σ, initialized σ p0 → tables σ = tables s →
            New (IDyn et e) σ
            = Ok (LUserData (length (userdata σ))) (set_userdata (λ h, h ++ [u]) σ))
    as Hnew.
  { intros σ Hσ Ht.
    rewrite (New_handle σ p0 σ et e name
               (ensureMetatable_cached _ _ (proj1 Hσ)) Hσ Hki Hn).
    unfold u, attached, kind_table. by rewrite Ht. }
  assert (initialized s1 p0) as Hi1 by (by apply initialized_set_userdata).
  assert (map_handle s1 ud kt et p) as Hh1.
  { destruct Hh as (u0 & t & Hu & Hv & Ht). exists u0, t.
    split; [|done]. destruct s; cbn. by apply lookup_app_l_Some. }
  assert (host_key s1 lKey kt = Some k) as Hk1.
  { eapply host_key_userdata; [exact Hk|]. destruct s; cbn. by apply prefix_app_r. }
  assert (map_entries s1 p = Some m) as Hm1 by (by destruct s, p).
  exists (length (userdata s)), s1, (length (userdata s1)), s2, (attached s p0 name).
  split.
  { rewrite (mapIndex_found s ud kt et p lKey k m pos e Hh Hk Hm Hf), Hst.
    by erewrite bind_Ok by (by apply Hnew). }
  split.
  { rewrite (mapIndex_found s1 ud kt et p lKey k m pos e Hh1 Hk1 Hm1 Hf), Hst.
    erewrite bind_Ok; [reflexivity|]. apply Hnew; [done|by destruct s]. }
  split; [destruct s; cbn; rewrite length_app; cbn; lia|].
  split; [apply lookup_ge_None_2; lia|].
  split; [apply lookup_ge_None_2; destruct s; cbn; rewrite length_app; lia|].
  split; [destruct s; cbn; apply lookup_app_l_Some, lookup_app_length|].
  split; [destruct s; cbn; apply lookup_app_length|].
  by destruct s.
Qed.

Lemma scores_state_initialized : initialized scores_state 1.
Proof.
  assert (fresh (set_maps (λ _, [scores_entries]) initial_state)) as Hf
    by (exists ∅; by split).
  assert (New scores (set_maps (λ _, [scores_entries]) initial_state)
          = Ok (LUserData 0) scores_state) as Hnew by (vm_compute; reflexivity).
  exact (New_fresh_initialized _ _ _ _ _ Hf Hnew).
Qed.

Lemma mapIndex_fresh_handle_witness :
  initialized scores_state 1
  ∧ map_handle scores_state 0 (TBasic string_t) (TSlice (TBasic int_t)) (Some 0)
  ∧ host_key scores_state (LString "Tim") (TBasic string_t) = Some (DString "Tim")
  ∧ map_entries scores_state (Some 0) = Some scores_entries
  ∧ map_find (TBasic string_t) (DString "Tim") scores_entries 0
    = Some (0, DSlice (Some 3) 2 2)
  ∧ TypeKind (TSlice (TBasic int_t)) ≠ Interface
  ∧ handle_table (TypeKind (TSlice (TBasic int_t))) = Some (Some "slice")
  ∧ ∃ h1 s1 h2 s2 mt,
      call mapIndex [LUserData 0; LString "Tim"] scores_state = Ok [LUserData h1] s1
      ∧ call mapIndex [LUserData 0; LString "Tim"] s1 = Ok [LUserData h2] s2
      ∧ h1 ≠ h2
      ∧ userdata scores_state !! h1 = None ∧ userdata scores_state !! h2 = None
      ∧ userdata s2 !! h1
        = Some (mkUserData (IDyn (TSlice (TBasic int_t)) (DSlice (Some 3) 2 2)) mt)
      ∧ userdata s2 !! h2
        = Some (mkUserData (IDyn (TSlice (TBasic int_t)) (DSlice (Some 3) 2 2)) mt)
      ∧ maps s2 = maps scores_state.
Proof.
  pose proof scores_state_initialized as Hi.
  assert (map_handle scores_state 0 (TBasic string_t) (TSlice (TBasic int_t)) (Some 0))
    as Hh by (eexists _, _; split; [vm_compute; reflexivity | by split]).
  split; [exact Hi|]. split; [exact Hh|]. split; [vm_compute; reflexivity|].
  split; [vm_compute; reflexivity|]. split; [vm_compute; reflexivity|].
  split; [discriminate|]. split; [reflexivity|].
  apply (mapIndex_fresh_handle scores_state 1 0 _ _ (Some 0) (LString "Tim")
           (DString "Tim") scores_entries 0 (DSlice (Some 3) 2 2) (Some "slice") Hi Hh);
    first [discriminate | vm_compute; reflexivity].
Defined.

(** X23.  Every call of a map handle makes an iterator of its own, with
    its own snapshot and its own counter: two calls return two distinct
    functions, and after the first iterator has run through the map the
    second still yields every entry. *)
Theorem iterators_independent s p0 ud kt et p m rs :
  initialized s p0 →
  map_handle s ud kt et p →
  map_entries s p = Some m →
  (∀ i k e, m !! i = Some (k, e) → map_find kt k m 0 = Some (i, e)) →
  Forall2 (λ entry r, pair_of kt et entry = Some r) m rs →
  ∃ f1 env1 f2 env2 s1 s2 s3 s4,
    call mapCall [LUserData ud] s = Ok [LFunction f1] s1
    ∧ call mapCall [LUserData ud] s1 = Ok [LFunction f2] s2
    ∧ f1 ≠ f2 ∧ env1 ≠ env2
    ∧ functions s2 !! f1 = Some (fn_mapCall_closure env1)
    ∧ functions s2 !! f2 = Some (fn_mapCall_closure env2)
    ∧ invoke (fn_mapCall_closure env1) (length m) s2 = Ok rs s3
    ∧ invoke (fn_mapCall_closure env2) (length m) s3 = Ok rs s4.
Proof.
  intros Hi Hh Hm Hproper HF.
  destruct (mapCall_creates s ud kt et p m Hh Hm) as (t & Ht & Hcall1).
  set (keys := map (λ e, RVal kt e.1) m) in *.
  set (vars := mkVars (RVal t (DRef p)) keys 0) in *.
  set (s1 := set_functions (λ h, h ++ [fn_mapCall_closure (length (closures s))])
               (set_closures (λ h, h ++ [vars]) s)) in *.
  assert (map_handle s1 ud kt et p) as Hh1 by (by destruct s).
  assert (map_entries s1 p = Some m) as Hm1 by (by destruct s, p).
  destruct (mapCall_creates s1 ud kt et p m Hh1 Hm1) as (t' & Ht' & Hcall2).
  fold keys in Hcall2.
  set (vars' := mkVars (RVal t' (DRef p)) keys 0) in *.
  set (s2 := set_functions (λ h, h ++ [fn_mapCall_closure (length (closures s1))])
               (set_closures (λ h, h ++ [vars']) s1)) in *.
  assert (length (closures s1) = S (length (closures s))) as Hc1
    by (destruct s; cbn; rewrite length_app; cbn; lia).
  assert (length (functions s1) = S (length (functions s))) as Hf1
    by (destruct s; cbn; rewrite length_app; cbn; lia).
  assert (length rs = length m) as Hlen by (symmetry; by eapply Forall2_length).
  assert (Forall2 (λ key r, ∃ k, key = RVal kt k ∧ yielded kt et m k = Some r)
            (drop 0 keys) rs) as HF'.
  { rewrite drop_0. apply Forall2_keys.
    apply Forall2_same_length_lookup. split; [done|].
    intros i [k e] r Hl Hr. cbn [fst].
    apply Forall2_same_length_lookup in HF as [_ HF].
    unfold yielded. rewrite (Hproper i k e Hl). by apply (HF i). }
  set (s3 := set_closures
               <[length (closures s) := mkVars (RVal t (DRef p)) keys (0 + length rs)]>
               s2).
  assert (invoke (fn_mapCall_closure (length (closures s))) (length rs) s2 = Ok rs s3)
    as Hrun1.
  { apply (invoke_snapshot p0 _ t p kt et keys m rs s2 0); [| |done| |done].
    - apply initialized_app_functions, initialized_set_closures.
      by apply initialized_app_functions, initialized_set_closures.
    - destruct s; cbn. apply lookup_app_l_Some, lookup_app_length.
    - by destruct s, p. }
  assert (invoke (fn_mapCall_closure (length (closures s1))) (length rs) s3
          = Ok rs (set_closures
                     <[length (closures s1)
                       := mkVars (RVal t' (DRef p)) keys (0 + length rs)]> s3))
    as Hrun2.
  { apply (invoke_snapshot p0 _ t' p kt et keys m rs s3 0); [| |done| |done].
    - apply initialized_set_closures, initialized_app_functions,
        initialized_set_closures.
      by apply initialized_app_functions, initialized_set_closures.
    - rewrite Hc1. destruct s as [R T U Fs C Mp St]; cbn.
      rewrite list_lookup_insert_ne by lia.
      replace (S (length C)) with (length (C ++ [vars]))
        by (rewrite length_app; cbn; lia).
      apply lookup_app_length.
    - by destruct s, p. }
  exists (length (functions s)), (length (closures s)),
    (length (functions s1)), (length (closures s1)), s1, s2, s3.
  eexists.
  split; [exact Hcall1|]. split; [exact Hcall2|].
  split; [lia|]. split; [lia|].
  split; [destruct s; cbn; apply lookup_app_l_Some, lookup_app_length|].
  split; [rewrite Hf1; destruct s as [R T U Fs C Mp St]; cbn;
          replace (S (length Fs))
            with (length (Fs ++ [fn_mapCall_closure (length C)]))
            by (rewrite length_app; cbn; lia);
          apply lookup_app_length|].
  rewrite <- Hlen. split; [exact Hrun1|exact Hrun2].
Qed.

Lemma iterators_independent_witness :
  initialized places_state 1
  ∧ map_handle places_state 0 (TBasic string_t) (TBasic string_t) (Some 0)
  ∧ map_entries places_state (Some 0) = Some places_entries
  ∧ (∀ i k e, places_entries !! i = Some (k, e) →
              map_find (TBasic string_t) k places_entries 0 = Some (i, e))
  ∧ Forall2 (λ entry r, pair_of (TBasic string_t) (TBasic string_t) entry = Some r)
      places_entries
      [[LString "NA"; LString "North America"];
       [LString "EU"; LString "European Union"]]
  ∧ ∃ f1 env1 f2 env2 s1 s2 s3 s4,
      call mapCall [LUserData 0] places_state = Ok [LFunction f1] s1
      ∧ call mapCall [LUserData 0] s1 = Ok [LFunction f2] s2
      ∧ f1 ≠ f2 ∧ env1 ≠ env2
      ∧ functions s2 !! f1 = Some (fn_mapCall_closure env1)
      ∧ functions s2 !! f2 = Some (fn_mapCall_closure env2)
      ∧ invoke (fn_mapCall_closure env1) (length places_entries) s2
        = Ok [[LString "NA"; LString "North America"];
              [LString "EU"; LString "European Union"]] s3
      ∧ invoke (fn_mapCall_closure env2) (length places_entries) s3
        = Ok [[LString "NA"; LString "North America"];
              [LString "EU"; LString "European Union"]] s4.
Proof.
  assert (map_handle places_state 0 (TBasic string_t) (TBasic string_t) (Some 0))
    as Hh by (eexists _, _; split; [vm_compute; reflexivity | by split]).
  assert (map_entries places_state (Some 0) = Some places_entries) as Hm
    by (vm_compute; reflexivity).
  assert (∀ i k e, places_entries !! i = Some (k, e) →
                   map_find (TBasic string_t) k places_entries 0 = Some (i, e))
    as Hproper.
  { intros [|[|i]] k e H; [| |done]; injection H as <- <-; vm_compute; reflexivity. }
  assert (Forall2 (λ entry r, pair_of (TBasic string_t) (TBasic string_t) entry = Some r)
            places_entries
            [[LString "NA"; LString "North America"];
             [LString "EU"; LString "European Union"]]) as HF
    by (repeat constructor).
  split; [apply places_state_initialized|]. split; [exact Hh|]. split; [exact Hm|].
  split; [exact Hproper|]. split; [exact HF|].
  exact (iterators_independent places_state 1 0 _ _ (Some 0) places_entries _
           places_state_initialized Hh Hm Hproper HF).
Defined.

(** *** Keys of a map keyed by interfaces *)

Lemma map_find_lua_key kt lv m pos :
  Forall (λ entry : GoData * GoData, ∃ t x, entry.1 = DIface (IDyn t x)) m →
  map_find kt (DIface (ILua lv)) m pos = None.
Proof.
  intros HF. revert pos.
  induction HF as [|[k e] m (t & x & Hk) _ IH]; intros pos; cbn [map_find]; [done|].
  cbn [fst] in Hk. subst k. unfold key_eqb. cbn [go_eq]. apply IH.
Qed.

(** X24.  In a map whose key type is [interface{}] a script number is the
    key [lua.LNumber] itself, not a Go number: through the handle of such
    a map whose keys are all Go values, an index-read with a number returns
    nothing, whatever the number and the keys, while a string finds the
    entry that Go code stored under the same Go string. *)
Theorem interface_keys s ud kt et p m :
  map_handle s ud kt et p →
  map_entries s p = Some m →
  underlying kt = TInterface →
  Forall (λ entry, ∃ t x, entry.1 = DIface (IDyn t x)) m →
  (∀ n, host_key s (LNumber n) kt = Some (DIface (ILua (LNumber n)))
        ∧ call mapIndex [LUserData ud; LNumber n] s = Ok [] s)
  ∧ (∀ x pos e,
       map_find kt (DIface (IDyn (TBasic string_t) (DString x))) m 0 = Some (pos, e) →
       call mapIndex [LUserData ud; LString x] s
       = (r <- New (stored_iface et e) ;; ret [r]) s).
Proof.
  intros Hh Hm Hu HF.
  assert (TypeKind kt = Interface) as Hk by (by rewrite <- TypeKind_underlying, Hu).
  split.
  - intros n.
    assert (host_key s (LNumber n) kt = Some (DIface (ILua (LNumber n)))) as Hkey.
    { unfold host_key. cbn [lValueToReflect]. unfold Convert_LNumber.
      rewrite Hk. cbn [is_int_kind is_uint_kind]. rewrite bind_ret.
      unfold assignTo. rewrite directlyAssignable_refl. by rewrite bind_ret. }
    split; [exact Hkey|].
    pose proof (mapIndex_lookup s ud kt et p (LNumber n) _ m
                  [LUserData ud; LNumber n] Hh Hkey Hm eq_refl eq_refl) as H.
    rewrite (map_find_lua_key kt (LNumber n) m 0 HF) in H.
    rewrite (call_spec _ _ _ _ _ H).
    by rewrite set_stack_set_stack, set_stack_id.
  - intros x pos e Hf.
    eapply mapIndex_found; [exact Hh| |exact Hm|exact Hf].
    unfold host_key. cbn [lValueToReflect]. rewrite bind_ret.
    by rewrite (bind_Ok _ _ _ _ _ (assignTo_basic_interface _ _ kt s Hu)).
Qed.

Lemma interface_keys_witness :
  map_handle mixed_state 0 TInterface (TBasic string_t) (Some 0)
  ∧ map_entries mixed_state (Some 0) = Some mixed_entries
  ∧ underlying TInterface = TInterface
  ∧ Forall (λ entry, ∃ t x, entry.1 = DIface (IDyn t x)) mixed_entries
  ∧ (∀ n, host_key mixed_state (LNumber n) TInterface
          = Some (DIface (ILua (LNumber n)))
          ∧ call mapIndex [LUserData 0; LNumber n] mixed_state = Ok [] mixed_state)
  ∧ (∀ x pos e,
       map_find TInterface (DIface (IDyn (TBasic string_t) (DString x)))
         mixed_entries 0 = Some (pos, e) →
       call mapIndex [LUserData 0; LString x] mixed_state
       = (r <- New (stored_iface (TBasic string_t) e) ;; ret [r]) mixed_state).
Proof.
  assert (map_handle mixed_state 0 TInterface (TBasic string_t) (Some 0))
    as Hh by (eexists _, _; split; [vm_compute; reflexivity | by split]).
  assert (map_entries mixed_state (Some 0) = Some mixed_entries) as Hm
    by (vm_compute; reflexivity).
  assert (Forall (λ entry : GoData * GoData, ∃ t x, entry.1 = DIface (IDyn t x))
            mixed_entries) as HF
    by (repeat constructor; by eexists _, _).
  split; [exact Hh|]. split; [exact Hm|]. split; [reflexivity|]. split; [exact HF|].
  exact (interface_keys mixed_state 0 _ _ (Some 0) mixed_entries Hh Hm eq_refl HF).
Defined.

(** *** The key nil *)

Lemma hashable_zero_both :
  (∀ t, hashable (zero_data t) = true)
  ∧ (∀ fs, forallb hashable (zero_fields fs) = true).
Proof.
  apply GoType_TypeList_ind; intros; cbn [zero_data zero_fields hashable forallb];
    try done.
  - by destruct b.
  - induction len; cbn; [done|]. by rewrite H.
  - by rewrite H, H0.
Qed.

(** X25.  The script value nil as a key is the zero value of the key
    type: through the handle of a map, an index-read with the key nil
    returns the element stored under the zero key (the empty string, the
    number 0, false), and an index-write with the key nil writes that
    entry. *)
Theorem nil_key_is_zero_key s ud kt et a m V e :
  map_handle s ud kt et (Some a) →
  maps s !! a = Some m →
  host_elem s V et = Some (Some e) →
  host_key s LNil kt = Some (zero_data kt)
  ∧ call mapIndex [LUserData ud; LNil] s
    = match map_find kt (zero_data kt) m 0 with
      | Some (_, e0) => (r <- New (stored_iface et e0) ;; ret [r]) s
      | None => Ok [] s
      end
  ∧ call mapNewIndex [LUserData ud; LNil; V] s
    = Ok [] (set_maps <[a := map_assign kt (zero_data kt) e m]> s).
Proof.
  intros Hh Hm He.
  assert (host_key s LNil kt = Some (zero_data kt)) as Hk.
  { unfold host_key. cbn [lValueToReflect]. rewrite bind_ret. unfold Zero.
    unfold assignTo. rewrite directlyAssignable_refl. rewrite bind_ret.
    unfold check_hashable. by rewrite (proj1 hashable_zero_both). }
  split; [exact Hk|]. split.
  - destruct (map_find kt (zero_data kt) m 0) as [[pos e0]|] eqn:Hf.
    + by eapply (mapIndex_found s ud kt et (Some a)).
    + pose proof (mapIndex_lookup s ud kt et (Some a) LNil _ m [LUserData ud; LNil]
                    Hh Hk Hm eq_refl eq_refl) as H.
      rewrite Hf in H. rewrite (call_spec _ _ _ _ _ H).
      by rewrite set_stack_set_stack, set_stack_id.
  - by apply (mapNewIndex_write s ud kt et a LNil V (zero_data kt) e m).
Qed.

Lemma nil_key_is_zero_key_witness :
  map_handle counts_state 0 (TBasic string_t) (TBasic int_t) (Some 0)
  ∧ maps counts_state !! 0 = Some counts_entries
  ∧ host_elem counts_state (LNumber (float64_of_Z 8)) (TBasic int_t)
    = Some (Some (DInt 8))
  ∧ host_key counts_state LNil (TBasic string_t) = Some (zero_data (TBasic string_t))
  ∧ call mapIndex [LUserData 0; LNil] counts_state
    = match map_find (TBasic string_t) (zero_data (TBasic string_t))
              counts_entries 0 with
      | Some (_, e0) => (r <- New (stored_iface (TBasic int_t) e0) ;; ret [r]) counts_state
      | None => Ok [] counts_state
      end
  ∧ call mapNewIndex [LUserData 0; LNil; LNumber (float64_of_Z 8)] counts_state
    = Ok [] (set_maps
               <[0 := map_assign (TBasic string_t) (zero_data (TBasic string_t))
                        (DInt 8) counts_entries]> counts_state).
Proof.
  assert (map_handle counts_state 0 (TBasic string_t) (TBasic int_t) (Some 0))
    as Hh by (eexists _, _; split; [vm_compute; reflexivity | by split]).
  assert (maps counts_state !! 0 = Some counts_entries) as Hm
    by (vm_compute; reflexivity).
  assert (host_elem counts_state (LNumber (float64_of_Z 8)) (TBasic int_t)
          = Some (Some (DInt 8))) as He by (vm_compute; reflexivity).
  split; [exact Hh|]. split; [exact Hm|]. split; [exact He|].
  exact (nil_key_is_zero_key counts_state 0 _ _ 0 counts_entries
           (LNumber (float64_of_Z 8)) (DInt 8) Hh Hm He).
Defined.
